(** * Routicorn: route tree, path generation and sub-request forwarding

    A shallow embedding of the route-tree and forwarding core of routicorn
    (src/lib/route/base.js, src/lib/request.js, src/lib/route/factory.js,
    src/lib/routicorn.js and the action-route variants of src/lib/route/action.js
    and src/unnamed/part_003).

    Route objects are identified by integers; a route store [rt : nat -> Route]
    maps an identity to the data of the object.  [None] stands for JavaScript's
    [null].  Thrown exceptions become the [Err] branch of a result type. *)

From Stdlib Require Import String Ascii List Bool Arith ZArith Lia Permutation.
Import ListNotations.
Open Scope string_scope.
Open Scope list_scope.
Open Scope nat_scope.

(* ------------------------------------------------------------------ *)
(** ** Results and strings *)

Inductive result (E A : Type) : Type :=
| Ok : A -> result E A
| Err : E -> result E A.
Arguments Ok {E A} _.
Arguments Err {E A} _.

Definition bind {E A B} (m : result E A) (k : A -> result E B) : result E B :=
  match m with Ok a => k a | Err e => Err e end.

Notation "x <- m ;; k" := (bind m (fun x => k))
  (at level 61, m at next level, right associativity).

(** [String.prototype.toLowerCase] / [toUpperCase] on ASCII. *)
Definition lower_ascii (c : ascii) : ascii :=
  let n := nat_of_ascii c in
  if (65 <=? n) && (n <=? 90) then ascii_of_nat (n + 32) else c.

Definition upper_ascii (c : ascii) : ascii :=
  let n := nat_of_ascii c in
  if (97 <=? n) && (n <=? 122) then ascii_of_nat (n - 32) else c.

Fixpoint toLowerCase (s : string) : string :=
  match s with
  | EmptyString => EmptyString
  | String c s' => String (lower_ascii c) (toLowerCase s')
  end.

Fixpoint toUpperCase (s : string) : string :=
  match s with
  | EmptyString => EmptyString
  | String c s' => String (upper_ascii c) (toUpperCase s')
  end.

(** [a || b] on string operands: an empty or missing string is falsy. *)
Definition str_or (a : option string) (b : string) : string :=
  match a with
  | Some s => if String.eqb s "" then b else s
  | None => b
  end.

(** [Array.prototype.join] on strings. *)
Fixpoint join (sep : string) (l : list string) : string :=
  match l with
  | [] => ""
  | [x] => x
  | x :: l' => x ++ sep ++ join sep l'
  end.

(* ------------------------------------------------------------------ *)
(** ** Route objects *)

(** One segment of a parsed pattern ([_parsePattern], base.js 1291-1331):
    [regExp] is the test of [new RegExp(requirements[param])] and
    [defaultValue] is [defaults[param]], as a string. *)
Inductive Segment : Type :=
| Static (value cleanValue : string)
| Param (value param : string) (optional : bool)
        (regExp : option (string -> bool)) (defaultValue : option string).

(** The fields of a route object that the modelled code reads. *)
Record Route : Type := mkRoute {
  name : string;
  parentRoute : option nat;        (* _parentRoute / getParentRoute() *)
  actionable : bool;               (* _actionable *)
  root : bool;                     (* _root *)
  verbStyle : bool;                (* ActionRoute#verbStyle *)
  methods : list string;           (* ActionRoute#methods (lower case) *)
  handlesAllMethods : bool;        (* a catch-all 'all' handler exists *)
  segments : list Segment;         (* _parsedPattern.segments *)
  patternIsRegExp : bool           (* pattern is a true RegExp *)
}.

(** [ActionRoute#handlesMethod] (part_003 242-244): the catch-all flag or an
    entry of [_verbActions], whose keys are exactly [methods]. *)
Definition handlesMethod (r : Route) (verb : string) : bool :=
  handlesAllMethods r || existsb (String.eqb (toLowerCase verb)) (methods r).

(** [ActionRoute#method]: the first defined verb ([verbs[0]]). *)
Definition method (r : Route) : string := nth 0 (methods r) "".

(* ------------------------------------------------------------------ *)
(** ** Tree navigation (BaseRoute, base.js 1042-1152)

    The parent walks of the JavaScript code are loops over parent links.
    They are written with fuel: a walk that starts at route [n] gets fuel
    for [n] parent steps, which is always enough when parents are created
    before their children (parent identities are smaller), which is how
    the route factory builds trees. *)

Section Tree.

Variable rt : nat -> Route.

Definition getParentRoute (n : nat) : option nat := parentRoute (rt n).

(** [isChildRouteOf] (base.js 1119-1132), without a search depth. *)
Fixpoint isChild_loop (fuel : nat) (route par : nat) : bool :=
  match fuel with
  | 0 => false
  | S f =>
      match getParentRoute route with
      | None => false
      | Some p => if Nat.eqb p par then true else isChild_loop f p par
      end
  end.

Definition isChildRouteOf (this par : nat) : bool :=
  if actionable (rt par) || Nat.eqb this par then false
  else isChild_loop this this par.

(** [findConnectingRoute] (base.js 1102-1111). *)
Fixpoint findConnecting_loop (fuel : nat) (check route : nat) : option nat :=
  match fuel with
  | 0 => None
  | S f =>
      if root (rt check) || Nat.eqb check route || isChildRouteOf route check
      then Some check
      else match getParentRoute check with
           | None => None
           | Some p => findConnecting_loop f p route
           end
  end.

Definition findConnectingRoute (this route : nat) : option nat :=
  findConnecting_loop (S this) this route.

(** [getParentRoutes] (base.js 1088-1095):
    [while (route !== untilRoute && (route = route.getParentRoute()) !== null)
       parentRoutes.unshift(route)]. *)
Fixpoint getParentRoutes_loop (fuel : nat) (route until : nat) (acc : list nat)
  : list nat :=
  match fuel with
  | 0 => acc
  | S f =>
      if Nat.eqb route until then acc
      else match getParentRoute route with
           | None => acc
           | Some p => getParentRoutes_loop f p until (p :: acc)
           end
  end.

Definition getParentRoutes (this until : nat) : list nat :=
  getParentRoutes_loop this this until [].

(** [isSiblingOf] (base.js 1148-1152). *)
Definition isSiblingOf (this sibling : nat) : bool :=
  match getParentRoute sibling, getParentRoute this with
  | Some a, Some b => Nat.eqb a b
  | _, _ => false
  end.

(** The dispatch route of a forward (request.js 168-187):
    [Some (invokeActionDirectly, dispatchRoute)], or [None] where the code
    throws "Unable to determine dispatch route". *)
Definition dispatchPlan (currentRoute targetRoute : nat) : option (bool * nat) :=
  if isSiblingOf currentRoute targetRoute then Some (true, targetRoute)
  else match findConnectingRoute currentRoute targetRoute with
       | None => None
       | Some connectingRoute =>
           let parentRoutes := getParentRoutes targetRoute connectingRoute in
           if length parentRoutes <? 2 then Some (true, targetRoute)
           else Some (false, nth 1 parentRoutes targetRoute)
       end.

(** *** Reference notions of the specification *)

(** The ancestor-or-self chain of a route, bottom-up; with fuel [f] it
    holds the route and at most [f - 1] ancestors. *)
Fixpoint chain_f (fuel : nat) (n : nat) : list nat :=
  match fuel with
  | 0 => []
  | S f => n :: match getParentRoute n with
                | None => []
                | Some p => chain_f f p
                end
  end.

Definition chain (n : nat) : list nat := chain_f (S n) n.

(** Strict ancestors, bottom-up. *)
Definition ancestors (n : nat) : list nat := tl (chain n).

(** The nearest common ancestor: the first route on [cur]'s ancestor-or-self
    chain that is [tgt] or an ancestor of [tgt]. *)
Definition nca (cur tgt : nat) : option nat :=
  find (fun x => Nat.eqb x tgt || existsb (Nat.eqb x) (ancestors tgt)) (chain cur).

Fixpoint takeWhile_ne (c : nat) (l : list nat) : list nat :=
  match l with
  | [] => []
  | x :: l' => if Nat.eqb x c then [] else x :: takeWhile_ne c l'
  end.

(** The target's ancestors strictly below [c], top-down. *)
Definition chain_below (c tgt : nat) : list nat :=
  if Nat.eqb c tgt then [] else rev (takeWhile_ne c (ancestors tgt)).

Fixpoint upto_incl (c : nat) (l : list nat) : list nat :=
  match l with
  | [] => []
  | x :: l' => x :: (if Nat.eqb x c then [] else upto_incl c l')
  end.

End Tree.

(** Well-formed route trees, as built by [setParentRoute] (base.js
    1052-1069) and [_setRoot] (base.js 1450-1456): parents are created
    before their children, an actionable route has no sub-routes, and a
    root route has no parent. *)
Definition parents_first (rt : nat -> Route) : Prop :=
  forall n p, getParentRoute rt n = Some p -> p < n.

Definition parents_not_actionable (rt : nat -> Route) : Prop :=
  forall n p, getParentRoute rt n = Some p -> actionable (rt p) = false.

Definition roots_parentless (rt : nat -> Route) : Prop :=
  forall n, root (rt n) = true -> getParentRoute rt n = None.

(** A small tree: the root [0] with an action route [a] (1) and a segment
    [s] (2), and the action route [t] (3) below [s]. *)
Definition segment_route (nm : string) (par : option nat) (isRoot : bool) : Route :=
  mkRoute nm par false isRoot false [] false [] false.

Definition action_route (nm : string) (par : option nat) (ms : list string) : Route :=
  mkRoute nm par true false false ms false [] false.

Definition tree1 (n : nat) : Route :=
  match n with
  | 0 => segment_route "@routicorn@" None true
  | 1 => action_route "a" (Some 0) ["get"]
  | 2 => segment_route "s" (Some 0) false
  | 3 => action_route "t" (Some 2) ["get"]
  | _ => segment_route "unused" None false
  end.

(* ------------------------------------------------------------------ *)
(** ** Path generation ([generatePath], base.js 1178-1269)

    This is the [generatePath] of the route class that [request.js] and the
    router use ([getParentRoute], [_getRouteChain]).  The older prototype
    version (base.js 487-568) walks the same segments but reports a
    missing parameter through [self.getRouteHistory()], a method no route
    class defines, so there the report itself throws a TypeError. *)

Definition is_slash (c : ascii) : bool := Ascii.eqb c "/"%char.

(** [s.replace(/\/+/g, '/')] *)
Fixpoint collapse_aux (prev_slash : bool) (s : string) : string :=
  match s with
  | EmptyString => EmptyString
  | String c s' =>
      if is_slash c
      then (if prev_slash then collapse_aux true s' else String c (collapse_aux true s'))
      else String c (collapse_aux false s')
  end.

Definition collapse_slashes (s : string) : string := collapse_aux false s.

(** [_.trim(s, '/')] *)
Fixpoint trim_start (s : string) : string :=
  match s with
  | EmptyString => EmptyString
  | String c s' => if is_slash c then trim_start s' else s
  end.

Fixpoint trim_end (s : string) : string :=
  match s with
  | EmptyString => EmptyString
  | String c s' =>
      let t := trim_end s' in
      if is_slash c && String.eqb t "" then EmptyString else String c t
  end.

Definition trim_slashes (s : string) : string := trim_end (trim_start s).

(** JavaScript truthiness of a looked-up string ([params[name]],
    [segment.defaultValue]): missing and empty are falsy. *)
Definition truthy (v : option string) : bool :=
  match v with Some s => negb (String.eqb s "") | None => false end.

Definition value_of (v : option string) : string :=
  match v with Some s => s | None => "" end.

(** The properties every plain object inherits from [Object.prototype]. *)
Definition object_prototype_props : list string :=
  ["constructor"; "hasOwnProperty"; "isPrototypeOf"; "propertyIsEnumerable";
   "toLocaleString"; "toString"; "valueOf"; "__proto__"; "__defineGetter__";
   "__defineSetter__"; "__lookupGetter__"; "__lookupSetter__"].

(** The string an inherited property [k] becomes when concatenated: the
    prototype itself for [__proto__], the function [Object] for
    [constructor], a native method otherwise. *)
Definition inherited_string (k : string) : option string :=
  if String.eqb k "__proto__" then Some "[object Object]"
  else if String.eqb k "constructor" then Some "function Object() { [native code] }"
  else if existsb (String.eqb k) object_prototype_props
  then Some ("function " ++ k ++ "() { [native code] }")%string
  else None.

(** [o[k]] on a plain object whose own string-valued properties are [own]:
    an own property, else a property inherited from [Object.prototype]. *)
Definition obj_read (own : string -> option string) (k : string) : option string :=
  match own k with Some v => Some v | None => inherited_string k end.

(** The errors [generatePath] throws. *)
Inductive PathErr : Type :=
| RegExpPattern (routeName chain : string)
| MissingParam (param routeName chain : string)
| Requirement (routeName value : string) (useDefault : bool) (param chain : string).

Definition top_is (top : option nat) (p : nat) : bool :=
  match top with Some t => Nat.eqb t p | None => false end.

Section Path.

Variable rt : nat -> Route.

(** [_getRouteChain] (base.js 1465-1472): route names from the root down. *)
Definition getRouteChain (self : nat) : string :=
  join " → " (map (fun r => name (rt r)) (rev (chain rt self))).

(** The reducer over the segments of [route] (base.js 1214-1246);
    [params] are the own properties of the [params] object, and
    [params[segment.param]] is read with [obj_read]. *)
Definition reduceSegment (route self : nat) (params : string -> option string)
    (checkRequirements : bool) (memo : string) (seg : Segment) : result PathErr string :=
  match seg with
  | Static _ cleanValue => Ok (memo ++ "/" ++ cleanValue)%string
  | Param _ param optional regExp defaultValue =>
      let emit (val : string) (useDefault : bool) :=
        if checkRequirements &&
           match regExp with Some test => negb (test val) | None => false end
        then Err (Requirement (name (rt route)) val useDefault param (getRouteChain self))
        else Ok (memo ++ "/" ++ val)%string in
      let val := obj_read params param in
      if truthy val then emit (value_of val) false
      else if truthy defaultValue then emit (value_of defaultValue) true
      else if optional then Ok memo
      else Err (MissingParam param (name (rt route)) (getRouteChain self))
  end.

Fixpoint reduceSegments (route self : nat) (params : string -> option string)
    (checkRequirements : bool) (segs : list Segment) (memo : string) : result PathErr string :=
  match segs with
  | [] => Ok memo
  | seg :: rest =>
      m <- reduceSegment route self params checkRequirements memo seg ;;
      reduceSegments route self params checkRequirements rest m
  end.

(** The [do ... while] over the route and its parents up to [topMostRoute]
    (base.js 1203-1247); [joined] is [segments.join('')] so far. *)
Fixpoint generatePath_loop (fuel route self : nat) (params : string -> option string)
    (checkRequirements : bool) (top : option nat) (joined : string) : result PathErr string :=
  match fuel with
  | 0 => Ok joined
  | S f =>
      if patternIsRegExp (rt route)
      then Err (RegExpPattern (name (rt route)) (getRouteChain self))
      else
        seg <- reduceSegments route self params checkRequirements (segments (rt route)) "" ;;
        let joined' := (seg ++ joined)%string in
        match getParentRoute rt route with
        | None => Ok joined'
        | Some p =>
            if top_is top p then Ok joined'
            else generatePath_loop f p self params checkRequirements top joined'
        end
  end.

(** [generatePath(params, queryParams, checkRequirements, topMostRoute)]
    returning the path string; [queryString] is [qs.stringify(queryParams)]. *)
Definition generatePath (self : nat) (params : string -> option string)
    (queryString : string) (checkRequirements : bool) (top : option nat)
    : result PathErr string :=
  joined <- generatePath_loop (S self) self self params checkRequirements top "" ;;
  Ok ("/" ++ trim_slashes (collapse_slashes joined) ++
      (if String.eqb queryString "" then "" else "?" ++ queryString))%string.

(** The routes whose patterns the loop reads, from [self] upwards. *)
Fixpoint walk_routes (fuel route : nat) (top : option nat) : list nat :=
  match fuel with
  | 0 => []
  | S f =>
      route :: match getParentRoute rt route with
               | None => []
               | Some p => if top_is top p then [] else walk_routes f p top
               end
  end.

Definition segmentFails (route self : nat) (params : string -> option string)
    (checkRequirements : bool) (seg : Segment) : bool :=
  match reduceSegment route self params checkRequirements "" seg with
  | Err _ => true
  | Ok _ => false
  end.

End Path.

(** A parameter segment for [p] that is optional and has no default. *)
Definition optional_without_default (p : string) (seg : Segment) : bool :=
  match seg with
  | Param _ q true _ d => String.eqb q p && negb (truthy d)
  | _ => false
  end.

Definition with_segments (segs : list Segment) (r : Route) : Route :=
  mkRoute (name r) (parentRoute r) (actionable r) (root r) (verbStyle r) (methods r)
          (handlesAllMethods r) segs (patternIsRegExp r).

(** The same routes with the optional, default-less segments of [p]
    removed from every pattern. *)
Definition strip_param (p : string) (rt : nat -> Route) (n : nat) : Route :=
  with_segments (filter (fun s => negb (optional_without_default p s)) (segments (rt n))) (rt n).

(** Shape of a path: starts with a slash, no two slashes in a row. *)
Definition starts_slash (s : string) : bool :=
  match s with String c _ => is_slash c | EmptyString => false end.

Fixpoint no_dslash (s : string) : bool :=
  match s with
  | EmptyString => true
  | String c s' => negb (is_slash c && starts_slash s') && no_dslash s'
  end.

Fixpoint no_slash (s : string) : bool :=
  match s with
  | EmptyString => true
  | String c s' => negb (is_slash c) && no_slash s'
  end.

(** [/./.test(v)] on an ASCII string: some character is not a line
    terminator. *)
Definition re_dot (v : string) : bool :=
  existsb (fun c => negb (Ascii.eqb c "010"%char || Ascii.eqb c "013"%char))
          (list_ascii_of_string v).

(** Routes for the path examples: the root, and below it a route [r] with
    pattern [/:q/:p] (both mandatory, no defaults), a route [o] with
    pattern [/list/:page?/x], a route [t] with pattern [/:toString] and a
    route [u] with pattern [/list/:toString?/x], both with the requirement
    ['.'] for [toString] and no [defaults] of their own, so that
    [_parsePattern] stores the inherited [defaults.toString]. *)
Definition path_rt (n : nat) : Route :=
  match n with
  | 0 => segment_route "@routicorn@" None true
  | 1 => with_segments [Param ":q" "q" false None None; Param ":p" "p" false None None]
                       (action_route "r" (Some 0) ["get"])
  | 2 => with_segments [Static "list" "list"; Param ":page?" "page" true None None;
                        Static "x" "x"]
                       (action_route "o" (Some 0) ["get"])
  | 3 => with_segments [Param ":toString" "toString" false (Some re_dot)
                          (inherited_string "toString")]
                       (action_route "t" (Some 0) ["get"])
  | 4 => with_segments [Static "list" "list";
                        Param ":toString?" "toString" true (Some re_dot)
                          (inherited_string "toString");
                        Static "x" "x"]
                       (action_route "u" (Some 0) ["get"])
  | _ => segment_route "unused" None false
  end.

Definition no_params (s : string) : option string := None.

(* ------------------------------------------------------------------ *)
(** ** Sub-request forwarding (request.js 94-233, utils.js 104-201)

    Request objects and forwarding-history arrays live in two heaps indexed
    by object identity; the history array is shared between a request and
    the sub-requests forwarded from it, and [history.push] mutates it in
    place.  A call returns the heap it leaves behind together with its
    result, so that mutations done before a [thr] stay visible. *)

Definition heap (A : Type) : Type := nat -> option A.

(** A plain object with string values, as a function from keys to values,
    [None] standing for [undefined]. *)
Definition Obj : Type := string -> option string.

Definition obj_empty : Obj := fun _ => None.

(** [o[k] = v] *)
Definition obj_set (o : Obj) (k v : string) : Obj :=
  fun x => if String.eqb x k then Some v else o x.

Definition upd {A} (m : heap A) (k : nat) (v : A) : heap A :=
  fun x => if Nat.eqb x k then Some v else m x.

(** The fields of an (express / mock) request object that the code reads
    or writes. *)
Record Req : Type := mkReq {
  req_method : string;              (* req.method *)
  routicornRoute : option nat;      (* set when a route handles the request *)
  fwdHistory : option nat;          (* _routicornForwardHistory (an array) *)
  canPipe : option bool;            (* __canPipe; None: undefined *)
  bodyUndefined : bool;             (* req.body === undefined *)
  originalReq : option nat;
  parentReq : option nat;
  pipeTeardown : bool               (* _teardownSubRequest is the restoring closure *)
}.

Definition set_canPipe (c : option bool) (r : Req) : Req :=
  mkReq (req_method r) (routicornRoute r) (fwdHistory r) c (bodyUndefined r)
        (originalReq r) (parentReq r) (pipeTeardown r).

Definition set_routicornRoute (rn : nat) (r : Req) : Req :=
  mkReq (req_method r) (Some rn) (fwdHistory r) (canPipe r) (bodyUndefined r)
        (originalReq r) (parentReq r) (pipeTeardown r).

(** [hdrs n] is the [headers] object of request [n]; header values are
    kept as strings.  The headers object that [readable-mock-req] builds
    for a sub-request is not modelled: a sub-request starts without one. *)
Record FState : Type := mkFState {
  reqs : heap Req;
  hists : heap (list nat);
  hdrs : heap Obj;
  res_req : nat;                    (* res.req *)
  fresh : nat                       (* next unused object identity *)
}.

Definition set_reqs (m : heap Req) (st : FState) : FState :=
  mkFState m (hists st) (hdrs st) (res_req st) (fresh st).
Definition set_hists (m : heap (list nat)) (st : FState) : FState :=
  mkFState (reqs st) m (hdrs st) (res_req st) (fresh st).
Definition set_hdrs (m : heap Obj) (st : FState) : FState :=
  mkFState (reqs st) (hists st) m (res_req st) (fresh st).
Definition set_res_req (n : nat) (st : FState) : FState :=
  mkFState (reqs st) (hists st) (hdrs st) n (fresh st).
Definition set_fresh (n : nat) (st : FState) : FState :=
  mkFState (reqs st) (hists st) (hdrs st) (res_req st) n.

Definition headers_of (st : FState) (n : nat) : Obj :=
  match hdrs st n with Some o => o | None => obj_empty end.

(** The errors thrown by [thr] in [forward], by kind. *)
Inductive FwdError : Type :=
| TypeErr                                  (* property read on undefined *)
| UnknownRoute (routeName : string)
| NonActionRoute (routeName : string)
| SameRoute (routeName : string)
| VerbMismatch (routeName verb : string)
| LoopDetected (chain : list string)
| NoDispatchRoute (routeName : string)
| PathError (routeName : string).

(** The separator of the loop message as the source file spells it: the
    UTF-8 bytes of an arrow decoded once more as another encoding. *)
Definition loop_sep : string := " â†’ ".

(** The message of [LoopDetected] (request.js 154-158). *)
Definition loop_message (chain : list string) : string :=
  "[forward] Detected loop: " ++ join loop_sep chain.

(** The result of a successful [forward] call: the task scheduled with
    [setImmediate]. *)
Record Dispatch : Type := mkDispatch {
  dreq : nat;          (* dispatchReq *)
  droute : nat;        (* dispatchRoute *)
  direct : bool;       (* invokeActionDirectly *)
  caller : nat;        (* currentReq *)
  target : nat         (* targetRoute *)
}.

(** What the forwarding caller observes: [next(err)], with the value of
    [res.req] at the time of the call. *)
Inductive FwdEvent : Type :=
| NextCalled (err : option string) (resReq : nat).

Section Forward.

Variable rt : nat -> Route.
(** [router.getRoute]. *)
Variable getRoute : string -> option nat.
(** The path generation of request.js 188-203 for a target route: [None]
    where [generatePath] throws. *)
Variable sub_url : nat -> option string.

Definition hist_of (st : FState) (h : nat) : list nat :=
  match hists st h with Some l => l | None => [] end.

(** request.js 140-149: the method of the sub-request ([props.method]). *)
Definition forwardMethod (routeName : string) (tgt : Route)
    (verb props_method : option string) (curMethod : string) : result FwdError string :=
  let verb := toLowerCase (str_or verb (str_or props_method curMethod)) in
  if handlesMethod tgt verb then Ok verb
  else if Nat.eqb (length (methods tgt)) 1 then Ok (method tgt)
  else Err (VerbMismatch routeName (toUpperCase verb)).

(** [utils.createSubRequest(parentReq, props)] (utils.js 104-201), for a
    parent request [pid] with record [parent]: returns the heap and the new
    request's identity.  [props.headers] is [parentReq.headers] (copied as
    one of the [RESERVED_PROPS]), so the [Content-Length] write of
    utils.js 120-122 lands in the parent's headers object; the value
    written is the number [0], kept here as ["0"]. *)
Definition createSubRequest (st : FState) (pid : nat) (parent : Req)
    (props_method : string) (h : nat) : FState * nat :=
  let orig := match originalReq parent with Some o => o | None => pid end in
  let origBodyUndefined :=
    match reqs st orig with Some o => bodyUndefined o | None => true end in
  let meth := toUpperCase (str_or (Some props_method) (str_or (Some (req_method parent)) "GET")) in
  let canHaveBody := negb (existsb (String.eqb meth) ["GET"; "HEAD"; "DELETE"]) in
  let canPipe' := origBodyUndefined &&
                  negb (match canPipe parent with Some false => true | _ => false end) in
  let sid := fresh st in
  let sub := mkReq meth None (Some h)
                   (if canHaveBody then Some canPipe' else None)
                   origBodyUndefined (Some orig) (Some pid)
                   (canHaveBody && canPipe') in
  let rq := upd (reqs st) sid sub in
  let rq := if canHaveBody && canPipe' then upd rq pid (set_canPipe (Some false) parent)
            else rq in
  let hd := if canHaveBody && negb canPipe'
            then upd (hdrs st) pid (obj_set (headers_of st pid) "Content-Length" "0")
            else hdrs st in
  (set_fresh (S sid) (set_reqs rq (set_hdrs hd st)), sid).

(** request.js 152-162: the loop check against the forwarding history of
    the current request and the push of the target onto it, or a fresh
    history [[currentRoute, targetRoute]]; returns the heap and the history
    given to the sub-request. *)
Definition forwardHistory (st : FState) (creq : Req) (croute tgt : nat)
    : result FwdError (FState * nat) :=
  match fwdHistory creq with
  | Some h =>
      let l := hist_of st h in
      if existsb (Nat.eqb tgt) l
      then Err (LoopDetected (map (fun r => name (rt r)) (l ++ [tgt])))
      else Ok (set_hists (upd (hists st) h (l ++ [tgt])) st, h)
  | None =>
      let h := fresh st in
      Ok (set_fresh (S h) (set_hists (upd (hists st) h [croute; tgt]) st), h)
  end.

(** [req.forward(routeName, verb, properties, next)] (request.js 94-233)
    called on the request [cur], up to the [setImmediate] that schedules the
    dispatch.  [props_method] is [properties.method].  When the request has
    no [routicornRoute], [currentRoute] is [undefined]: the same-route test
    is false, the method and history steps run, and the read of
    [currentRoute.isSiblingOf] throws (the fresh history array of a request
    without one is then unreachable). *)
Definition forward (st : FState) (cur : nat) (routeName : string)
    (verb props_method : option string) : FState * result FwdError Dispatch :=
  match reqs st cur with
  | None => (st, Err TypeErr)
  | Some creq =>
  match getRoute routeName with
  | None => (st, Err (UnknownRoute routeName))
  | Some tgt =>
  if negb (actionable (rt tgt)) then (st, Err (NonActionRoute routeName)) else
  match routicornRoute creq with
  | None =>
      match forwardMethod routeName (rt tgt) verb props_method (req_method creq) with
      | Err e => (st, Err e)
      | Ok _ =>
          match fwdHistory creq with
          | Some h =>
              let l := hist_of st h in
              if existsb (Nat.eqb tgt) l
              then (st, Err (LoopDetected (map (fun r => name (rt r)) (l ++ [tgt]))))
              else (set_hists (upd (hists st) h (l ++ [tgt])) st, Err TypeErr)
          | None => (st, Err TypeErr)
          end
      end
  | Some croute =>
  if Nat.eqb croute tgt && negb (verbStyle (rt tgt)) then (st, Err (SameRoute routeName)) else
  match forwardMethod routeName (rt tgt) verb props_method (req_method creq) with
  | Err e => (st, Err e)
  | Ok pmethod =>
  match forwardHistory st creq croute tgt with
  | Err e => (st, Err e)
  | Ok (st1, h) =>
  match dispatchPlan rt croute tgt with
  | None => (st1, Err (NoDispatchRoute routeName))
  | Some (invokeDirectly, dispatchRoute) =>
  match sub_url tgt with
  | None => (st1, Err (PathError routeName))
  | Some _ =>
  let (st2, sid) := createSubRequest st1 cur creq pmethod h in
  (set_res_req sid st2, Ok (mkDispatch sid dispatchRoute invokeDirectly cur tgt))
  end end end end end end end.

(** The completion callback passed to [dispatchRoute.invoke] (request.js
    227-231): [_teardownSubRequest()], [res.req = currentReq], [next(err)].
    [didSetupPipe] is the state of the sub-request's body pipe. *)
Definition complete (st : FState) (d : Dispatch) (didSetupPipe : bool)
    (err : option string) : FState * list FwdEvent :=
  let st1 :=
    match reqs st (dreq d) with
    | Some sub =>
        if pipeTeardown sub && negb didSetupPipe then
          match parentReq sub, originalReq sub with
          | Some p, Some o =>
              if Nat.eqb p o then st
              else match reqs st p with
                   | Some pr => set_reqs (upd (reqs st) p (set_canPipe (Some true) pr)) st
                   | None => st
                   end
          | _, _ => st
          end
        else st
    | None => st
    end in
  let st2 := set_res_req (caller d) st1 in
  (st2, [NextCalled err (res_req st2)]).

(** A route handling the dispatched request sets [req.routicornRoute]. *)
Definition routeRequest (st : FState) (rid rn : nat) : FState :=
  match reqs st rid with
  | Some r => set_reqs (upd (reqs st) rid (set_routicornRoute rn r)) st
  | None => st
  end.

End Forward.

(** Heaps whose allocated objects all lie below the next free identity. *)
Definition fresh_ok (st : FState) : Prop :=
  forall n, fresh st <= n -> reqs st n = None /\ hists st n = None.

(** Routes for the forwarding examples: action routes [A], [B] (GET), [P]
    (POST only), [GP] (GET and POST) and the verb-style [V] (GET and POST),
    all below the root. *)
Definition fwd_rt (n : nat) : Route :=
  match n with
  | 0 => segment_route "@routicorn@" None true
  | 1 => action_route "A" (Some 0) ["get"]
  | 2 => action_route "B" (Some 0) ["get"]
  | 3 => action_route "P" (Some 0) ["post"]
  | 4 => action_route "GP" (Some 0) ["get"; "post"]
  | 5 => mkRoute "V" (Some 0) true false true ["get"; "post"] false [] false
  | _ => segment_route "unused" None false
  end.

Definition fwd_getRoute (s : string) : option nat :=
  find (fun n => String.eqb (name (fwd_rt n)) s) [1; 2; 3; 4; 5].

Definition fwd_url (n : nat) : option string := Some "/".

(** An incoming request with method [m] that route [r] is handling. *)
Definition incoming (m : string) (r : nat) : Req :=
  mkReq m (Some r) None None true None None false.

Definition fwd_st0 (m : string) (r : nat) : FState :=
  mkFState (upd (fun _ => None) 0 (incoming m r)) (fun _ => None)
           (upd (fun _ => None) 0 obj_empty) 0 1.

(** The method of the request that a dispatch sends. *)
Definition sub_method (st : FState) (d : Dispatch) : option string :=
  option_map req_method (reqs st (dreq d)).

(** The heap after a first forward from [A] to [B], once [B] handles the
    sub-request. *)
Definition fwd_nested : FState :=
  routeRequest (fst (forward fwd_rt fwd_getRoute fwd_url (fwd_st0 "GET" 1) 0 "B" None None)) 2 2.

(** The heap once a first forward from [A] to [B] has completed. *)
Definition fwd_twice_st : FState :=
  fst (complete (fst (forward fwd_rt fwd_getRoute fwd_url (fwd_st0 "GET" 1) 0 "B" None None))
                (mkDispatch 2 2 true 0 2) false None).

(** An incoming POST request with a body, handled by [GP]. *)
Definition body_req : Req := mkReq "POST" (Some 4) None None false None None false.

Definition fwd_st_body : FState :=
  mkFState (upd (fun _ => None) 0 body_req) (fun _ => None)
           (upd (fun _ => None) 0 obj_empty) 0 1.

(* ------------------------------------------------------------------ *)
(** ** Mounting and middleware (src/lib/route/base.js, second module;
    src/lib/route/segment.js and src/lib/route/action.js, second modules)

    The part of a route's state that [use], [addSubRoutes] and [mount] read
    or write, for the two route classes with their own [mount]: segment
    routes and action routes.  The root route's [mount] (factory.js 223-231)
    is not modelled.  A segment's [mount] deletes [_middleware], hence the
    option.  Middleware functions and sub-routes are object identities;
    [actionable] is true exactly for action routes. *)










(* ------------------------------------------------------------------ *)
(** ** Action invocation (src/lib/route/action.js and src/unnamed/part_003)

    A call of [_invokeAction(fn, req, res, next)] as the trace of what its
    caller observes.  The synchronous part runs in turn 0; the callbacks given
    to [setImmediate] run in the turns 1, 2, ... in the order they were
    scheduled.  An exception leaving a [setImmediate] callback is uncaught and
    stops the process. *)

Inductive HandlerOutcome : Type :=
| Returns
| CallsNext (err : option string)
| Throws (e : string).

Inductive InvokeEvent : Type :=
| EvEmitRequest
| EvNext (err : option string) (turn : nat)
| EvHandlerCalled (turn : nat)
| EvUncaught (e : string) (turn : nat).

(** [_handleRequestParams] calls its callback once with each parameter
    error, then once without an error. *)
Definition param_callbacks (errs : list string) : list (option string) :=
  map Some errs ++ [None].

(** The callback given to [_handleRequestParams]: [next(err)] on an error,
    otherwise one invocation scheduled.  Returns the events and the number of
    scheduled invocations. *)
Fixpoint params_phase (calls : list (option string)) : list InvokeEvent * nat :=
  match calls with
  | [] => ([], 0)
  | Some e :: cs => let (evs, n) := params_phase cs in (EvNext (Some e) 0 :: evs, n)
  | None :: cs => let (evs, n) := params_phase cs in (evs, S n)
  end.

(** The scheduled invocations [fn(req, res, next)], the first one in turn
    [turn]; [catch] tells whether the call sits in
    [try { ... } catch (e) { next(e); }]. *)
Fixpoint run_tasks (catch : bool) (turn n : nat) (out : HandlerOutcome)
  : list InvokeEvent :=
  match n with
  | 0 => []
  | S n' =>
      EvHandlerCalled turn ::
      match out with
      | Returns => run_tasks catch (S turn) n' out
      | CallsNext e => EvNext e turn :: run_tasks catch (S turn) n' out
      | Throws e =>
          if catch then EvNext (Some e) turn :: run_tasks catch (S turn) n' out
          else [EvUncaught e turn]
      end
  end.

(** src/lib/route/action.js, [_invokeAction]. *)
Definition invokeAction_lib (errs : list string) (out : HandlerOutcome)
  : list InvokeEvent :=
  let (evs, n) := params_phase (param_callbacks errs) in
  EvEmitRequest :: evs ++ run_tasks false 1 n out.

(** src/unnamed/part_003, [_invokeAction]; [handleOnAction] is
    [self._handleRequestParamsOnAction]. *)
Definition invokeAction_part003 (handleOnAction : bool) (errs : list string)
  (out : HandlerOutcome) : list InvokeEvent :=
  let (evs, n) := if handleOnAction then params_phase (param_callbacks errs)
                  else ([], 1) in
  EvEmitRequest :: evs ++ run_tasks true 1 n out.

(* ------------------------------------------------------------------ *)
(** ** Route registry (src/lib/routicorn.js, second module)

    [this._routes] is the plain object [{}].  A lookup finds the own
    properties [defineProp] added, and otherwise the properties inherited from
    [Object.prototype], all of them truthy.  A registry lists the own
    properties, name and route identity, in insertion order. *)

Definition Registry := list (string * nat).

Inductive Property : Type :=
| Own (route : nat)
| Inherited.

Fixpoint assoc (k : string) (reg : Registry) : option nat :=
  match reg with
  | [] => None
  | (k', v) :: reg' => if String.eqb k k' then Some v else assoc k reg'
  end.

(** [this._routes[name]] *)
Definition routes_get (reg : Registry) (nm : string) : option Property :=
  match assoc nm reg with
  | Some r => Some (Own r)
  | None => if existsb (String.eqb nm) object_prototype_props then Some Inherited else None
  end.

(** [hasRoute(name)]: [!!this._routes[name]]. *)
Definition hasRoute (reg : Registry) (nm : string) : bool :=
  match routes_get reg nm with Some _ => true | None => false end.

Inductive RegErr : Type :=
| DuplicateName (name : string)
| Ambiguous (name : string)
| InvalidConfig (name : string)
| BadName (name : string).

(** [registerRoute(route)] for a route [route] named [nm]; [self] is the
    router itself.  Returns the registry and the routes of the emitted
    ['route registered'] events. *)
Definition registerRoute (self : nat) (reg : Registry) (route : nat) (nm : string)
  : result RegErr (Registry * list nat) :=
  if route =? self then Ok (reg, [])
  else match routes_get reg nm with
       | Some (Own r) => if r =? route then Ok (reg, []) else Err (DuplicateName nm)
       | Some Inherited => Err (DuplicateName nm)
       | None => Ok (reg ++ [(nm, route)], [route])
       end.

(* ------------------------------------------------------------------ *)
(** ** Loading route configs (src/lib/route/factory.js, first module)

    A config entry has a controller or not, and optionally a [routes]
    config object and a [resource]: the config read from the included YAML
    file a string [resource] names.  The entries of a config object are
    listed in its iteration order. *)

Inductive Config : Type :=
| mkConfig (controller : bool) (routes : option Configs) (resource : option Configs)
with Configs : Type :=
| CNil
| CCons (key : string) (config : Config) (rest : Configs).

(** [_.trim(name)] on ASCII whitespace. *)
Definition is_ws (c : ascii) : bool :=
  let n := nat_of_ascii c in (n =? 32) || ((9 <=? n) && (n <=? 13)).

Fixpoint trim_ws_start (s : string) : string :=
  match s with
  | EmptyString => EmptyString
  | String c s' => if is_ws c then trim_ws_start s' else s
  end.

Fixpoint trim_ws_end (s : string) : string :=
  match s with
  | EmptyString => EmptyString
  | String c s' =>
      let t := trim_ws_end s' in
      if is_ws c && String.eqb t "" then EmptyString else String c t
  end.

Definition trim (s : string) : string := trim_ws_end (trim_ws_start s).

(** [NAME_REGEX = /^[\w@-]+$/] (base.js 11), which the constructor of the
    first module's route classes checks (base.js 149-160): letters,
    digits, [_], [@] and [-]. *)
Definition name_char (c : ascii) : bool :=
  let n := nat_of_ascii c in
  ((65 <=? n) && (n <=? 90)) || ((97 <=? n) && (n <=? 122)) || ((48 <=? n) && (n <=? 57)) ||
  (n =? 95) || (n =? 64) || (n =? 45).

Fixpoint all_name_chars (s : string) : bool :=
  match s with
  | EmptyString => true
  | String c s' => name_char c && all_name_chars s'
  end.

Definition valid_name (s : string) : bool :=
  negb (String.eqb s "") && all_name_chars s.

(** The registry of the router (whose own identity is [0]) and the next
    free object identity. *)
Record LState := mkLState { registry : Registry; next_id : nat }.

Definition has_sub_routes (routes resource : option Configs) : bool :=
  match routes, resource with None, None => false | _, _ => true end.

Definition register (st : LState) (route : nat) (nm : string) : result RegErr LState :=
  p <- registerRoute 0 (registry st) route nm ;; Ok (mkLState (fst p) (next_id st)).

(** [_createRoute] and [createRoutesFromConfigs]: the segment route is
    created first, the action route is created and registered, the
    sub-routes are loaded, and the segment route is registered last. *)
Fixpoint createRoute (nm : string) (c : Config) (st : LState) {struct c}
  : result RegErr LState :=
  match c with
  | mkConfig ctrl routes resource =>
      let hasSub := has_sub_routes routes resource in
      if negb ctrl && negb hasSub then Err (InvalidConfig nm)
      else if negb (valid_name nm) then Err (BadName nm)
      else
        let seg := next_id st in
        let st1 := if hasSub then mkLState (registry st) (S seg) else st in
        st2 <- (if ctrl
                then register (mkLState (registry st1) (S (next_id st1))) (next_id st1) nm
                else Ok st1) ;;
        st3 <- match routes with
               | Some cs => createRoutesFromConfigs cs st2
               | None => Ok st2
               end ;;
        st4 <- match resource with
               | Some cs => createRoutesFromConfigs cs st3
               | None => Ok st3
               end ;;
        if hasSub then register st4 seg nm else Ok st4
  end
with createRoutesFromConfigs (cs : Configs) (st : LState) {struct cs}
  : result RegErr LState :=
  match cs with
  | CNil => Ok st
  | CCons key c rest =>
      let nm := trim key in
      if hasRoute (registry st) nm then Err (Ambiguous nm)
      else st' <- createRoute nm c st ;; createRoutesFromConfigs rest st'
  end.

(** The names of the routes a config entry creates, in registration order. *)
Fixpoint config_names (nm : string) (c : Config) : list string :=
  match c with
  | mkConfig ctrl routes resource =>
      (if ctrl then [nm] else []) ++
      match routes with Some cs => configs_names cs | None => [] end ++
      match resource with Some cs => configs_names cs | None => [] end ++
      (if has_sub_routes routes resource then [nm] else [])
  end
with configs_names (cs : Configs) : list string :=
  match cs with
  | CNil => []
  | CCons key c rest => config_names (trim key) c ++ configs_names rest
  end.

Definition ctrl_entry : Config := mkConfig true None None.

(** Two entries named [a], one at the top and one below segment [s]. *)
Definition cfg_dup : Configs :=
  CCons "a" ctrl_entry (CCons "s" (mkConfig false (Some (CCons " a " ctrl_entry CNil)) None) CNil).

Definition lstate0 : LState := mkLState [] 1.

(** What a successful load does to the loader state: the registry grows by
    routes named [names], with fresh identities between [lo] and the next
    free one, and without a name registered twice. *)
Definition load_grows (lo : nat) (st st' : LState) (names : list string) : Prop :=
  next_id st <= next_id st' /\
  exists new, registry st' = registry st ++ new /\ map fst new = names /\
    Forall (fun p => lo <= snd p < next_id st') new /\
    (NoDup (map fst (registry st)) -> NoDup (map fst (registry st'))).

(** Registered identities are below the next free one, and [0] is the
    router's. *)
Definition load_pre (st : LState) : Prop :=
  0 < next_id st /\ Forall (fun p => snd p < next_id st) (registry st).

(* ------------------------------------------------------------------ *)
(** ** Search depth, tree building (base.js 1052-1069, 1119-1132, 1450-1456) *)

(** The [searchDepth] argument of [isChildRouteOf] (an integer, [None] when
    it is left out): [if (!searchDepth || searchDepth < 0) searchDepth =
    Infinity], here [None]; otherwise [Some] number of parent steps. *)
Definition search_limit (searchDepth : option Z) : option nat :=
  match searchDepth with
  | Some d => if (d <=? 0)%Z then None else Some (Z.to_nat d)
  | None => None
  end.

Section TreeDepth.

Variable rt : nat -> Route.

(** [while (searchDepth-- > 0 && (route = route.getParentRoute()) !== null
            && route !== parentRoute) {}
     return route === parentRoute;]
    A [null] parent ends the loop with [route === null], which is false. *)
Fixpoint isChild_walk (fuel : nat) (limit : option nat) (route par : nat) : bool :=
  match limit with
  | Some 0 => Nat.eqb route par
  | _ =>
      match fuel with
      | 0 => Nat.eqb route par
      | S f =>
          match getParentRoute rt route with
          | None => false
          | Some p =>
              if Nat.eqb p par then true
              else isChild_walk f (option_map pred limit) p par
          end
      end
  end.

(** [isChildRouteOf(parentRoute, searchDepth)] (base.js 1119-1132). *)
Definition isChildRouteOf_depth (this par : nat) (searchDepth : option Z) : bool :=
  if actionable (rt par) || Nat.eqb this par then false
  else isChild_walk this (search_limit searchDepth) this par.

End TreeDepth.

(** [p] is reached from [n] by exactly [k] parent links ([k >= 1]). *)
Inductive ancestor_at (rt : nat -> Route) : nat -> nat -> nat -> Prop :=
| anc_parent (n p : nat) :
    getParentRoute rt n = Some p -> ancestor_at rt 1 p n
| anc_up (k n q p : nat) :
    getParentRoute rt n = Some q -> ancestor_at rt k p q -> ancestor_at rt (S k) p n.

(** Routes with their sub-route lists ([_subRoutes]). *)
Record TreeState : Type := mkTreeState {
  troutes : nat -> Route;
  tsubs : nat -> list nat
}.

Inductive TreeErr : Type :=
| MultipleParents                        (* 'A route cannot be the child of multiple parent routes' *)
| ParentOfRoot (routeName : string)      (* 'Cannot set another route as parent root of root route' *)
| ActionableParent (parentName : string) (* 'Parent route is actionable and cannot have sub routes' *)
| RootWithParent (routeName parentName : string). (* 'Cannot set %s as root route, parent route is %s' *)

Definition with_parent (par : nat) (r : Route) : Route :=
  mkRoute (name r) (Some par) (actionable r) (root r) (verbStyle r) (methods r)
          (handlesAllMethods r) (segments r) (patternIsRegExp r).

Definition with_root (r : Route) : Route :=
  mkRoute (name r) (parentRoute r) (actionable r) true (verbStyle r) (methods r)
          (handlesAllMethods r) (segments r) (patternIsRegExp r).

(** [setParentRoute(parentRoute, unshift)] (base.js 1052-1069).  The parent
    is not actionable when [parentRoute.addSubRoute(this, unshift)] runs, so
    [addSubRoutes] (base.js 1019-1027, segment.js 143-146) puts [this] at the
    front or the back of the parent's [_subRoutes]. *)
Definition setParentRoute (ts : TreeState) (this par : nat) (unshift : bool)
  : result TreeErr TreeState :=
  let r := troutes ts this in
  match parentRoute r with
  | Some _ => Err MultipleParents
  | None =>
      if root r then Err (ParentOfRoot (name r))
      else if actionable (troutes ts par) then Err (ActionableParent (name (troutes ts par)))
      else
        let subs' := fun n => if Nat.eqb n par
                              then (if unshift then this :: tsubs ts n else tsubs ts n ++ [this])
                              else tsubs ts n in
        Ok (mkTreeState
              (fun n => if Nat.eqb n this then with_parent par (troutes ts n) else troutes ts n)
              subs')
  end.

(** [_setRoot] (base.js 1450-1456). *)
Definition setRoot (ts : TreeState) (this : nat) : result TreeErr TreeState :=
  let r := troutes ts this in
  match parentRoute r with
  | Some p => Err (RootWithParent (name r) (name (troutes ts p)))
  | None =>
      Ok (mkTreeState
            (fun n => if Nat.eqb n this then with_root (troutes ts n) else troutes ts n)
            (tsubs ts))
  end.

(** [tree1] with its sub-route lists, and the unattached route [4]. *)
Definition tree_ex : TreeState :=
  mkTreeState tree1 (fun n => match n with 0 => [1; 2] | 2 => [3] | _ => [] end).

(* ------------------------------------------------------------------ *)
(** ** Route lookup (routicorn.js 704-714) *)

Inductive LookupErr : Type :=
| RouteDoesNotExist (routeName : string).  (* 'Route does not exist: %s' *)

(** [Routicorn#getRoute(routeName)]: [this._routes[routeName]], or an error
    when that is falsy. *)
Definition getRoute (reg : Registry) (routeName : string) : result LookupErr Property :=
  match routes_get reg routeName with
  | Some p => Ok p
  | None => Err (RouteDoesNotExist routeName)
  end.

(** An entry with a controller and a [routes] config. *)
Definition cfg_ctrl_sub : Config := mkConfig true (Some (CCons "b" ctrl_entry CNil)) None.

(* ------------------------------------------------------------------ *)
(** ** Original requests of sub-requests *)

(** The links between request objects: every request's [originalReq] is a
    request that has no [originalReq] itself, so [parentReq.originalReq ||
    parentReq] (utils.js 114) always names the incoming request, and every
    [parentReq] is a request. *)
Definition links_ok (st : FState) : Prop :=
  (forall n r o, reqs st n = Some r -> originalReq r = Some o ->
     exists ro, reqs st o = Some ro /\ originalReq ro = None) /\
  (forall n r p, reqs st n = Some r -> parentReq r = Some p ->
     exists pr, reqs st p = Some pr).

(** No identity at or above the next free one is in use, also not as the
    forwarding history of a request. *)
Definition heap_ok (st : FState) : Prop :=
  fresh_ok st /\
  forall n r h, reqs st n = Some r -> fwdHistory r = Some h -> h < fresh st.

(** Path generation that throws for every route. *)
Definition no_url (n : nat) : option string := None.

(* ------------------------------------------------------------------ *)
(** ** Request parameters ([_handleRequestParams], base.js 1360-1399)

    A plain object with string values ([req.params], [newParams],
    [req._routicornExtraParams]) is a function from keys to values, [None]
    standing for [undefined] (an [Obj]).  [_routicornExtraParams] starts as an array
    ([_invoke], base.js 638) but is only used through its string keys. *)

(** [_.defaults(o, src)]: the keys of [src] that are undefined in [o]. *)
Definition obj_defaults (o src : Obj) : Obj :=
  fun k => match o k with Some v => Some v | None => src k end.

(** [_.extend(o, src)] *)
Definition obj_extend (o src : Obj) : Obj :=
  fun k => match src k with Some v => Some v | None => o k end.

(** [paramData[param]] as built by [_parsePattern] (base.js 1282-1349):
    [regExp] is [new RegExp(requirements[param])] (its [test]) or [null],
    [defaultValue] is [defaults[param]]. *)
Record ParamData : Type := mkParamData {
  pd_optional : bool;
  pd_regExp : option (string -> bool);
  pd_defaultValue : option string
}.

(** The fields of [_parsedPattern] that [_handleRequestParams] reads:
    [params] (in pattern order), [paramData] and [extraDefaultParams] (the
    defaults of keys that are no parameter, in key order). *)
Record ParsedPattern : Type := mkParsedPattern {
  pp_params : list string;
  pp_paramData : string -> ParamData;
  pp_extraDefaultParams : list (string * string)
}.

(** The request fields involved: [req.params] and
    [req._routicornExtraParams] ([None]: not set). *)
Record ParamReq : Type := mkParamReq {
  rq_params : Obj;
  rq_extraParams : option Obj
}.

(** The errors passed to [next]. *)
Inductive ParamErr : Type :=
| MissingParameter (param : string)       (* 'Missing parameter: ' + param *)
| InvalidValue (val param : string).      (* 'Invalid value "val" for parameter: ' + param *)

(** [req.params] after [_.defaults(req.params, req._routicornExtraParams)]. *)
Definition merged_params (r : ParamReq) : Obj :=
  match rq_extraParams r with
  | Some e => obj_defaults (rq_params r) e
  | None => rq_params r
  end.

(** One call of the [forEach] callback over [_parsedPattern.params]:
    [req.params], [newParams] and the errors given to [next] so far. *)
Definition param_step (pp : ParsedPattern) (acc : Obj * Obj * list ParamErr)
    (param : string) : Obj * Obj * list ParamErr :=
  let '(ps, np, errs) := acc in
  let pd := pp_paramData pp param in
  let '(val, ps, np) :=
    if negb (truthy (ps param)) && truthy (pd_defaultValue pd)
    then (pd_defaultValue pd,
          obj_set ps param (value_of (pd_defaultValue pd)),
          obj_set np param (value_of (pd_defaultValue pd)))
    else (ps param, ps, np) in
  if negb (truthy val) && negb (pd_optional pd)
  then (ps, np, errs ++ [MissingParameter param])
  else if truthy val &&
          match pd_regExp pd with Some test => negb (test (value_of val)) | None => false end
  then (ps, np, errs ++ [InvalidValue (value_of val) param])
  else (ps, np, errs).

(** One call of the [_.each] callback over [extraDefaultParams]:
    [req.params[key] = newParams[key] = req.params[key] || val]. *)
Definition extra_default_step (acc : Obj * Obj) (kv : string * string) : Obj * Obj :=
  let '(ps, np) := acc in
  let x := if truthy (ps (fst kv)) then value_of (ps (fst kv)) else snd kv in
  (obj_set ps (fst kv) x, obj_set np (fst kv) x).

(** [_handleRequestParams(req, res, next)]: the request afterwards and the
    arguments of the calls of [next], in order ([None]: [next()]). *)
Definition handleRequestParams (pp : ParsedPattern) (r : ParamReq)
    : ParamReq * list (option ParamErr) :=
  let '(ps1, np1, errs) :=
    fold_left (param_step pp) (pp_params pp) (merged_params r, obj_empty, []) in
  let '(ps2, np2) := fold_left extra_default_step (pp_extraDefaultParams pp) (ps1, np1) in
  let extra := match rq_extraParams r with Some e => e | None => obj_empty end in
  (mkParamReq ps2 (Some (obj_extend extra np2)), map Some errs ++ [None]).

(** The value a parameter is checked with: the request's value when truthy,
    otherwise its default. *)
Definition effective_value (pp : ParsedPattern) (ps : Obj) (param : string) : option string :=
  if truthy (ps param) then ps param else pd_defaultValue (pp_paramData pp param).

(** [regExp.test(val)], true without a requirement. *)
Definition passes (re : option (string -> bool)) (val : string) : bool :=
  match re with Some test => test val | None => true end.

(** The error the [forEach] reports for a parameter whose value on entry is
    [ps param], if any. *)
Definition param_error (pp : ParsedPattern) (ps : Obj) (param : string) : list ParamErr :=
  let pd := pp_paramData pp param in
  let v := effective_value pp ps param in
  if truthy v
  then (if passes (pd_regExp pd) (value_of v) then [] else [InvalidValue (value_of v) param])
  else (if pd_optional pd then [] else [MissingParameter param]).

(** A pattern [/:id/:page?] with requirement [^\d+$] on [id], default
    ["1"] for [page], and an extra default [format]. *)
Definition all_digits (s : string) : bool :=
  negb (String.eqb s "") &&
  forallb (fun c => let n := Ascii.nat_of_ascii c in (48 <=? n) && (n <=? 57)) (list_ascii_of_string s).

Definition pp_ex : ParsedPattern :=
  mkParsedPattern ["id"; "page"]
    (fun p => if String.eqb p "id" then mkParamData false (Some all_digits) None
              else mkParamData true None (Some "1"))
    [("format", "json")].

(** The state of [req.params] and [newParams] once the [forEach] has
    handled the parameters [D], from the merged params [ps0]: a handled
    parameter with a falsy value and a truthy default holds the default in
    both, every other key is as it was. *)
Definition params_inv (pp : ParsedPattern) (ps0 : Obj) (D : list string) (ps np : Obj) : Prop :=
  forall k,
    if negb (truthy (ps0 k)) && truthy (pd_defaultValue (pp_paramData pp k)) &&
       existsb (String.eqb k) D
    then ps k = pd_defaultValue (pp_paramData pp k) /\ np k = pd_defaultValue (pp_paramData pp k)
    else ps k = ps0 k /\ np k = None.

(* ------------------------------------------------------------------ *)
(** ** Prototype injection (utils.js 76-94)

    Objects live in a heap indexed by identity; an object has a prototype
    ([null]: [None]) and own data properties with their [enumerable] flag.
    Property values are object references, [null], [undefined] or other
    primitives (strings stand for those).  JavaScript prototype chains are
    acyclic ([setPrototypeOf] refuses cycles), so a lookup that follows at
    most as many links as there are objects walks the whole chain. *)

Definition KEY_ORIGINAL_PROTOTYPE : string := "__originalProto__".

Inductive JVal : Type :=
| JUndef
| JNull
| JRef (n : nat)
| JStr (s : string).

Record JObj : Type := mkJObj {
  jproto : option nat;
  jprops : list (string * JVal * bool)   (* key, value, enumerable *)
}.

Record JHeap : Type := mkJHeap {
  hobjs : heap JObj;
  hfresh : nat
}.

Fixpoint own_lookup (ps : list (string * JVal * bool)) (k : string) : option JVal :=
  match ps with
  | [] => None
  | (k', v, _) :: ps' => if String.eqb k' k then Some v else own_lookup ps' k
  end.

(** [o[k]]: the own property, else the prototype's. *)
Fixpoint get_prop (fuel : nat) (h : JHeap) (o : nat) (k : string) : JVal :=
  match fuel with
  | 0 => JUndef
  | S f =>
      match hobjs h o with
      | None => JUndef
      | Some ob =>
          match own_lookup (jprops ob) k with
          | Some v => v
          | None => match jproto ob with Some p => get_prop f h p k | None => JUndef end
          end
      end
  end.

(** [Object.defineProperty(o, k, {value: v})], with [enumerable] [e] when
    the property is new; an existing (configurable) property keeps its
    flag. *)
Definition define_own (ps : list (string * JVal * bool)) (k : string) (v : JVal) (e : bool)
    : list (string * JVal * bool) :=
  if existsb (fun p => String.eqb (fst (fst p)) k) ps
  then map (fun p => if String.eqb (fst (fst p)) k then (fst (fst p), v, snd p) else p) ps
  else ps ++ [(k, v, e)].

Definition proto_val (p : option nat) : JVal :=
  match p with Some n => JRef n | None => JNull end.

(** [setPrototypeOf(o, p)] *)
Definition set_proto (h : JHeap) (o : nat) (p : option nat) : JHeap :=
  match hobjs h o with
  | Some ob => mkJHeap (upd (hobjs h) o (mkJObj p (jprops ob))) (hfresh h)
  | None => h
  end.

(** [injectPrototype(obj, proto)]: [_.clone(proto)] copies the own
    enumerable properties into a new object, [defineProp(protoCopy, false,
    KEY_ORIGINAL_PROTOTYPE, origProto)] adds the original prototype (the key
    already starts with [_], and a prototype object is no function), then
    the copy is put between [obj] and its original prototype. *)
Definition injectPrototype (h : JHeap) (obj proto : nat) : option JHeap :=
  match hobjs h obj, hobjs h proto with
  | Some ob, Some pb =>
      let origProto := jproto ob in
      let c := hfresh h in
      let protoCopy :=
        mkJObj origProto
          (define_own (filter (fun p => snd p) (jprops pb))
                      KEY_ORIGINAL_PROTOTYPE (proto_val origProto) false) in
      Some (set_proto (mkJHeap (upd (hobjs h) c protoCopy) (S c)) obj (Some c))
  | _, _ => None
  end.

(** [p] is [o] or [o] lies on [p]'s prototype chain (within [fuel] links). *)
Fixpoint in_chain (fuel : nat) (h : JHeap) (p o : nat) : bool :=
  match fuel with
  | 0 => false
  | S f =>
      Nat.eqb p o ||
      match hobjs h p with
      | Some pb => match jproto pb with Some q => in_chain f h q o | None => false end
      | None => false
      end
  end.

(** [restoreOriginalPrototype(obj)]: [None] when it throws (no object,
    [setPrototypeOf] given a truthy primitive, or a prototype whose chain
    leads back to [obj], which [setPrototypeOf] refuses as cyclic). *)
Definition restoreOriginalPrototype (h : JHeap) (obj : nat) : option JHeap :=
  match hobjs h obj with
  | None => None
  | Some _ =>
      match get_prop (hfresh h) h obj KEY_ORIGINAL_PROTOTYPE with
      | JRef p => if in_chain (hfresh h) h p obj then None
                  else Some (set_proto h obj (Some p))
      | JStr s => if String.eqb s "" then Some h else None
      | JUndef | JNull => Some h
      end
  end.

(** No identity at or above the next free one is in use, and every
    prototype is an object in use. *)
Definition jheap_ok (h : JHeap) : Prop :=
  (forall n, hfresh h <= n -> hobjs h n = None) /\
  (forall n ob p, hobjs h n = Some ob -> jproto ob = Some p -> p < hfresh h).

(** [Object.prototype] (0), an incoming request (1), [routicorn.request]
    (2), [routicorn.response] (3) and a request created with a [null]
    prototype (4). *)
Definition jheap_ex : JHeap :=
  mkJHeap (fun n => match n with
                    | 0 => Some (mkJObj None [])
                    | 1 => Some (mkJObj (Some 0) [("url", JStr "/", true)])
                    | 2 => Some (mkJObj (Some 0) [("forward", JStr "function", true)])
                    | 3 => Some (mkJObj (Some 0) [("redirect", JStr "function", true)])
                    | 4 => Some (mkJObj None [("url", JStr "/", true)])
                    | _ => None
                    end) 5.

(* ================================================================== *)
(** * Proofs *)

Example tree1_chain : chain tree1 3 = [3; 2; 0].
Proof. reflexivity. Qed.

Example tree1_getParentRoutes : getParentRoutes tree1 3 0 = [0; 2].
Proof. reflexivity. Qed.

Example tree1_sibling_direct : dispatchPlan tree1 1 2 = Some (true, 2).
Proof. reflexivity. Qed.

(** ** Tree walks *)

Section TreeLemmas.

Variable rt : nat -> Route.

Lemma isChild_loop_chain (f r p : nat) :
  isChild_loop rt f r p = existsb (Nat.eqb p) (tl (chain_f rt (S f) r)).
Proof.
  revert r. induction f as [|f IH]; intros r; simpl.
  - destruct (getParentRoute rt r); reflexivity.
  - destruct (getParentRoute rt r) as [q|]; [|reflexivity].
    rewrite IH. simpl. rewrite Nat.eqb_sym.
    destruct (Nat.eqb p q); reflexivity.
Qed.

Lemma isChildRouteOf_ancestors (this par : nat) :
  isChildRouteOf rt this par =
  if actionable (rt par) || Nat.eqb this par then false
  else existsb (Nat.eqb par) (ancestors rt this).
Proof.
  unfold isChildRouteOf, ancestors, chain. rewrite isChild_loop_chain.
  reflexivity.
Qed.

Lemma findConnecting_loop_find (f check route : nat) :
  findConnecting_loop rt f check route =
  find (fun x => root (rt x) || Nat.eqb x route || isChildRouteOf rt route x)
       (chain_f rt f check).
Proof.
  revert check. induction f as [|f IH]; intros check; simpl; [reflexivity|].
  destruct (root (rt check) || Nat.eqb check route || isChildRouteOf rt route check);
    [reflexivity|].
  destruct (getParentRoute rt check) as [p|]; [apply IH|reflexivity].
Qed.

Lemma getParentRoutes_loop_upto (f route until : nat) (acc : list nat) :
  Nat.eqb route until = false ->
  getParentRoutes_loop rt f route until acc =
  rev (upto_incl until (tl (chain_f rt (S f) route))) ++ acc.
Proof.
  revert route acc. induction f as [|f IH]; intros route acc Hne; simpl.
  - destruct (getParentRoute rt route); reflexivity.
  - rewrite Hne. destruct (getParentRoute rt route) as [p|] eqn:Hp; [|reflexivity].
    simpl. destruct (Nat.eqb p until) eqn:Hpu.
    + destruct f; simpl; [reflexivity|]. rewrite Hpu. reflexivity.
    + rewrite IH by exact Hpu. rewrite <- app_assoc. reflexivity.
Qed.

Lemma upto_incl_takeWhile (c : nat) (l : list nat) :
  In c l -> upto_incl c l = takeWhile_ne c l ++ [c].
Proof.
  induction l as [|x l IH]; simpl; [tauto|]. intros Hin.
  destruct (Nat.eqb x c) eqn:Hxc.
  - apply Nat.eqb_eq in Hxc. subst. reflexivity.
  - apply Nat.eqb_neq in Hxc. rewrite IH; [reflexivity|].
    destruct Hin; [congruence|assumption].
Qed.

Hypothesis Hfirst : parents_first rt.
Hypothesis Hleaf : parents_not_actionable rt.
Hypothesis Hroot : roots_parentless rt.

Lemma chain_f_tl_lt (f n x : nat) : In x (tl (chain_f rt f n)) -> x < n.
Proof.
  revert n. induction f as [|f IH]; intros n; simpl; [tauto|].
  destruct (getParentRoute rt n) as [p|] eqn:Hp; simpl; [|tauto].
  intros Hin. pose proof (Hfirst n p Hp) as Hlt.
  destruct f as [|f]; simpl in Hin; [tauto|].
  destruct Hin as [<-|Hin]; [lia|].
  specialize (IH p). simpl in IH.
  assert (x < p) by (apply IH; exact Hin). lia.
Qed.

Lemma chain_f_tl_not_actionable (f n x : nat) :
  In x (tl (chain_f rt f n)) -> actionable (rt x) = false.
Proof.
  revert n. induction f as [|f IH]; intros n; simpl; [tauto|].
  destruct (getParentRoute rt n) as [p|] eqn:Hp; simpl; [|tauto].
  intros Hin. destruct f as [|f]; simpl in Hin; [tauto|].
  destruct Hin as [<-|Hin]; [exact (Hleaf n p Hp)|].
  apply (IH p). simpl. exact Hin.
Qed.

Lemma ancestors_lt (n x : nat) : In x (ancestors rt n) -> x < n.
Proof. apply chain_f_tl_lt. Qed.

Lemma ancestors_not_actionable (n x : nat) :
  In x (ancestors rt n) -> actionable (rt x) = false.
Proof. apply chain_f_tl_not_actionable. Qed.

Lemma existsb_eqb_In (x : nat) (l : list nat) :
  existsb (Nat.eqb x) l = true <-> In x l.
Proof.
  rewrite existsb_exists. split.
  - intros [y [Hy Heq]]. apply Nat.eqb_eq in Heq. subst. exact Hy.
  - intros Hin. exists x. split; [exact Hin|apply Nat.eqb_refl].
Qed.

(** The walk of [findConnectingRoute] stops at the nearest common
    ancestor. *)
Lemma find_connecting_is_nca (f cur tgt c : nat) :
  find (fun x => Nat.eqb x tgt || existsb (Nat.eqb x) (ancestors rt tgt))
       (chain_f rt f cur) = Some c ->
  find (fun x => root (rt x) || Nat.eqb x tgt || isChildRouteOf rt tgt x)
       (chain_f rt f cur) = Some c.
Proof.
  revert cur. induction f as [|f IH]; intros cur; simpl; [discriminate|].
  destruct (Nat.eqb cur tgt) eqn:Hct; simpl.
  - rewrite orb_true_r. auto.
  - rewrite isChildRouteOf_ancestors.
    destruct (existsb (Nat.eqb cur) (ancestors rt tgt)) eqn:Hanc.
    + apply existsb_eqb_In in Hanc.
      rewrite (ancestors_not_actionable _ _ Hanc).
      assert (Nat.eqb tgt cur = false).
      { apply Nat.eqb_neq. pose proof (ancestors_lt _ _ Hanc). lia. }
      rewrite H. simpl. rewrite orb_true_r. auto.
    + destruct (getParentRoute rt cur) as [p|] eqn:Hp; [|discriminate].
      intros Hfind.
      destruct (root (rt cur)) eqn:Hr.
      { rewrite (Hroot cur Hr) in Hp. discriminate. }
      destruct (actionable (rt cur) || Nat.eqb tgt cur); simpl; apply IH; exact Hfind.
Qed.

Lemma find_some_pred {A} (P : A -> bool) (l : list A) (x : A) :
  find P l = Some x -> P x = true /\ In x l.
Proof.
  intros H. split; [eapply find_some; exact H|eapply find_some; exact H].
Qed.

(** The last route strictly below [c] on a parent chain has [c] as its
    parent. *)
Lemma takeWhile_last_parent (f n c d : nat) (pre : list nat) :
  takeWhile_ne c (chain_f rt f n) = pre ++ [d] ->
  In c (chain_f rt f n) ->
  getParentRoute rt d = Some c.
Proof.
  revert n pre. induction f as [|f IH]; intros n pre; simpl.
  - intros H. destruct pre; discriminate.
  - destruct (Nat.eqb n c) eqn:Hnc.
    { intros H. destruct pre; discriminate. }
    apply Nat.eqb_neq in Hnc.
    destruct (getParentRoute rt n) as [p|] eqn:Hp.
    + intros H Hin. destruct Hin as [Hin|Hin]; [congruence|].
      destruct pre as [|y pre].
      * simpl in H. injection H as <- Htw.
        destruct f as [|f]; simpl in Hin; [tauto|].
        simpl in Htw. destruct (Nat.eqb p c) eqn:Hpc; [|discriminate].
        apply Nat.eqb_eq in Hpc. subst. exact Hp.
      * simpl in H. injection H as _ Htw. exact (IH p pre Htw Hin).
    + intros H Hin. destruct Hin as [Hin|[]]; congruence.
Qed.

Lemma takeWhile_ne_incl (c : nat) (l : list nat) (x : nat) :
  In x (takeWhile_ne c l) -> In x l.
Proof.
  induction l as [|y l IH]; simpl; [tauto|].
  destruct (Nat.eqb y c); simpl; [tauto|]. intros [H|H]; auto.
Qed.

End TreeLemmas.

(** ** C1: dispatch route of a forward *)

Lemma dispatch_tree_lemma (rt : nat -> Route) (cur tgt c : nat) :
  parents_first rt -> parents_not_actionable rt -> roots_parentless rt ->
  nca rt cur tgt = Some c ->
  findConnectingRoute rt cur tgt = Some c /\
  getParentRoutes rt tgt c = (if Nat.eqb c tgt then [] else c :: chain_below rt c tgt) /\
  (c = tgt \/ In c (ancestors rt tgt)).
Proof.
  intros H1 H2 H3 Hc.
  assert (Hpc : c = tgt \/ In c (ancestors rt tgt)).
  { unfold nca in Hc. apply find_some_pred in Hc as [Hp _].
    apply orb_true_iff in Hp as [Hp|Hp].
    - left. apply Nat.eqb_eq. exact Hp.
    - right. apply existsb_eqb_In. exact Hp. }
  split; [|split; [|exact Hpc]].
  - unfold findConnectingRoute. rewrite findConnecting_loop_find.
    apply find_connecting_is_nca; assumption.
  - unfold getParentRoutes, chain_below.
    destruct (Nat.eqb c tgt) eqn:Hct.
    + apply Nat.eqb_eq in Hct. rewrite Hct. destruct tgt; simpl; [reflexivity|].
      rewrite Nat.eqb_refl. reflexivity.
    + rewrite getParentRoutes_loop_upto by (rewrite Nat.eqb_sym; exact Hct).
      destruct Hpc as [Hpc|Hpc]; [apply Nat.eqb_neq in Hct; congruence|].
      unfold ancestors, chain in Hpc.
      rewrite (upto_incl_takeWhile rt) by exact Hpc.
      rewrite rev_app_distr, app_nil_r. reflexivity.
Qed.

(** C1 (counterexample). In [tree1], forwarding from [a] to [t]: the two
    are not siblings, their nearest common ancestor is the root and the
    target's ancestors strictly below the root are just [[s]], a chain of
    fewer than two nodes; yet the forward does not invoke [t] directly but
    re-enters the tree at [s]. *)
Lemma C1_counterexample :
  actionable (tree1 3) = true /\
  isSiblingOf tree1 1 3 = false /\
  nca tree1 1 3 = Some 0 /\
  chain_below tree1 0 3 = [2] /\
  dispatchPlan tree1 1 3 = Some (false, 2).
Proof. repeat split; reflexivity. Qed.

(** C1 (amended). In a well-formed route tree, a forward from [cur] to
    [tgt] whose nearest common ancestor is [c] invokes the target directly
    when the two are siblings; otherwise it invokes the target directly
    when the target's ancestors strictly below [c] are none (the target's
    parent is [c], or [c] is the target), and else re-enters the tree at
    the first of them, which is [c]'s immediate child toward the target. *)
Theorem dispatchPlan_nearest_common_ancestor (rt : nat -> Route) (cur tgt c : nat) :
  parents_first rt -> parents_not_actionable rt -> roots_parentless rt ->
  nca rt cur tgt = Some c ->
  dispatchPlan rt cur tgt =
    (if isSiblingOf rt cur tgt then Some (true, tgt)
     else match chain_below rt c tgt with
          | [] => Some (true, tgt)
          | d :: _ => Some (false, d)
          end) /\
  (forall d, dispatchPlan rt cur tgt = Some (false, d) ->
             getParentRoute rt d = Some c /\ In d (ancestors rt tgt)).
Proof.
  intros H1 H2 H3 Hc.
  destruct (dispatch_tree_lemma rt cur tgt c H1 H2 H3 Hc) as [Hf [Hg Hpc]].
  assert (Heq : dispatchPlan rt cur tgt =
    (if isSiblingOf rt cur tgt then Some (true, tgt)
     else match chain_below rt c tgt with
          | [] => Some (true, tgt)
          | d :: _ => Some (false, d)
          end)).
  { unfold dispatchPlan. destruct (isSiblingOf rt cur tgt); [reflexivity|].
    rewrite Hf, Hg. unfold chain_below.
    destruct (Nat.eqb c tgt); [reflexivity|].
    destruct (rev (takeWhile_ne c (ancestors rt tgt))); reflexivity. }
  split; [exact Heq|]. intros d Hd. rewrite Heq in Hd.
  destruct (isSiblingOf rt cur tgt); [discriminate|].
  unfold chain_below in Hd. destruct (Nat.eqb c tgt) eqn:Hct; [discriminate|].
  destruct (rev (takeWhile_ne c (ancestors rt tgt))) as [|d' rest] eqn:Hrev;
    [discriminate|].
  injection Hd as ->.
  assert (Htw : takeWhile_ne c (ancestors rt tgt) = rev rest ++ [d]).
  { rewrite <- (rev_involutive (takeWhile_ne c (ancestors rt tgt))), Hrev.
    reflexivity. }
  destruct Hpc as [Hpc|Hpc]; [apply Nat.eqb_neq in Hct; congruence|].
  split.
  - unfold ancestors, chain in Htw, Hpc. simpl in Htw, Hpc.
    destruct (getParentRoute rt tgt) as [p|]; [|destruct Hpc].
    exact (takeWhile_last_parent rt tgt p c d (rev rest) Htw Hpc).
  - apply (takeWhile_ne_incl c). rewrite Htw. apply in_or_app. right. left. reflexivity.
Qed.

Lemma dispatchPlan_nearest_common_ancestor_witness :
  (parents_first tree1 /\ parents_not_actionable tree1 /\ roots_parentless tree1 /\
   nca tree1 1 3 = Some 0) /\
  dispatchPlan tree1 1 3 = Some (false, 2).
Proof.
  assert (H1 : parents_first tree1).
  { intros n p. unfold getParentRoute.
    do 4 (destruct n as [|n]; simpl; [intros H; try discriminate; injection H as <-; lia|]).
    discriminate. }
  assert (H2 : parents_not_actionable tree1).
  { intros n p. unfold getParentRoute.
    do 4 (destruct n as [|n]; simpl; [intros H; try discriminate; injection H as <-; reflexivity|]).
    discriminate. }
  assert (H3 : roots_parentless tree1).
  { intros n. do 4 (destruct n as [|n]; [reflexivity || discriminate|]). discriminate. }
  assert (H4 : nca tree1 1 3 = Some 0) by reflexivity.
  split; [repeat split; assumption|].
  destruct (dispatchPlan_nearest_common_ancestor tree1 1 3 0 H1 H2 H3 H4) as [E _].
  rewrite E. reflexivity.
Defined.

(** ** Forwarding *)

Section ForwardLemmas.

Variable rt : nat -> Route.
Variable getRoute : string -> option nat.
Variable sub_url : nat -> option string.

Lemma forward_ok_inv st cur routeName verb pm st' d :
  forward rt getRoute sub_url st cur routeName verb pm = (st', Ok d) ->
  exists creq tgt croute pmeth st1 h,
    reqs st cur = Some creq /\ getRoute routeName = Some tgt /\
    actionable (rt tgt) = true /\ routicornRoute creq = Some croute /\
    Nat.eqb croute tgt && negb (verbStyle (rt tgt)) = false /\
    forwardMethod routeName (rt tgt) verb pm (req_method creq) = Ok pmeth /\
    forwardHistory rt st creq croute tgt = Ok (st1, h) /\
    dispatchPlan rt croute tgt = Some (direct d, droute d) /\
    st' = set_res_req (fresh st1) (fst (createSubRequest st1 cur creq pmeth h)) /\
    dreq d = fresh st1 /\ caller d = cur /\ target d = tgt.
Proof.
  unfold forward. intros H.
  destruct (reqs st cur) as [creq|] eqn:E1; [|discriminate].
  destruct (getRoute routeName) as [tgt|] eqn:E2; [|discriminate].
  destruct (actionable (rt tgt)) eqn:E3; [|discriminate]. simpl in H.
  destruct (routicornRoute creq) as [croute|] eqn:E4;
    [|destruct (forwardMethod routeName (rt tgt) verb pm (req_method creq)); [|discriminate];
      destruct (fwdHistory creq); [destruct (existsb _ _)|]; discriminate].
  destruct (Nat.eqb croute tgt && negb (verbStyle (rt tgt))) eqn:E5; [discriminate|].
  destruct (forwardMethod routeName (rt tgt) verb pm (req_method creq)) as [pmeth|e] eqn:E6;
    [|discriminate].
  destruct (forwardHistory rt st creq croute tgt) as [[st1 h]|e] eqn:E7; [|discriminate].
  destruct (dispatchPlan rt croute tgt) as [[dir dr]|] eqn:E8; [|discriminate].
  destruct (sub_url tgt); [|discriminate].
  unfold createSubRequest in H. simpl in H. injection H as <- <-.
  exists creq, tgt, croute, pmeth, st1, h. simpl.
  repeat split; auto.
Qed.

Lemma forwardHistory_reqs st creq croute tgt st1 h :
  forwardHistory rt st creq croute tgt = Ok (st1, h) ->
  reqs st1 = reqs st /\ res_req st1 = res_req st /\ fresh st <= fresh st1.
Proof.
  unfold forwardHistory. destruct (fwdHistory creq) as [h0|].
  - destruct (existsb (Nat.eqb tgt) (hist_of st h0)); [discriminate|].
    intros H. injection H as <- <-. simpl. auto.
  - intros H. injection H as <- <-. simpl. auto.
Qed.

Lemma fresh_ok_lt st n r : fresh_ok st -> reqs st n = Some r -> n < fresh st.
Proof.
  intros Hf Hn. destruct (Nat.lt_ge_cases n (fresh st)) as [Hlt|Hge]; [exact Hlt|].
  destruct (Hf n Hge) as [E _]. congruence.
Qed.

Lemma createSubRequest_sid st pid parent pm h :
  snd (createSubRequest st pid parent pm h) = fresh st.
Proof. reflexivity. Qed.

Lemma createSubRequest_hists st pid parent pm h :
  hists (fst (createSubRequest st pid parent pm h)) = hists st.
Proof. reflexivity. Qed.

Lemma createSubRequest_sub st pid parent pm h :
  pid <> fresh st ->
  exists sub, reqs (fst (createSubRequest st pid parent pm h)) (fresh st) = Some sub /\
    fwdHistory sub = Some h /\
    req_method sub = toUpperCase (str_or (Some pm) (str_or (Some (req_method parent)) "GET")) /\
    parentReq sub = Some pid /\
    originalReq sub = Some (match originalReq parent with Some o => o | None => pid end).
Proof.
  intros Hne. unfold createSubRequest. simpl.
  destruct (_ && _); unfold upd.
  - rewrite (proj2 (Nat.eqb_neq (fresh st) pid)) by congruence.
    rewrite Nat.eqb_refl. eexists. split; [reflexivity|repeat split; reflexivity].
  - rewrite Nat.eqb_refl. eexists. split; [reflexivity|repeat split; reflexivity].
Qed.

Lemma createSubRequest_parent st pid parent pm h :
  pid <> fresh st -> reqs st pid = Some parent ->
  exists c, reqs (fst (createSubRequest st pid parent pm h)) pid = Some (set_canPipe c parent).
Proof.
  intros Hne Hp. unfold createSubRequest. simpl.
  destruct (_ && _); unfold upd.
  - exists (Some false). rewrite Nat.eqb_refl. reflexivity.
  - exists (canPipe parent). rewrite (proj2 (Nat.eqb_neq pid (fresh st))) by exact Hne.
    rewrite Hp. destruct parent; reflexivity.
Qed.

Lemma createSubRequest_hdrs st pid parent pm h :
  pid <> fresh st ->
  exists sub, reqs (fst (createSubRequest st pid parent pm h)) (fresh st) = Some sub /\
    hdrs (fst (createSubRequest st pid parent pm h)) pid =
    (if match canPipe sub with Some false => true | _ => false end
     then Some (obj_set (headers_of st pid) "Content-Length" "0") else hdrs st pid).
Proof.
  intros Hne. unfold createSubRequest.
  set (orig := match originalReq parent with Some o => o | None => pid end).
  set (ob := match reqs st orig with Some o => bodyUndefined o | None => true end).
  set (meth := toUpperCase (str_or (Some pm) (str_or (Some (req_method parent)) "GET"))).
  set (chb := negb (existsb (String.eqb meth) ["GET"; "HEAD"; "DELETE"])).
  set (cp := ob && negb (match canPipe parent with Some false => true | _ => false end)).
  cbn [fst set_fresh set_reqs set_hdrs reqs hdrs].
  destruct chb, cp; cbn; unfold upd;
    rewrite ?(proj2 (Nat.eqb_neq (fresh st) pid)) by congruence;
    rewrite ?Nat.eqb_refl; eexists; split; reflexivity.
Qed.

Lemma forwardHistory_hdrs st creq croute tgt st1 h :
  forwardHistory rt st creq croute tgt = Ok (st1, h) -> hdrs st1 = hdrs st.
Proof.
  unfold forwardHistory. destruct (fwdHistory creq) as [h0|].
  - destruct (existsb (Nat.eqb tgt) (hist_of st h0)); [discriminate|].
    intros H. injection H as <- <-. reflexivity.
  - intros H. injection H as <- <-. reflexivity.
Qed.

Lemma forwardHistory_push st creq croute tgt st1 h h0 :
  fwdHistory creq = Some h0 ->
  forwardHistory rt st creq croute tgt = Ok (st1, h) ->
  h = h0 /\ hist_of st1 h0 = hist_of st h0 ++ [tgt].
Proof.
  unfold forwardHistory. intros E. rewrite E.
  destruct (existsb (Nat.eqb tgt) (hist_of st h0)); [discriminate|].
  intros H. injection H as <- <-. split; [reflexivity|].
  unfold hist_of at 1. simpl. unfold upd. rewrite Nat.eqb_refl. reflexivity.
Qed.

Lemma complete_frame st d b err :
  hists (fst (complete st d b err)) = hists st /\ hdrs (fst (complete st d b err)) = hdrs st.
Proof.
  unfold complete. destruct (reqs st (dreq d)) as [sub|]; [|split; reflexivity].
  destruct (pipeTeardown sub && negb b); [|split; reflexivity].
  destruct (parentReq sub) as [p|], (originalReq sub) as [o|]; try (split; reflexivity).
  destruct (Nat.eqb p o); [split; reflexivity|].
  destruct (reqs st p); split; reflexivity.
Qed.

Lemma forward_stages st cur routeName verb pm creq tgt croute pmeth :
  reqs st cur = Some creq -> getRoute routeName = Some tgt ->
  actionable (rt tgt) = true -> routicornRoute creq = Some croute ->
  Nat.eqb croute tgt && negb (verbStyle (rt tgt)) = false ->
  forwardMethod routeName (rt tgt) verb pm (req_method creq) = Ok pmeth ->
  forward rt getRoute sub_url st cur routeName verb pm =
  match forwardHistory rt st creq croute tgt with
  | Err e => (st, Err e)
  | Ok (st1, h) =>
      match dispatchPlan rt croute tgt with
      | None => (st1, Err (NoDispatchRoute routeName))
      | Some (dir, dr) =>
          match sub_url tgt with
          | None => (st1, Err (PathError routeName))
          | Some _ => (set_res_req (fresh st1) (fst (createSubRequest st1 cur creq pmeth h)),
                       Ok (mkDispatch (fresh st1) dr dir cur tgt))
          end
      end
  end.
Proof.
  intros H1 H2 H3 H4 H5 H6. unfold forward.
  rewrite H1, H2, H3. simpl. rewrite H4, H5, H6.
  destruct (forwardHistory rt st creq croute tgt) as [[st1 h]|e]; [|reflexivity].
  destruct (dispatchPlan rt croute tgt) as [[dir dr]|]; [|reflexivity].
  destruct (sub_url tgt); reflexivity.
Qed.

(** Whatever the outcome after the history stage, the history heap is the
    one that stage left. *)
Lemma forward_after_history_hists st1 h routeName cur creq pmeth croute tgt :
  hists (fst (match dispatchPlan rt croute tgt with
      | None => (st1, @Err FwdError Dispatch (NoDispatchRoute routeName))
      | Some (dir, dr) =>
          match sub_url tgt with
          | None => (st1, Err (PathError routeName))
          | Some _ => (set_res_req (fresh st1) (fst (createSubRequest st1 cur creq pmeth h)),
                       Ok (mkDispatch (fresh st1) dr dir cur tgt))
          end
      end)) = hists st1.
Proof.
  destruct (dispatchPlan rt croute tgt) as [[dir dr]|]; [|reflexivity].
  destruct (sub_url tgt); reflexivity.
Qed.

Lemma set_canPipe_twice c c' r : set_canPipe c (set_canPipe c' r) = set_canPipe c r.
Proof. destruct r; reflexivity. Qed.

Lemma toLowerCase_nonempty s : s <> "" -> toLowerCase s <> "".
Proof. destruct s; simpl; congruence. Qed.

Lemma str_or_nonempty s b : s <> "" -> str_or (Some s) b = s.
Proof.
  intros H. unfold str_or. destruct (String.eqb s "") eqn:E; [|reflexivity].
  apply String.eqb_eq in E. contradiction.
Qed.

End ForwardLemmas.

(** ** C2: forwarding history and loop detection *)

(** C2 (counterexample). The incoming GET request handled by [A]
    forwards to [B]; once that dispatch has completed it forwards to [B]
    again.  The history is kept per forward chain, not per original
    request: the incoming request carries none, so each forward gets a
    fresh history [[A; B]] and the second forward succeeds although [B]
    was already visited. *)
Lemma C2_counterexample :
  fwdHistory (incoming "GET" 1) = None /\
  snd (forward fwd_rt fwd_getRoute fwd_url (fwd_st0 "GET" 1) 0 "B" None None)
    = Ok (mkDispatch 2 2 true 0 2) /\
  hist_of (fst (forward fwd_rt fwd_getRoute fwd_url (fwd_st0 "GET" 1) 0 "B" None None)) 1
    = [1; 2] /\
  snd (forward fwd_rt fwd_getRoute fwd_url fwd_twice_st 0 "B" None None)
    = Ok (mkDispatch 4 2 true 0 2) /\
  hist_of (fst (forward fwd_rt fwd_getRoute fwd_url fwd_twice_st 0 "B" None None)) 3
    = [1; 2].
Proof. split; [reflexivity|repeat split; vm_compute; reflexivity]. Qed.

(** C2 (amended). Once the target is resolved, actionable, not the
    current route of a non-verb-style action, and its method is settled:
    if the current request carries a history [h] that already holds the
    target, the forward throws [LoopDetected] with the route names of the
    history followed by the target's, and changes nothing (no
    sub-request, no dispatch); if [h] does not hold the target, the
    target is appended to [h] in place (whatever the later outcome) and a
    dispatched sub-request shares [h]; if the current request carries no
    history, no loop check is made and a dispatched sub-request gets a new
    history [[current route; target]]. *)
Theorem forward_history_loop_check (rt : nat -> Route) getRoute sub_url
    st cur creq routeName verb pm tgt croute pmeth :
  fresh_ok st ->
  reqs st cur = Some creq -> getRoute routeName = Some tgt ->
  actionable (rt tgt) = true -> routicornRoute creq = Some croute ->
  Nat.eqb croute tgt && negb (verbStyle (rt tgt)) = false ->
  forwardMethod routeName (rt tgt) verb pm (req_method creq) = Ok pmeth ->
  match fwdHistory creq with
  | Some h =>
      (In tgt (hist_of st h) ->
       forward rt getRoute sub_url st cur routeName verb pm =
       (st, Err (LoopDetected (map (fun r => name (rt r)) (hist_of st h ++ [tgt]))))) /\
      (~ In tgt (hist_of st h) ->
       hist_of (fst (forward rt getRoute sub_url st cur routeName verb pm)) h
         = hist_of st h ++ [tgt] /\
       forall d, snd (forward rt getRoute sub_url st cur routeName verb pm) = Ok d ->
       exists sub, reqs (fst (forward rt getRoute sub_url st cur routeName verb pm)) (dreq d)
                     = Some sub /\ fwdHistory sub = Some h)
  | None =>
      (forall chain, snd (forward rt getRoute sub_url st cur routeName verb pm)
                       <> Err (LoopDetected chain)) /\
      (forall d, snd (forward rt getRoute sub_url st cur routeName verb pm) = Ok d ->
       exists sub h, reqs (fst (forward rt getRoute sub_url st cur routeName verb pm)) (dreq d)
                       = Some sub /\ fwdHistory sub = Some h /\
                     hist_of (fst (forward rt getRoute sub_url st cur routeName verb pm)) h
                       = [croute; tgt])
  end.
Proof.
  intros Hf H1 H2 H3 H4 H5 H6.
  rewrite (forward_stages rt getRoute sub_url st cur routeName verb pm creq tgt croute pmeth
             H1 H2 H3 H4 H5 H6).
  pose proof (fresh_ok_lt st cur creq Hf H1) as Hlt.
  unfold forwardHistory. destruct (fwdHistory creq) as [h|] eqn:Eh.
  - split.
    + intros Hin. assert (E : existsb (Nat.eqb tgt) (hist_of st h) = true).
      { apply existsb_eqb_In. exact Hin. }
      rewrite E. reflexivity.
    + intros Hnin. assert (E : existsb (Nat.eqb tgt) (hist_of st h) = false).
      { destruct (existsb (Nat.eqb tgt) (hist_of st h)) eqn:E'; [|reflexivity].
        apply existsb_eqb_In in E'. contradiction. }
      rewrite E. split.
      * unfold hist_of at 1. rewrite forward_after_history_hists. simpl.
        unfold upd. rewrite Nat.eqb_refl. reflexivity.
      * intros d. destruct (dispatchPlan rt croute tgt) as [[dir dr]|]; [|discriminate].
        destruct (sub_url tgt); [|discriminate]. simpl. intros Hd. injection Hd as <-.
        simpl. destruct (createSubRequest_sub
          (set_hists (upd (hists st) h (hist_of st h ++ [tgt])) st) cur creq pmeth h)
          as [sub [Hs [Hh _]]]; [simpl; lia|].
        exists sub. split; [exact Hs|exact Hh].
  - split.
    + intros chain. destruct (dispatchPlan rt croute tgt) as [[dir dr]|]; [|discriminate].
      destruct (sub_url tgt); discriminate.
    + intros d. destruct (dispatchPlan rt croute tgt) as [[dir dr]|]; [|discriminate].
      destruct (sub_url tgt); [|discriminate]. simpl. intros Hd. injection Hd as <-.
      simpl. destruct (createSubRequest_sub
        (set_fresh (S (fresh st)) (set_hists (upd (hists st) (fresh st) [croute; tgt]) st))
        cur creq pmeth (fresh st)) as [sub [Hs [Hh _]]]; [simpl; lia|].
      exists sub, (fresh st). split; [exact Hs|split; [exact Hh|]].
      unfold hist_of. simpl. unfold upd. rewrite Nat.eqb_refl. reflexivity.
Qed.

Lemma forward_history_loop_check_witness :
  (fresh_ok fwd_nested /\
   forward fwd_rt fwd_getRoute fwd_url fwd_nested 2 "A" None None
     = (fwd_nested, Err (LoopDetected ["A"; "B"; "A"]))) /\
  loop_message ["A"; "B"; "A"] = "[forward] Detected loop: A â†’ B â†’ A".
Proof.
  assert (Hf : fresh_ok fwd_nested).
  { intros n Hn. do 3 (destruct n as [|n]; [vm_compute in Hn; lia|]).
    split; reflexivity. }
  pose proof (forward_history_loop_check fwd_rt fwd_getRoute fwd_url fwd_nested 2
    (mkReq "GET" (Some 2) (Some 1) None true (Some 0) (Some 0) false) "A" None None 1 2 "get"
    Hf eq_refl eq_refl eq_refl eq_refl eq_refl eq_refl) as T.
  simpl fwdHistory in T. destruct T as [T _].
  split; [split; [exact Hf|]|reflexivity].
  apply T. simpl. tauto.
Defined.

(** ** C3: method of the sub-request *)

(** C3. For a forward without an explicit verb (neither argument nor
    [properties.method]) from a request with a non-empty method, to a
    resolved actionable target that is not the current route of a
    non-verb-style action: when the target handles the current method, a
    dispatched sub-request has that method; when it does not and the
    target defines exactly one verb [m], a dispatched sub-request has
    method [m] (upper-cased, as [createSubRequest] does); when it does
    not and the target defines two or more verbs, the forward throws
    [VerbMismatch] and changes nothing. *)
Theorem forward_method_selection (rt : nat -> Route) getRoute sub_url
    st cur creq routeName tgt croute :
  fresh_ok st ->
  reqs st cur = Some creq -> getRoute routeName = Some tgt ->
  actionable (rt tgt) = true -> routicornRoute creq = Some croute ->
  Nat.eqb croute tgt && negb (verbStyle (rt tgt)) = false ->
  req_method creq <> "" ->
  (handlesMethod (rt tgt) (toLowerCase (req_method creq)) = true ->
   forall d, snd (forward rt getRoute sub_url st cur routeName None None) = Ok d ->
   sub_method (fst (forward rt getRoute sub_url st cur routeName None None)) d
     = Some (toUpperCase (toLowerCase (req_method creq)))) /\
  (handlesMethod (rt tgt) (toLowerCase (req_method creq)) = false ->
   forall m, methods (rt tgt) = [m] -> m <> "" ->
   forall d, snd (forward rt getRoute sub_url st cur routeName None None) = Ok d ->
   sub_method (fst (forward rt getRoute sub_url st cur routeName None None)) d
     = Some (toUpperCase m)) /\
  (handlesMethod (rt tgt) (toLowerCase (req_method creq)) = false ->
   2 <= length (methods (rt tgt)) ->
   forward rt getRoute sub_url st cur routeName None None
     = (st, Err (VerbMismatch routeName (toUpperCase (toLowerCase (req_method creq)))))).
Proof.
  intros Hf H1 H2 H3 H4 H5 Hm.
  pose proof (fresh_ok_lt st cur creq Hf H1) as Hlt.
  (* the sub-request of any successful forward with props.method [pm] *)
  assert (Hsub : forall pm, pm <> "" ->
    forwardMethod routeName (rt tgt) None None (req_method creq) = Ok pm ->
    forall d, snd (forward rt getRoute sub_url st cur routeName None None) = Ok d ->
    sub_method (fst (forward rt getRoute sub_url st cur routeName None None)) d
      = Some (toUpperCase pm)).
  { intros pm Hpm Hfm d.
    rewrite (forward_stages rt getRoute sub_url st cur routeName None None creq tgt croute pm
               H1 H2 H3 H4 H5 Hfm).
    destruct (forwardHistory rt st creq croute tgt) as [[st1 h]|e] eqn:Eh; [|discriminate].
    destruct (forwardHistory_reqs rt st creq croute tgt st1 h Eh) as [Er [_ Efr]].
    destruct (dispatchPlan rt croute tgt) as [[dir dr]|]; [|discriminate].
    destruct (sub_url tgt); [|discriminate]. cbn [snd]. intros Hd. injection Hd as <-.
    destruct (createSubRequest_sub st1 cur creq pm h) as [sub [Hs [_ [Hmeth _]]]]; [lia|].
    unfold sub_method, set_res_req. cbn [fst reqs dreq]. rewrite Hs. simpl. rewrite Hmeth.
    rewrite str_or_nonempty by exact Hpm. reflexivity. }
  unfold forwardMethod in Hsub. simpl in Hsub.
  split; [|split].
  - intros Hh. apply Hsub; [apply toLowerCase_nonempty; exact Hm|]. rewrite Hh. reflexivity.
  - intros Hh m Hms Hmne. apply Hsub; [exact Hmne|].
    rewrite Hh. unfold method. rewrite Hms. reflexivity.
  - intros Hh Hlen. unfold forward. rewrite H1, H2, H3. simpl. rewrite H4, H5.
    unfold forwardMethod. simpl. rewrite Hh.
    destruct (length (methods (rt tgt))) as [|[|k]] eqn:El; [lia|lia|reflexivity].
Qed.

Lemma forward_method_selection_witness :
  (fresh_ok (fwd_st0 "GET" 1) /\
   snd (forward fwd_rt fwd_getRoute fwd_url (fwd_st0 "GET" 1) 0 "P" None None)
     = Ok (mkDispatch 2 3 true 0 3)) /\
  sub_method (fst (forward fwd_rt fwd_getRoute fwd_url (fwd_st0 "GET" 1) 0 "P" None None))
    (mkDispatch 2 3 true 0 3) = Some "POST" /\
  forward fwd_rt fwd_getRoute fwd_url (fwd_st0 "PUT" 1) 0 "GP" None None
    = (fwd_st0 "PUT" 1, Err (VerbMismatch "GP" "PUT")).
Proof.
  assert (Hf : forall m, fresh_ok (fwd_st0 m 1)).
  { intros m n Hn. destruct n as [|n]; [vm_compute in Hn; lia|]. split; reflexivity. }
  assert (HP : snd (forward fwd_rt fwd_getRoute fwd_url (fwd_st0 "GET" 1) 0 "P" None None)
                 = Ok (mkDispatch 2 3 true 0 3)) by (vm_compute; reflexivity).
  destruct (forward_method_selection fwd_rt fwd_getRoute fwd_url (fwd_st0 "GET" 1) 0
              (incoming "GET" 1) "P" 3 1 (Hf "GET") eq_refl eq_refl eq_refl eq_refl eq_refl
              ltac:(discriminate)) as [_ [T2 _]].
  destruct (forward_method_selection fwd_rt fwd_getRoute fwd_url (fwd_st0 "PUT" 1) 0
              (incoming "PUT" 1) "GP" 4 1 (Hf "PUT") eq_refl eq_refl eq_refl eq_refl eq_refl
              ltac:(discriminate)) as [_ [_ T3]].
  split; [split; [exact (Hf "GET")|exact HP]|split].
  - exact (T2 eq_refl "post" eq_refl ltac:(discriminate) _ HP).
  - exact (T3 eq_refl ltac:(simpl; lia)).
Defined.

(** ** C8: completion of a forwarded dispatch *)

(** C8 (counterexample). An incoming GET request without a body, handled
    by [A], forwards to the POST-only route [P].  The sub-request may pipe
    the body, so [createSubRequest] sets the incoming request's
    [__canPipe] to false; the teardown restores it only for a parent that
    is not the original request, so after the completion the incoming
    request differs from what it was before the forward.  An incoming POST
    request with a body that forwards to [P] is left with a
    [Content-Length] header of 0 it did not have. *)
Lemma C8_counterexample :
  match forward fwd_rt fwd_getRoute fwd_url (fwd_st0 "GET" 1) 0 "P" None None with
  | (st1, Ok d) =>
      reqs (fst (complete st1 d false None)) 0
        = Some (set_canPipe (Some false) (incoming "GET" 1))
  | _ => False
  end /\
  set_canPipe (Some false) (incoming "GET" 1) <> incoming "GET" 1 /\
  option_map (fun o => o "Content-Length") (hdrs fwd_st_body 0) = Some None /\
  match forward fwd_rt fwd_getRoute fwd_url fwd_st_body 0 "P" None None with
  | (st1, Ok d) =>
      option_map (fun o => o "Content-Length") (hdrs (fst (complete st1 d false None)) 0)
        = Some (Some "0")
  | _ => False
  end.
Proof.
  split; [vm_compute; reflexivity|].
  split; [discriminate|].
  split; [reflexivity|vm_compute; reflexivity].
Qed.

(** C8 (amended). While a forwarded dispatch runs, [res.req] is the
    sub-request.  On its completion, with or without an error and whether
    or not the body was piped, the teardown runs, [res.req] is set back to
    the forwarding request, and only then is the caller's [next] invoked
    with the error.  The forward is not undone on the forwarding request:
    its record is the one before the forward except, possibly, its
    [__canPipe] flag; when the sub-request can have a body but cannot pipe
    it ([__canPipe] false on the sub-request), [Content-Length] 0 has been
    written into the forwarding request's headers, which are otherwise
    unchanged; and a forward history it carries keeps the target appended. *)
Theorem forward_completion_restores (rt : nat -> Route) getRoute sub_url
    st cur creq routeName verb pm st1 d didSetupPipe err :
  fresh_ok st -> reqs st cur = Some creq ->
  forward rt getRoute sub_url st cur routeName verb pm = (st1, Ok d) ->
  res_req st1 = dreq d /\
  snd (complete st1 d didSetupPipe err) = [NextCalled err cur] /\
  res_req (fst (complete st1 d didSetupPipe err)) = cur /\
  (exists c, reqs (fst (complete st1 d didSetupPipe err)) cur = Some (set_canPipe c creq)) /\
  (exists sub, reqs (fst (complete st1 d didSetupPipe err)) (dreq d) = Some sub /\
     hdrs (fst (complete st1 d didSetupPipe err)) cur =
     (if match canPipe sub with Some false => true | _ => false end
      then Some (obj_set (headers_of st cur) "Content-Length" "0") else hdrs st cur)) /\
  (forall h, fwdHistory creq = Some h ->
     hist_of (fst (complete st1 d didSetupPipe err)) h = hist_of st h ++ [target d]).
Proof.
  intros Hf Hcur Hfw.
  destruct (forward_ok_inv rt getRoute sub_url st cur routeName verb pm st1 d Hfw)
    as (creq' & tgt & croute & pmeth & st1' & h & E1 & _ & _ & _ & _ & _ & Eh & _ & Est &
        Ed & Ec & Et).
  rewrite Hcur in E1. injection E1 as <-.
  destruct (forwardHistory_reqs rt st creq croute tgt st1' h Eh) as [Er [_ Efr]].
  pose proof (forwardHistory_hdrs rt st creq croute tgt st1' h Eh) as Ehd.
  pose proof (fresh_ok_lt st cur creq Hf Hcur) as Hlt.
  assert (Hne : cur <> fresh st1') by lia.
  destruct (createSubRequest_sub st1' cur creq pmeth h Hne)
    as [sub [Hs [_ [_ [Hpar Horig]]]]].
  destruct (createSubRequest_parent st1' cur creq pmeth h Hne ltac:(rewrite Er; exact Hcur))
    as [c Hc].
  destruct (createSubRequest_hdrs st1' cur creq pmeth h Hne) as [sub' [Hs' Hhd]].
  rewrite Hs in Hs'. injection Hs' as <-.
  pose proof (createSubRequest_hists st1' cur creq pmeth h) as Ehs.
  assert (Hhist : forall h0, fwdHistory creq = Some h0 ->
            hist_of (fst (createSubRequest st1' cur creq pmeth h)) h0 = hist_of st h0 ++ [tgt]).
  { intros h0 E0. destruct (forwardHistory_push rt st creq croute tgt st1' h h0 E0 Eh)
      as [_ Hp]. unfold hist_of. rewrite Ehs. exact Hp. }
  unfold headers_of in Hhd. rewrite Ehd in Hhd. fold (headers_of st cur) in Hhd.
  remember (fst (createSubRequest st1' cur creq pmeth h)) as S eqn:ES.
  subst st1. clear Hfw ES.
  destruct (complete_frame (set_res_req (fresh st1') S) d didSetupPipe err) as [Fh Fd].
  assert (Hfr : forall h0, fwdHistory creq = Some h0 ->
            hist_of (fst (complete (set_res_req (fresh st1') S) d didSetupPipe err)) h0
            = hist_of st h0 ++ [target d]).
  { intros h0 E0. unfold hist_of. rewrite Fh. rewrite Et. exact (Hhist h0 E0). }
  rewrite Fd. cbn [hdrs set_res_req].
  split; [rewrite Ed; reflexivity|].
  unfold complete, set_res_req in *. rewrite Ed, Ec in *. cbn [reqs] in *. rewrite Hs in *.
  rewrite Hpar, Horig in *.
  destruct (pipeTeardown sub && negb didSetupPipe).
  - destruct (Nat.eqb cur _).
    + cbn in *. split; [reflexivity|split; [reflexivity|]].
      split; [exists c; exact Hc|]. split; [|exact Hfr]. exists sub. split; [exact Hs|exact Hhd].
    + rewrite Hc in *. cbn in *. split; [reflexivity|split; [reflexivity|]].
      split.
      * exists (Some true). unfold upd. rewrite Nat.eqb_refl.
        rewrite set_canPipe_twice. reflexivity.
      * split; [|exact Hfr]. exists sub. split; [|exact Hhd].
        unfold upd. rewrite (proj2 (Nat.eqb_neq (fresh st1') cur)) by congruence. exact Hs.
  - cbn in *. split; [reflexivity|split; [reflexivity|]].
    split; [exists c; exact Hc|]. split; [|exact Hfr]. exists sub. split; [exact Hs|exact Hhd].
Qed.

Lemma forward_completion_restores_witness :
  (fresh_ok (fwd_st0 "GET" 1) /\ reqs (fwd_st0 "GET" 1) 0 = Some (incoming "GET" 1) /\
   forward fwd_rt fwd_getRoute fwd_url (fwd_st0 "GET" 1) 0 "B" None None
     = (fst (forward fwd_rt fwd_getRoute fwd_url (fwd_st0 "GET" 1) 0 "B" None None),
        Ok (mkDispatch 2 2 true 0 2))) /\
  snd (complete (fst (forward fwd_rt fwd_getRoute fwd_url (fwd_st0 "GET" 1) 0 "B" None None))
         (mkDispatch 2 2 true 0 2) false (Some "boom")) = [NextCalled (Some "boom") 0].
Proof.
  assert (Hf : fresh_ok (fwd_st0 "GET" 1)).
  { intros n Hn. destruct n as [|n]; [vm_compute in Hn; lia|]. split; reflexivity. }
  assert (Hfw : forward fwd_rt fwd_getRoute fwd_url (fwd_st0 "GET" 1) 0 "B" None None
     = (fst (forward fwd_rt fwd_getRoute fwd_url (fwd_st0 "GET" 1) 0 "B" None None),
        Ok (mkDispatch 2 2 true 0 2))) by (vm_compute; reflexivity).
  split; [split; [exact Hf|split; [reflexivity|exact Hfw]]|].
  destruct (forward_completion_restores fwd_rt fwd_getRoute fwd_url (fwd_st0 "GET" 1) 0
              (incoming "GET" 1) "B" None None _ (mkDispatch 2 2 true 0 2) false (Some "boom")
              Hf eq_refl Hfw) as [_ [T _]].
  exact T.
Defined.

(** ** Path generation *)

Lemma collapse_aux_after_slash s : starts_slash (collapse_aux true s) = false.
Proof.
  induction s as [|c s IH]; simpl; [reflexivity|].
  destruct (is_slash c) eqn:E; [exact IH|simpl; exact E].
Qed.

Lemma collapse_aux_no_dslash s b : no_dslash (collapse_aux b s) = true.
Proof.
  revert b. induction s as [|c s IH]; intros b; simpl; [reflexivity|].
  destruct (is_slash c) eqn:E.
  - destruct b; [apply IH|]. simpl. rewrite E, collapse_aux_after_slash, IH. reflexivity.
  - simpl. rewrite E, IH. reflexivity.
Qed.

Lemma no_dslash_tail c s : no_dslash (String c s) = true -> no_dslash s = true.
Proof. simpl. intros H. apply andb_prop in H. tauto. Qed.

Lemma trim_start_shape s :
  no_dslash s = true -> no_dslash (trim_start s) = true /\ starts_slash (trim_start s) = false.
Proof.
  induction s as [|c s IH]; simpl; [auto|]. intros H.
  destruct (is_slash c) eqn:E.
  - apply IH. apply andb_prop in H. tauto.
  - split; [simpl; rewrite E; exact H|exact E].
Qed.

Lemma trim_end_prefix s :
  trim_end s = EmptyString \/
  exists c s1 s2, s = String c s1 /\ trim_end s = String c s2.
Proof.
  destruct s as [|c s]; simpl; [left; reflexivity|].
  destruct (is_slash c && String.eqb (trim_end s) ""); [left; reflexivity|].
  right. exists c, s, (trim_end s). split; reflexivity.
Qed.

Lemma trim_end_shape s :
  no_dslash s = true -> starts_slash s = false ->
  no_dslash (trim_end s) = true /\ starts_slash (trim_end s) = false.
Proof.
  intros H1 H2. split.
  - clear H2. induction s as [|c s IH]; simpl; [reflexivity|].
    simpl in H1. apply andb_prop in H1 as [H1a H1b].
    destruct (is_slash c && String.eqb (trim_end s) ""); [reflexivity|].
    simpl. rewrite (IH H1b), andb_true_r.
    destruct (trim_end_prefix s) as [E|(c' & s1 & s2 & E1 & E2)].
    + rewrite E. simpl. rewrite andb_false_r. reflexivity.
    + rewrite E2. subst s. exact H1a.
  - destruct (trim_end_prefix s) as [E|(c' & s1 & s2 & E1 & E2)].
    + rewrite E. reflexivity.
    + rewrite E2. subst s. exact H2.
Qed.

Lemma no_slash_no_dslash q : no_slash q = true -> no_dslash q = true /\ starts_slash q = false.
Proof.
  induction q as [|c q IH]; simpl; [auto|]. intros H.
  apply andb_prop in H as [Ha Hb]. apply negb_true_iff in Ha.
  rewrite Ha. simpl. split; [apply IH; exact Hb|reflexivity].
Qed.

Lemma no_dslash_app a q :
  no_dslash a = true -> no_slash q = true -> no_dslash (a ++ q) = true.
Proof.
  intros Ha Hq. induction a as [|c a IH]; simpl.
  - apply no_slash_no_dslash. exact Hq.
  - simpl in Ha. apply andb_prop in Ha as [Ha1 Ha2].
    rewrite (IH Ha2), andb_true_r.
    destruct a as [|c' a]; simpl.
    + rewrite (proj2 (no_slash_no_dslash q Hq)), andb_false_r. reflexivity.
    + exact Ha1.
Qed.

Lemma path_shape joined qpart :
  no_slash qpart = true ->
  starts_slash ("/" ++ trim_slashes (collapse_slashes joined) ++ qpart) = true /\
  no_dslash ("/" ++ trim_slashes (collapse_slashes joined) ++ qpart) = true.
Proof.
  intros Hq. split; [reflexivity|].
  destruct (trim_start_shape (collapse_slashes joined) (collapse_aux_no_dslash joined false))
    as [Hs1 Hs2].
  destruct (trim_end_shape _ Hs1 Hs2) as [Ht1 Ht2].
  unfold trim_slashes. simpl.
  rewrite (no_dslash_app _ _ Ht1 Hq), andb_true_r.
  destruct (trim_end (trim_start (collapse_slashes joined))) as [|c t] eqn:E; simpl.
  - rewrite (proj2 (no_slash_no_dslash _ Hq)). reflexivity.
  - simpl in Ht2. rewrite Ht2. reflexivity.
Qed.

Lemma chain_f_strip p rt f n : chain_f (strip_param p rt) f n = chain_f rt f n.
Proof.
  revert n. induction f as [|f IH]; intros n; simpl; [reflexivity|].
  change (getParentRoute (strip_param p rt) n) with (getParentRoute rt n).
  destruct (getParentRoute rt n); [rewrite IH|]; reflexivity.
Qed.

Lemma getRouteChain_strip p rt self :
  getRouteChain (strip_param p rt) self = getRouteChain rt self.
Proof. unfold getRouteChain, chain. rewrite chain_f_strip. reflexivity. Qed.

Lemma reduceSegments_strip p rt route self params c segs memo :
  reduceSegments (strip_param p rt) route self params c segs memo =
  reduceSegments rt route self params c segs memo.
Proof.
  revert memo. induction segs as [|seg segs IH]; intros memo; simpl; [reflexivity|].
  assert (E : reduceSegment (strip_param p rt) route self params c memo seg =
              reduceSegment rt route self params c memo seg).
  { unfold reduceSegment. rewrite getRouteChain_strip. reflexivity. }
  rewrite E. destruct (reduceSegment rt route self params c memo seg); simpl; auto.
Qed.

Lemma reduceSegments_filter p rt route self params c segs memo :
  truthy (obj_read params p) = false ->
  reduceSegments rt route self params c
    (filter (fun s => negb (optional_without_default p s)) segs) memo =
  reduceSegments rt route self params c segs memo.
Proof.
  intros Hp. revert memo. induction segs as [|seg segs IH]; intros memo; [reflexivity|].
  simpl. destruct (optional_without_default p seg) eqn:E; simpl.
  - destruct seg as [v cv|v q [|] re d]; try discriminate.
    simpl in E. apply andb_prop in E as [Eq Ed]. apply String.eqb_eq in Eq. subst q.
    apply negb_true_iff in Ed. unfold reduceSegment. rewrite Hp, Ed. simpl. apply IH.
  - destruct (reduceSegment rt route self params c memo seg); simpl; auto.
Qed.

Lemma generatePath_loop_strip p rt f route self params c top joined :
  truthy (obj_read params p) = false ->
  generatePath_loop (strip_param p rt) f route self params c top joined =
  generatePath_loop rt f route self params c top joined.
Proof.
  intros Hp. revert route joined. induction f as [|f IH]; intros route joined; [reflexivity|].
  simpl. change (patternIsRegExp (strip_param p rt route)) with (patternIsRegExp (rt route)).
  rewrite getRouteChain_strip.
  destruct (patternIsRegExp (rt route)); [reflexivity|].
  change (segments (strip_param p rt route))
    with (filter (fun s => negb (optional_without_default p s)) (segments (rt route))).
  rewrite reduceSegments_strip, reduceSegments_filter by exact Hp.
  change (getParentRoute (strip_param p rt) route) with (getParentRoute rt route).
  destruct (reduceSegments rt route self params c (segments (rt route)) ""); simpl; [|reflexivity].
  destruct (getParentRoute rt route); [|reflexivity].
  destruct (top_is top n); [reflexivity|apply IH].
Qed.

Ltac case_ifs :=
  repeat match goal with |- context [if ?b then _ else _] => destruct b end.

Section PathLemmas.

Variable rt : nat -> Route.
Variables (self : nat) (params : string -> option string) (check : bool).

(** Whether a segment makes the reducer throw does not depend on the
    accumulated path. *)
Lemma reduceSegment_err_memo route memo memo' seg e :
  reduceSegment rt route self params check memo seg = Err e ->
  reduceSegment rt route self params check memo' seg = Err e.
Proof.
  destruct seg as [v cv|v q opt re d]; simpl; [discriminate|].
  intros H. revert H. cbv zeta. case_ifs; congruence.
Qed.

Lemma reduceSegment_ok_memo route memo seg :
  segmentFails rt route self params check seg = false ->
  exists m, reduceSegment rt route self params check memo seg = Ok m.
Proof.
  unfold segmentFails. intros H.
  destruct (reduceSegment rt route self params check memo seg) as [m|e] eqn:E; [eauto|].
  apply (reduceSegment_err_memo route memo "") in E. rewrite E in H. discriminate.
Qed.

Lemma reduceSegments_fails route segs memo :
  (exists seg, In seg segs /\ segmentFails rt route self params check seg = true) ->
  exists e, reduceSegments rt route self params check segs memo = Err e.
Proof.
  revert memo. induction segs as [|seg segs IH]; intros memo [s [Hin Hf]]; [destruct Hin|].
  simpl. destruct (reduceSegment rt route self params check memo seg) as [m|e] eqn:E;
    simpl; [|eauto].
  destruct Hin as [<-|Hin]; [|apply IH; eauto].
  unfold segmentFails in Hf.
  destruct (reduceSegment rt route self params check "" seg) as [m'|e'] eqn:E'; [discriminate|].
  apply (reduceSegment_err_memo route "" memo) in E'. congruence.
Qed.

Lemma reduceSegments_errs (P : PathErr -> Prop) route segs memo :
  (forall seg, In seg segs -> forall memo,
     (exists m, reduceSegment rt route self params check memo seg = Ok m) \/
     (exists e, reduceSegment rt route self params check memo seg = Err e /\ P e)) ->
  (exists m, reduceSegments rt route self params check segs memo = Ok m) \/
  (exists e, reduceSegments rt route self params check segs memo = Err e /\ P e).
Proof.
  revert memo. induction segs as [|seg segs IH]; intros memo H; simpl; [eauto|].
  destruct (H seg (or_introl eq_refl) memo) as [[m Hm]|[e [He HP]]].
  - rewrite Hm. simpl. apply IH. intros s Hs. apply H. right. exact Hs.
  - rewrite He. simpl. right. eauto.
Qed.

Variable top : option nat.

Lemma generatePath_loop_fails f route joined :
  (exists r, In r (walk_routes rt f route top) /\
     (patternIsRegExp (rt r) = true \/
      exists seg, In seg (segments (rt r)) /\ segmentFails rt r self params check seg = true)) ->
  exists e, generatePath_loop rt f route self params check top joined = Err e.
Proof.
  revert route joined. induction f as [|f IH]; intros route joined [r [Hin Hr]];
    [destruct Hin|].
  simpl in Hin |- *.
  destruct (patternIsRegExp (rt route)) eqn:Ereg; [eauto|].
  destruct (reduceSegments rt route self params check (segments (rt route)) "") as [sg|e] eqn:Es;
    simpl; [|eauto].
  destruct Hin as [<-|Hin].
  - destruct Hr as [Hr|Hr]; [congruence|].
    destruct (reduceSegments_fails route (segments (rt route)) "" Hr) as [e He]. congruence.
  - destruct (getParentRoute rt route) as [p|]; [|destruct Hin].
    destruct (top_is top p); [destruct Hin|]. apply IH. eauto.
Qed.

Lemma generatePath_loop_errs (P : PathErr -> Prop) f route joined :
  (forall r, In r (walk_routes rt f route top) ->
     patternIsRegExp (rt r) = false /\
     forall seg, In seg (segments (rt r)) -> forall memo,
       (exists m, reduceSegment rt r self params check memo seg = Ok m) \/
       (exists e, reduceSegment rt r self params check memo seg = Err e /\ P e)) ->
  (exists j, generatePath_loop rt f route self params check top joined = Ok j) \/
  (exists e, generatePath_loop rt f route self params check top joined = Err e /\ P e).
Proof.
  revert route joined. induction f as [|f IH]; intros route joined H; simpl; [eauto|].
  destruct (H route (or_introl eq_refl)) as [Hreg Hsegs]. rewrite Hreg.
  destruct (reduceSegments_errs P route (segments (rt route)) "" Hsegs)
    as [[m Hm]|[e [He HP]]].
  - rewrite Hm. simpl. destruct (getParentRoute rt route) as [p|] eqn:Ep; [|eauto].
    destruct (top_is top p) eqn:Et; [eauto|]. apply IH.
    intros r Hr. apply H. right. rewrite Ep, Et. exact Hr.
  - rewrite He. simpl. eauto.
Qed.

End PathLemmas.

Lemma obj_read_own_none params p :
  truthy (params p) = false -> existsb (String.eqb p) object_prototype_props = false ->
  truthy (obj_read params p) = false.
Proof.
  intros Hp Hn. unfold obj_read, inherited_string.
  destruct (params p) as [v|]; [exact Hp|].
  destruct (String.eqb_spec p "__proto__") as [->|_]; [discriminate|].
  destruct (String.eqb_spec p "constructor") as [->|_]; [discriminate|].
  rewrite Hn. reflexivity.
Qed.

Lemma obj_read_inherited params p :
  existsb (String.eqb p) object_prototype_props = true -> params p = None ->
  truthy (obj_read params p) = true.
Proof.
  intros Hn Hp. unfold obj_read, inherited_string. rewrite Hp.
  destruct (String.eqb p "__proto__"); [reflexivity|].
  destruct (String.eqb p "constructor"); [reflexivity|].
  rewrite Hn. reflexivity.
Qed.

Lemma missing_param_segment rt route self params check memo p v re d :
  truthy (obj_read params p) = false -> truthy d = false ->
  reduceSegment rt route self params check memo (Param v p false re d) =
  Err (MissingParam p (name (rt route)) (getRouteChain rt self)).
Proof. intros Hp Hd. unfold reduceSegment. cbv zeta. rewrite Hp, Hd. reflexivity. Qed.

(** Only a parameter whose value reads as falsy is reported missing. *)
Lemma reduceSegment_missing rt route self params check memo seg q rn ch :
  reduceSegment rt route self params check memo seg = Err (MissingParam q rn ch) ->
  truthy (obj_read params q) = false.
Proof.
  destruct seg as [v cv|v q' opt re d]; simpl; [discriminate|].
  destruct (truthy (obj_read params q')) eqn:E1.
  - destruct (check && _); discriminate.
  - destruct (truthy d).
    + destruct (check && _); discriminate.
    + destruct opt; [discriminate|]. intros H. injection H as <- _ _. exact E1.
Qed.

Lemma reduceSegments_err rt route self params check segs memo e :
  reduceSegments rt route self params check segs memo = Err e ->
  exists seg memo', reduceSegment rt route self params check memo' seg = Err e.
Proof.
  revert memo. induction segs as [|seg segs IH]; intros memo; simpl; [discriminate|].
  destruct (reduceSegment rt route self params check memo seg) as [m|e'] eqn:E; simpl.
  - apply IH.
  - intros H. injection H as <-. eauto.
Qed.

Lemma generatePath_loop_err rt f route self params check top joined e :
  generatePath_loop rt f route self params check top joined = Err e ->
  (exists rn ch, e = RegExpPattern rn ch) \/
  exists r seg memo, reduceSegment rt r self params check memo seg = Err e.
Proof.
  revert route joined. induction f as [|f IH]; intros route joined; simpl; [discriminate|].
  destruct (patternIsRegExp (rt route)).
  - intros H. injection H as <-. left. eauto.
  - destruct (reduceSegments rt route self params check (segments (rt route)) "")
      as [sg|e'] eqn:Es; simpl.
    + destruct (getParentRoute rt route) as [p|]; [|discriminate].
      destruct (top_is top p); [discriminate|]. apply IH.
    + intros H. injection H as <-. right.
      destruct (reduceSegments_err rt route self params check _ _ _ Es) as [seg [m Hm]].
      eauto.
Qed.

(** ** C4: missing mandatory parameter *)

(** C4 (counterexample). Route [r] has pattern [/:q/:p], both mandatory
    without defaults.  Generating its path without [p] (and without [q])
    fails, but the error names [q], not [p].  Route [t] has pattern
    [/:toString], mandatory, with no default of its own: generating its
    path from an empty [params] object does not fail, it puts the
    inherited [params.toString] into the path. *)
Lemma C4_counterexample :
  In (Param ":p" "p" false None None) (segments (path_rt 1)) /\
  truthy (no_params "p") = false /\
  generatePath path_rt 1 no_params "" true None
    = Err (MissingParam "q" "r" "@routicorn@ → r") /\
  no_params "toString" = None /\
  generatePath path_rt 3 no_params "" true None
    = Ok "/function toString() { [native code] }".
Proof.
  split; [simpl; tauto|]. split; [reflexivity|]. split; [reflexivity|].
  split; [reflexivity|vm_compute; reflexivity].
Qed.

(** C4 (amended). Let [p] be a parameter that [params] does not supply: no
    truthy own property [p], and [p] not a property name inherited from
    [Object.prototype].  If a route the walk reads (the route itself or an
    ancestor below the top-most route) has a mandatory segment for [p]
    without a default, [generatePath] throws and returns no path.  The
    error is that of the first segment that fails, in walk order (the
    route's own segments left to right, then its parent's, ...).  When
    every other segment passes, it is the missing-parameter error for [p],
    naming the route that defines [p] and the full chain of route names
    from the root.  A name inherited from [Object.prototype] that is not
    an own property of [params] is never reported missing. *)
Theorem generatePath_missing_param (rt : nat -> Route) self params queryString check top :
  (forall p,
   truthy (params p) = false ->
   existsb (String.eqb p) object_prototype_props = false ->
   (exists r v re d, In r (walk_routes rt (S self) self top) /\
      In (Param v p false re d) (segments (rt r)) /\ truthy d = false) ->
   (exists e, generatePath rt self params queryString check top = Err e) /\
   ((forall r, In r (walk_routes rt (S self) self top) ->
       patternIsRegExp (rt r) = false /\
       forall seg, In seg (segments (rt r)) ->
         segmentFails rt r self params check seg = false \/
         exists v re d, seg = Param v p false re d /\ truthy d = false) ->
    exists r, generatePath rt self params queryString check top
                = Err (MissingParam p (name (rt r)) (getRouteChain rt self)))) /\
  (forall p, existsb (String.eqb p) object_prototype_props = true -> params p = None ->
   forall rn ch, generatePath rt self params queryString check top <> Err (MissingParam p rn ch)).
Proof.
  split.
  - intros p Hp0 Hn (r & v & re & d & Hr & Hseg & Hd).
    pose proof (obj_read_own_none params p Hp0 Hn) as Hp.
    assert (Hfail : exists e, generatePath_loop rt (S self) self self params check top "" = Err e).
    { apply generatePath_loop_fails. exists r. split; [exact Hr|right].
      exists (Param v p false re d). split; [exact Hseg|].
      unfold segmentFails. rewrite missing_param_segment by assumption. reflexivity. }
    destruct Hfail as [e He].
    unfold generatePath. rewrite He. simpl. split; [eauto|].
    intros Hall.
    destruct (generatePath_loop_errs rt self params check top
                (fun e => exists r, e = MissingParam p (name (rt r)) (getRouteChain rt self))
                (S self) self "")
      as [[j Hj]|[e' [He' [r' Hr']]]].
    + intros r0 Hr0. destruct (Hall r0 Hr0) as [Hreg Hsegs]. split; [exact Hreg|].
      intros seg Hs memo. destruct (Hsegs seg Hs) as [Hok|(v' & re' & d' & -> & Hd')].
      * left. apply reduceSegment_ok_memo. exact Hok.
      * right. eexists. split; [apply missing_param_segment; assumption|]. eauto.
    + congruence.
    + exists r'. congruence.
  - intros p Hn Hp rn ch. unfold generatePath.
    destruct (generatePath_loop rt (S self) self self params check top "") as [j|e] eqn:E;
      simpl; [discriminate|].
    intros H. injection H as ->.
    destruct (generatePath_loop_err rt _ _ _ _ _ _ _ _ E) as [[rn' [ch' Hc]]|(r & seg & m & Hs)];
      [discriminate|].
    apply reduceSegment_missing in Hs.
    rewrite (obj_read_inherited params p Hn Hp) in Hs. discriminate.
Qed.

Lemma generatePath_missing_param_witness :
  (truthy ((fun s => if String.eqb s "q" then Some "x" else None) "p") = false /\
   existsb (String.eqb "p") object_prototype_props = false /\
   In 1 (walk_routes path_rt 2 1 None) /\
   In (Param ":p" "p" false None None) (segments (path_rt 1))) /\
  (exists r, generatePath path_rt 1 (fun s => if String.eqb s "q" then Some "x" else None) ""
               true None = Err (MissingParam "p" (name (path_rt r)) (getRouteChain path_rt 1))) /\
  generatePath path_rt 1 (fun s => if String.eqb s "q" then Some "x" else None) "" true None
    = Err (MissingParam "p" "r" "@routicorn@ → r") /\
  generatePath path_rt 3 no_params "" true None
    <> Err (MissingParam "toString" "t" "@routicorn@ → t").
Proof.
  assert (Hp : truthy ((fun s => if String.eqb s "q" then Some "x" else None) "p") = false)
    by reflexivity.
  assert (Hn : existsb (String.eqb "p") object_prototype_props = false) by reflexivity.
  assert (Hin : In 1 (walk_routes path_rt 2 1 None)) by (simpl; tauto).
  assert (Hseg : In (Param ":p" "p" false None None) (segments (path_rt 1))) by (simpl; tauto).
  split; [split; [exact Hp|split; [exact Hn|split; [exact Hin|exact Hseg]]]|].
  split; [|split; [reflexivity|]].
  - destruct (proj1 (generatePath_missing_param path_rt 1
                (fun s => if String.eqb s "q" then Some "x" else None) "" true None) "p" Hp Hn
                (ex_intro _ 1 (ex_intro _ ":p" (ex_intro _ None (ex_intro _ None
                  (conj Hin (conj Hseg eq_refl)))))))
      as [_ T].
    apply T. intros r Hr. simpl in Hr. destruct Hr as [<-|[<-|[]]]; split; try reflexivity;
      intros seg Hs; simpl in Hs; try tauto.
    destruct Hs as [<-|[<-|[]]]; [left; reflexivity|right; eauto].
  - exact (proj2 (generatePath_missing_param path_rt 3 no_params "" true None) "toString"
             eq_refl eq_refl "t" "@routicorn@ → t").
Defined.

(** ** C5: optional parameter without a default *)

(** C5 (counterexample). Route [u] has pattern [/list/:toString?/x], the
    parameter optional with no default of its own.  Generating its path
    from an empty [params] object does not omit the segment: the inherited
    [params.toString] fills it. *)
Lemma C5_counterexample :
  no_params "toString" = None /\
  generatePath path_rt 4 no_params "" true None
    = Ok "/list/function toString() { [native code] }/x".
Proof. split; [reflexivity|vm_compute; reflexivity]. Qed.

(** C5 (amended). When [params] does not supply [p] (no truthy own
    property [p], and [p] not a property name inherited from
    [Object.prototype]), [generatePath] gives the same result as for the
    same routes with every optional, default-less segment of [p] removed
    from their patterns: such a segment is omitted and never causes an
    error.  Any path it returns (with a query string from
    [qs.stringify], which holds no slash) starts with a slash and has no
    two slashes in a row. *)
Theorem generatePath_optional_param (rt : nat -> Route) self params queryString check top p :
  truthy (params p) = false ->
  existsb (String.eqb p) object_prototype_props = false ->
  generatePath rt self params queryString check top =
    generatePath (strip_param p rt) self params queryString check top /\
  (no_slash queryString = true ->
   forall path, generatePath rt self params queryString check top = Ok path ->
   starts_slash path = true /\ no_dslash path = true).
Proof.
  intros Hp0 Hn. pose proof (obj_read_own_none params p Hp0 Hn) as Hp. split.
  - unfold generatePath. rewrite generatePath_loop_strip by exact Hp. reflexivity.
  - intros Hq path. unfold generatePath.
    destruct (generatePath_loop rt (S self) self self params check top "") as [j|e];
      simpl; [|discriminate].
    intros H. injection H as <-. apply path_shape.
    destruct (String.eqb queryString ""); [reflexivity|simpl; exact Hq].
Qed.

Lemma generatePath_optional_param_witness :
  truthy (no_params "page") = false /\
  existsb (String.eqb "page") object_prototype_props = false /\
  generatePath path_rt 2 no_params "" true None = Ok "/list/x" /\
  generatePath (strip_param "page" path_rt) 2 no_params "" true None = Ok "/list/x".
Proof.
  destruct (generatePath_optional_param path_rt 2 no_params "" true None "page" eq_refl eq_refl)
    as [E _].
  assert (H : generatePath path_rt 2 no_params "" true None = Ok "/list/x") by reflexivity.
  split; [reflexivity|split; [reflexivity|split; [exact H|rewrite <- E; exact H]]].
Defined.

(* ------------------------------------------------------------------ *)
(** ** Mounting and middleware *)




(* ------------------------------------------------------------------ *)
(** ** Action invocation *)

Lemma params_phase_callbacks (errs : list string) :
  params_phase (param_callbacks errs) = (map (fun e => EvNext (Some e) 0) errs, 1).
Proof.
  unfold param_callbacks; induction errs as [|e errs IH]; [reflexivity|].
  simpl; rewrite IH; reflexivity.
Qed.

Lemma run_tasks_turns (catch : bool) (out : HandlerOutcome) (n : nat) :
  forall turn k, In (EvHandlerCalled k) (run_tasks catch turn n out) -> turn <= k.
Proof.
  induction n as [|n IH]; intros turn k Hin; simpl in Hin; [contradiction|].
  destruct Hin as [Heq | Hin]; [injection Heq; lia|].
  destruct out as [|e|e]; [| |destruct catch];
    repeat (destruct Hin as [Heq | Hin]; [discriminate|]);
    try (apply IH in Hin; lia); contradiction.
Qed.

Lemma params_phase_no_handler (calls : list (option string)) :
  forall k, ~ In (EvHandlerCalled k) (fst (params_phase calls)).
Proof.
  induction calls as [|[e|] calls IH]; intros k; cbn [params_phase];
    [simpl; tauto| |];
    specialize (IH k); destruct (params_phase calls) as [evs n];
    simpl in *; [intros [Heq | Hin]; [discriminate | tauto] | exact IH].
Qed.

(** C7 (code bug). In both versions the handler is never called in the
    turn of the [_invokeAction] call.  When the handler throws, the
    src/unnamed/part_003 version passes the exception to [next], while the
    src/lib/route/action.js version lets it leave its [setImmediate] callback
    uncaught, so [next] never receives it. *)
Theorem invokeAction_throwing_handler (errs : list string) (e : string) :
  (forall out, ~ In (EvHandlerCalled 0) (invokeAction_lib errs out)) /\
  (forall h out, ~ In (EvHandlerCalled 0) (invokeAction_part003 h errs out)) /\
  invokeAction_lib errs (Throws e)
    = EvEmitRequest :: map (fun x => EvNext (Some x) 0) errs
        ++ [EvHandlerCalled 1; EvUncaught e 1] /\
  invokeAction_part003 true errs (Throws e)
    = EvEmitRequest :: map (fun x => EvNext (Some x) 0) errs
        ++ [EvHandlerCalled 1; EvNext (Some e) 1].
Proof.
  unfold invokeAction_lib, invokeAction_part003.
  repeat split.
  - intros out Hin. destruct (params_phase (param_callbacks errs)) as [evs n] eqn:E.
    destruct Hin as [Heq | Hin]; [discriminate|].
    apply in_app_or in Hin; destruct Hin as [Hin | Hin].
    + apply (params_phase_no_handler (param_callbacks errs) 0); rewrite E; exact Hin.
    + apply run_tasks_turns in Hin; lia.
  - intros h out Hin.
    destruct (if h then params_phase (param_callbacks errs) else ([], 1)) as [evs n] eqn:E.
    destruct Hin as [Heq | Hin]; [discriminate|].
    apply in_app_or in Hin; destruct Hin as [Hin | Hin].
    + destruct h.
      * apply (params_phase_no_handler (param_callbacks errs) 0); rewrite E; exact Hin.
      * injection E as <- _; contradiction.
    + apply run_tasks_turns in Hin; lia.
  - rewrite params_phase_callbacks; reflexivity.
  - rewrite params_phase_callbacks; reflexivity.
Qed.

(* ------------------------------------------------------------------ *)
(** ** Route registry *)

(** C10 (code bug). Registering the route already registered under its
    name, or the router itself, returns without a change and without an
    event; but a name inherited from [Object.prototype], such as
    ["constructor"], is refused as a duplicate on a registry that holds no
    route at all. *)
Theorem registerRoute_same_instance_and_inherited_names :
  (forall self reg route nm,
      (route = self \/ assoc nm reg = Some route) ->
      registerRoute self reg route nm = Ok (reg, [])) /\
  (forall self route nm,
      route <> self -> In nm object_prototype_props ->
      registerRoute self [] route nm = Err (DuplicateName nm)).
Proof.
  split.
  - intros self reg route nm [-> | Ha]; unfold registerRoute.
    + rewrite Nat.eqb_refl; reflexivity.
    + destruct (route =? self); [reflexivity|].
      unfold routes_get; rewrite Ha, Nat.eqb_refl; reflexivity.
  - intros self route nm Hne Hin; unfold registerRoute, routes_get; cbn [assoc].
    apply Nat.eqb_neq in Hne; rewrite Hne.
    assert (Hx : existsb (String.eqb nm) object_prototype_props = true).
    { apply existsb_exists; exists nm; split; [exact Hin | apply String.eqb_refl]. }
    rewrite Hx; reflexivity.
Qed.

Lemma registerRoute_same_instance_and_inherited_names_witness :
  registerRoute 0 [("a", 1)] 1 "a" = Ok ([("a", 1)], []) /\
  registerRoute 0 [] 1 "constructor" = Err (DuplicateName "constructor").
Proof.
  split.
  - apply (proj1 registerRoute_same_instance_and_inherited_names); right; reflexivity.
  - apply (proj2 registerRoute_same_instance_and_inherited_names);
      [discriminate | simpl; auto].
Defined.

(* ------------------------------------------------------------------ *)
(** ** Loading route configs *)

Lemma assoc_In (k : string) (v : nat) (reg : Registry) :
  assoc k reg = Some v -> In (k, v) reg.
Proof.
  induction reg as [|[k' v'] reg IH]; simpl; [discriminate|].
  destruct (String.eqb_spec k k') as [-> | _]; [injection 1 as ->; auto | auto].
Qed.

Lemma assoc_None (k : string) (reg : Registry) :
  assoc k reg = None -> ~ In k (map fst reg).
Proof.
  induction reg as [|[k' v'] reg IH]; simpl; [auto|].
  destruct (String.eqb_spec k k') as [-> | Hne]; [discriminate|].
  intros H [Heq | Hin]; [congruence | exact (IH H Hin)].
Qed.

Lemma register_ok (st st' : LState) (r : nat) (nm : string) :
  register st r nm = Ok st' -> r <> 0 -> ~ In r (map snd (registry st)) ->
  registry st' = registry st ++ [(nm, r)] /\ next_id st' = next_id st /\
  ~ In nm (map fst (registry st)).
Proof.
  intros H Hr Hfresh; unfold register, registerRoute, routes_get in H.
  apply Nat.eqb_neq in Hr; rewrite Hr in H.
  destruct (assoc nm (registry st)) as [v|] eqn:Ea.
  - exfalso. destruct (Nat.eqb_spec v r) as [-> | _]; [|discriminate H].
    apply Hfresh, in_map_iff; exists (nm, r); split; [reflexivity | exact (assoc_In _ _ _ Ea)].
  - destruct (existsb (String.eqb nm) object_prototype_props); [discriminate H|].
    cbn [bind fst] in H; injection H as <-.
    split; [reflexivity | split; [reflexivity | apply assoc_None; exact Ea]].
Qed.

Lemma NoDup_snoc (A : Type) (l : list A) (x : A) :
  NoDup l -> ~ In x l -> NoDup (l ++ [x]).
Proof.
  intros Hl Hx. apply (Permutation_NoDup (l := x :: l)).
  - apply Permutation_cons_append.
  - constructor; assumption.
Qed.

Lemma grows_refl (lo : nat) (st st' : LState) :
  next_id st <= next_id st' -> registry st' = registry st -> load_grows lo st st' [].
Proof.
  intros Hn Hr; split; [exact Hn|]; exists []; rewrite Hr, app_nil_r.
  repeat split; auto.
Qed.

Lemma grows_trans (lo : nat) (a b c : LState) (n1 n2 : list string) :
  load_grows lo a b n1 -> load_grows lo b c n2 -> load_grows lo a c (n1 ++ n2).
Proof.
  intros [Hab [new1 [Rb [N1 [F1 D1]]]]] [Hbc [new2 [Rc [N2 [F2 D2]]]]].
  split; [lia|]. exists (new1 ++ new2).
  split; [rewrite Rc, Rb, app_assoc; reflexivity|].
  split; [rewrite map_app, N1, N2; reflexivity|].
  split.
  - apply Forall_app; split; [|exact F2].
    eapply Forall_impl; [|exact F1]; simpl; intros p Hp; lia.
  - auto.
Qed.

Lemma grows_weaken (lo lo' : nat) (a b : LState) (ns : list string) :
  lo' <= lo -> load_grows lo a b ns -> load_grows lo' a b ns.
Proof.
  intros Hle [Hab [new [R [N [F D]]]]]; split; [exact Hab|]; exists new.
  repeat split; auto. eapply Forall_impl; [|exact F]; simpl; intros p Hp; lia.
Qed.

Lemma grows_pre (lo : nat) (a b : LState) (ns : list string) :
  load_pre a -> load_grows lo a b ns -> load_pre b.
Proof.
  intros [Hpos Fa] [Hab [new [R [_ [F _]]]]]; split; [lia|].
  rewrite R; apply Forall_app; split.
  - eapply Forall_impl; [|exact Fa]; simpl; intros p Hp; lia.
  - eapply Forall_impl; [|exact F]; simpl; intros p Hp; lia.
Qed.

Lemma Forall_not_in_snd (reg : Registry) (r : nat) :
  Forall (fun p => ~ snd p = r) reg -> ~ In r (map snd reg).
Proof.
  intros F Hin; apply in_map_iff in Hin as [p [Hp Hin]].
  rewrite Forall_forall in F; exact (F p Hin Hp).
Qed.

Lemma grows_register (lo : nat) (st st' : LState) (r : nat) (nm : string) :
  register st r nm = Ok st' -> r <> 0 -> ~ In r (map snd (registry st)) ->
  lo <= r < next_id st -> load_grows lo st st' [nm].
Proof.
  intros H Hr Hfresh Hb.
  destruct (register_ok st st' r nm H Hr Hfresh) as [R [Nx Nin]].
  split; [lia|]; exists [(nm, r)]; repeat split; auto.
  - constructor; [simpl; lia | constructor].
  - intros Hnd; rewrite R, map_app; apply NoDup_snoc; assumption.
Qed.

Lemma below_not_in (reg : Registry) (n : nat) :
  Forall (fun p => snd p < n) reg -> ~ In n (map snd reg).
Proof.
  intros F; apply Forall_not_in_snd; eapply Forall_impl; [|exact F]; simpl; intros p Hp; lia.
Qed.

Lemma grows_names (lo : nat) (a b : LState) (ns ns' : list string) :
  ns' = ns -> load_grows lo a b ns -> load_grows lo a b ns'.
Proof. intros ->; exact (fun H => H). Qed.

Lemma createRoute_grows (c : Config) :
  forall nm st st', load_pre st -> createRoute nm c st = Ok st' ->
  load_grows (next_id st) st st' (config_names nm c)
with createRoutesFromConfigs_grows (cs : Configs) :
  forall st st', load_pre st -> createRoutesFromConfigs cs st = Ok st' ->
  load_grows (next_id st) st st' (configs_names cs).
Proof.
  - destruct c as [ctrl routes resource]; intros nm st st' Hpre H.
    cbn [createRoute] in H; cbn [config_names].
    remember (has_sub_routes routes resource) as hs eqn:Ehs.
    set (st1 := if hs then {| registry := registry st; next_id := S (next_id st) |} else st) in H.
    assert (Hr1 : registry st1 = registry st) by (unfold st1; destruct hs; reflexivity).
    assert (Hn1 : next_id st1 = if hs then S (next_id st) else next_id st)
      by (unfold st1; destruct hs; reflexivity).
    clearbody st1.
    assert (G1 : load_grows (next_id st) st st1 [])
      by (apply grows_refl; [rewrite Hn1; destruct hs; lia | exact Hr1]).
    assert (P1 : load_pre st1) by exact (grows_pre _ _ _ _ Hpre G1).
    destruct (negb ctrl && negb hs) eqn:Ev; [discriminate H|].
    destruct (negb (valid_name nm)); [discriminate H|].
    destruct (if ctrl then register {| registry := registry st1; next_id := S (next_id st1) |}
                             (next_id st1) nm else Ok st1) as [st2|] eqn:E2;
      [cbn [bind] in H | discriminate H].
    assert (G2 : load_grows (next_id st1) st1 st2 (if ctrl then [nm] else [])).
    { destruct ctrl.
      - apply (grows_trans _ _ {| registry := registry st1; next_id := S (next_id st1) |} _ [] [nm]).
        + apply grows_refl; simpl; [lia | reflexivity].
        + destruct P1 as [Hpos F1].
          eapply grows_register; [exact E2 | lia | apply below_not_in; exact F1 | simpl; lia].
      - injection E2 as <-; apply grows_refl; reflexivity. }
    assert (P2 : load_pre st2) by exact (grows_pre _ _ _ _ P1 G2).
    destruct (match routes with Some cs => createRoutesFromConfigs cs st2 | None => Ok st2 end)
      as [st3|] eqn:E3; [cbn [bind] in H | discriminate H].
    assert (G3 : load_grows (next_id st1) st2 st3
                   (match routes with Some cs => configs_names cs | None => [] end)).
    { clear H. destruct routes as [cs|].
      - apply grows_weaken with (lo := next_id st2); [destruct G2; lia|].
        apply (createRoutesFromConfigs_grows cs); assumption.
      - injection E3 as <-; apply grows_refl; reflexivity. }
    assert (P3 : load_pre st3) by exact (grows_pre _ _ _ _ P2 G3).
    destruct (match resource with Some cs => createRoutesFromConfigs cs st3 | None => Ok st3 end)
      as [st4|] eqn:E4; [cbn [bind] in H | discriminate H].
    assert (G4 : load_grows (next_id st1) st3 st4
                   (match resource with Some cs => configs_names cs | None => [] end)).
    { clear H. destruct resource as [cs|].
      - apply grows_weaken with (lo := next_id st3); [destruct G2, G3; lia|].
        apply (createRoutesFromConfigs_grows cs); assumption.
      - injection E4 as <-; apply grows_refl; reflexivity. }
    assert (Gall := grows_trans _ _ _ _ _ _ G2 (grows_trans _ _ _ _ _ _ G3 G4)).
    destruct hs.
    + assert (G5 : load_grows (next_id st) st4 st' [nm]).
      { destruct Gall as [Hle [new [R [_ [F _]]]]].
        destruct Hpre as [Hpos F0].
        eapply grows_register; [exact H | lia | | lia].
        rewrite R, Hr1, map_app; intros Hin; apply in_app_or in Hin as [Hin | Hin].
        - exact (below_not_in _ _ F0 Hin).
        - apply in_map_iff in Hin as [p [Hp Hin]].
          rewrite Forall_forall in F; specialize (F p Hin); lia. }
      pose proof (grows_trans _ _ _ _ _ _ G1 (grows_trans _ _ _ _ _ _
                    (grows_weaken (next_id st1) (next_id st) _ _ _ ltac:(lia) Gall) G5)) as Gf.
      eapply grows_names; [|exact Gf]. simpl; rewrite <- ?app_assoc; reflexivity.
    + injection H as <-.
      pose proof (grows_trans _ _ _ _ _ _ G1
                    (grows_weaken (next_id st1) (next_id st) _ _ _ ltac:(lia) Gall)) as Gf.
      eapply grows_names; [|exact Gf]. simpl; rewrite ?app_nil_r, <- ?app_assoc; reflexivity.
  - destruct cs as [|key c rest]; intros st st' Hpre H; cbn [createRoutesFromConfigs] in H.
    + injection H as <-; apply grows_refl; reflexivity.
    + destruct (hasRoute (registry st) (trim key)); [discriminate H|].
      destruct (createRoute (trim key) c st) as [st1|] eqn:E1; [cbn [bind] in H | discriminate H].
      assert (G1 := createRoute_grows c (trim key) st st1 Hpre E1).
      assert (P1 := grows_pre _ _ _ _ Hpre G1).
      assert (G2 := createRoutesFromConfigs_grows rest st1 st' P1 H).
      cbn [configs_names]; apply (grows_trans _ _ st1); [exact G1|].
      apply grows_weaken with (lo := next_id st1); [destruct G1; lia | exact G2].
Qed.

(** C9. From a registry without a repeated name, a successful
    load registers exactly the routes the config entries create, and the
    registry still has no repeated name; so when a name is repeated, among
    the config entries (segment and action routes counted separately) or
    between them and the registry, the load fails. *)
Theorem createRoutesFromConfigs_unique_names (cs : Configs) (st : LState)
  (Hpre : load_pre st) (Hnd : NoDup (map fst (registry st))) :
  (forall st', createRoutesFromConfigs cs st = Ok st' ->
     map fst (registry st') = map fst (registry st) ++ configs_names cs /\
     NoDup (map fst (registry st'))) /\
  (~ NoDup (map fst (registry st) ++ configs_names cs) ->
     exists e, createRoutesFromConfigs cs st = Err e).
Proof.
  assert (Hok : forall st', createRoutesFromConfigs cs st = Ok st' ->
     map fst (registry st') = map fst (registry st) ++ configs_names cs /\
     NoDup (map fst (registry st'))).
  { intros st' H.
    destruct (createRoutesFromConfigs_grows cs st st' Hpre H) as [_ [new [R [N [_ D]]]]].
    split; [rewrite R, map_app, N; reflexivity | exact (D Hnd)]. }
  split; [exact Hok|].
  intros Hdup; destruct (createRoutesFromConfigs cs st) as [st'|e] eqn:E; [|eauto].
  exfalso; apply Hdup; rewrite <- (proj1 (Hok st' eq_refl)); exact (proj2 (Hok st' eq_refl)).
Qed.

Lemma createRoutesFromConfigs_unique_names_witness :
  (exists e, createRoutesFromConfigs cfg_dup lstate0 = Err e) /\
  createRoutesFromConfigs cfg_dup lstate0 = Err (Ambiguous "a").
Proof.
  split; [|reflexivity].
  assert (Hpre : load_pre lstate0) by (split; [simpl; lia | constructor]).
  apply (proj2 (createRoutesFromConfigs_unique_names cfg_dup lstate0 Hpre (NoDup_nil _))).
  simpl; intros Hnd; inversion Hnd as [|x l Hx Hl]; subst.
  apply Hx; simpl; auto.
Defined.

(* ------------------------------------------------------------------ *)
(** ** Search depth, parent lists and tree building *)

Lemma tree1_parents_first : parents_first tree1.
Proof.
  intros n p H. unfold getParentRoute in H.
  destruct n as [|[|[|[|n]]]]; simpl in H; inversion H; lia.
Qed.

Section TreeDepthLemmas.

Variable rt : nat -> Route.
Hypothesis Hfirst : parents_first rt.

Lemma ancestor_at_pos (k p n : nat) : ancestor_at rt k p n -> 1 <= k.
Proof. intros H. destruct H; lia. Qed.

Lemma ancestor_at_lt (k p n : nat) : ancestor_at rt k p n -> p < n.
Proof.
  induction 1 as [n p Hp|k n q p Hq _ IH].
  - exact (Hfirst n p Hp).
  - pose proof (Hfirst n q Hq). lia.
Qed.

Lemma isChild_walk_spec (fuel : nat) : forall (limit : option nat) (route par : nat),
  route <= fuel -> route <> par ->
  (isChild_walk rt fuel limit route par = true <->
   exists k, ancestor_at rt k par route /\
             match limit with Some l => k <= l | None => True end).
Proof.
  induction fuel as [|f IH]; intros limit route par Hle Hne.
  - assert (route = 0) by lia. subst route.
    assert (Hw : isChild_walk rt 0 limit 0 par = false).
    { destruct limit as [[|l]|]; cbn [isChild_walk]; apply Nat.eqb_neq; exact Hne. }
    rewrite Hw. split; [discriminate|].
    intros [k [Hk _]]. apply ancestor_at_lt in Hk. lia.
  - destruct limit as [[|l]|].
    + cbn [isChild_walk]. rewrite (proj2 (Nat.eqb_neq _ _) Hne). split; [discriminate|].
      intros [k [Hk Hl]]. apply ancestor_at_pos in Hk. lia.
    + cbn [isChild_walk]. destruct (getParentRoute rt route) as [p|] eqn:Hp.
      * pose proof (Hfirst route p Hp) as Hlt.
        destruct (Nat.eqb p par) eqn:Epp.
        -- apply Nat.eqb_eq in Epp. subst p. split; [|reflexivity].
           intros _. exists 1. split; [apply anc_parent; exact Hp|lia].
        -- apply Nat.eqb_neq in Epp.
           rewrite (IH (option_map pred (Some (S l))) p par) by lia. simpl.
           split.
           ++ intros [k [Hk Hl]]. exists (S k). split; [|lia].
              apply (anc_up rt k route p par Hp Hk).
           ++ intros [k [Hk Hl]].
              inversion Hk as [n0 p0 Hp0|k0 n0 q p0 Hq Hk0]; subst.
              ** congruence.
              ** rewrite Hp in Hq. injection Hq as <-. exists k0. split; [exact Hk0|lia].
      * split; [discriminate|]. intros [k [Hk _]].
        inversion Hk; congruence.
    + cbn [isChild_walk]. destruct (getParentRoute rt route) as [p|] eqn:Hp.
      * pose proof (Hfirst route p Hp) as Hlt.
        destruct (Nat.eqb p par) eqn:Epp.
        -- apply Nat.eqb_eq in Epp. subst p. split; [|reflexivity].
           intros _. exists 1. split; [apply anc_parent; exact Hp|exact I].
        -- apply Nat.eqb_neq in Epp.
           rewrite (IH None p par) by lia. simpl.
           split.
           ++ intros [k [Hk _]]. exists (S k). split; [|exact I].
              apply (anc_up rt k route p par Hp Hk).
           ++ intros [k [Hk _]].
              inversion Hk as [n0 p0 Hp0|k0 n0 q p0 Hq Hk0]; subst.
              ** congruence.
              ** rewrite Hp in Hq. injection Hq as <-. exists k0. split; [exact Hk0|exact I].
      * split; [discriminate|]. intros [k [Hk _]].
        inversion Hk; congruence.
Qed.

Lemma chain_f_enough (n : nat) : forall f, n < f -> chain_f rt f n = chain_f rt (S n) n.
Proof.
  induction n as [n IH] using lt_wf_ind. intros f Hf.
  destruct f as [|f]; [lia|]. simpl.
  destruct (getParentRoute rt n) as [p|] eqn:Hp; [|reflexivity].
  pose proof (Hfirst n p Hp).
  rewrite (IH p H f) by lia. rewrite (IH p H n) by lia. reflexivity.
Qed.

Lemma ancestors_unfold (n : nat) :
  ancestors rt n =
  match getParentRoute rt n with Some q => q :: ancestors rt q | None => [] end.
Proof.
  unfold ancestors, chain. simpl.
  destruct (getParentRoute rt n) as [q|] eqn:Hq; [|reflexivity].
  rewrite (chain_f_enough q n) by exact (Hfirst n q Hq). reflexivity.
Qed.

Lemma ancestor_at_nth (k p n : nat) :
  ancestor_at rt k p n <-> 1 <= k /\ nth_error (ancestors rt n) (k - 1) = Some p.
Proof.
  split.
  - induction 1 as [n p Hp|k n q p Hq Hk IH].
    + rewrite ancestors_unfold, Hp. split; reflexivity.
    + rewrite ancestors_unfold, Hq. pose proof (ancestor_at_pos _ _ _ Hk).
      destruct k as [|k]; [lia|]. split; [lia|]. simpl. simpl in IH.
      rewrite Nat.sub_0_r in IH. apply IH.
  - revert n. induction k as [|k IH]; intros n [Hk Hn]; [lia|].
    rewrite ancestors_unfold in Hn.
    destruct (getParentRoute rt n) as [q|] eqn:Hq; [|destruct k; discriminate].
    destruct k as [|k].
    + simpl in Hn. injection Hn as <-. apply anc_parent. exact Hq.
    + apply (anc_up rt (S k) n q p Hq). apply IH. split; [lia|].
      simpl in Hn. simpl. rewrite Nat.sub_0_r. exact Hn.
Qed.

Lemma ancestors_NoDup (n : nat) : NoDup (ancestors rt n).
Proof.
  induction n as [n IH] using lt_wf_ind.
  rewrite ancestors_unfold.
  destruct (getParentRoute rt n) as [q|] eqn:Hq; [|constructor].
  constructor; [|apply IH; exact (Hfirst n q Hq)].
  intros Hin. apply (ancestors_lt rt Hfirst) in Hin. lia.
Qed.

Lemma upto_incl_notin (c : nat) (l : list nat) : ~ In c l -> upto_incl c l = l.
Proof.
  induction l as [|x l IH]; simpl; [reflexivity|]. intros Hn.
  destruct (Nat.eqb x c) eqn:E.
  - apply Nat.eqb_eq in E. subst. tauto.
  - rewrite IH; tauto.
Qed.

Lemma upto_incl_firstn (c : nat) (l : list nat) (i : nat) :
  NoDup l -> nth_error l i = Some c -> upto_incl c l = firstn (S i) l.
Proof.
  revert i. induction l as [|x l IH]; intros i Hnd Hi; [destruct i; discriminate|].
  inversion Hnd as [|x' l' Hx Hl]; subst.
  destruct i as [|i].
  - simpl in Hi. injection Hi as <-. simpl. rewrite Nat.eqb_refl. reflexivity.
  - simpl in Hi. simpl. destruct (Nat.eqb x c) eqn:E.
    + apply Nat.eqb_eq in E. subst. apply nth_error_In in Hi. tauto.
    + rewrite (IH i Hl Hi). reflexivity.
Qed.

Lemma nth_error_rev_firstn (l : list nat) (m i p : nat) :
  m <= length l ->
  (nth_error (rev (firstn m l)) i = Some p <-> i < m /\ nth_error l (m - 1 - i) = Some p).
Proof.
  intros Hm. rewrite nth_error_rev, length_firstn.
  replace (Nat.min m (length l)) with m by lia.
  destruct (Nat.ltb_spec i m) as [Hi|Hi].
  - rewrite nth_error_firstn.
    destruct (Nat.ltb_spec (m - S i) m); [|lia].
    replace (m - S i) with (m - 1 - i) by lia. split; [intros Hp; split; assumption|tauto].
  - split; [discriminate|lia].
Qed.

Lemma getParentRoutes_firstn (this until : nat) :
  until <> this ->
  (In until (ancestors rt this) -> exists i,
     nth_error (ancestors rt this) i = Some until /\
     getParentRoutes rt this until = rev (firstn (S i) (ancestors rt this))) /\
  (~ In until (ancestors rt this) ->
     getParentRoutes rt this until = rev (firstn (length (ancestors rt this)) (ancestors rt this))).
Proof.
  intros Hne. unfold getParentRoutes.
  rewrite getParentRoutes_loop_upto by (apply Nat.eqb_neq; congruence).
  rewrite app_nil_r. fold (chain rt this). fold (ancestors rt this).
  split.
  - intros Hin. apply In_nth_error in Hin as [i Hi]. exists i. split; [exact Hi|].
    rewrite (upto_incl_firstn until _ i (ancestors_NoDup this) Hi). reflexivity.
  - intros Hn. rewrite upto_incl_notin by exact Hn. rewrite firstn_all. reflexivity.
Qed.

End TreeDepthLemmas.

Lemma search_limit_within (searchDepth : option Z) (k : nat) :
  match search_limit searchDepth with Some l => k <= l | None => True end <->
  match searchDepth with
  | Some d => (0 < d)%Z -> (Z.of_nat k <= d)%Z
  | None => True
  end.
Proof.
  destruct searchDepth as [d|]; simpl; [|tauto].
  destruct (Z.leb_spec d 0) as [Hd|Hd].
  - split; [intros _ H; lia|tauto].
  - split; intros H; [intros _; lia|]. specialize (H Hd). lia.
Qed.

(** X1. [isChildRouteOf(parentRoute, searchDepth)] is true exactly when the
    parent route is not actionable and is reached from the route by some
    number k >= 1 of parent links, where k is at most [searchDepth] when that
    is a positive integer; a missing, zero or negative depth sets no bound. *)
Theorem isChildRouteOf_depth_spec (rt : nat -> Route) (this par : nat)
  (searchDepth : option Z) :
  parents_first rt ->
  (isChildRouteOf_depth rt this par searchDepth = true <->
   actionable (rt par) = false /\
   exists k, ancestor_at rt k par this /\
     match searchDepth with
     | Some d => (0 < d)%Z -> (Z.of_nat k <= d)%Z
     | None => True
     end).
Proof.
  intros Hfirst. unfold isChildRouteOf_depth.
  destruct (actionable (rt par)) eqn:Ea; simpl.
  - split; [discriminate|]. intros [H _]. discriminate.
  - destruct (Nat.eqb this par) eqn:Ep.
    + apply Nat.eqb_eq in Ep. subst par. split; [discriminate|].
      intros [_ [k [Hk _]]]. apply (ancestor_at_lt rt Hfirst) in Hk. lia.
    + apply Nat.eqb_neq in Ep.
      rewrite (isChild_walk_spec rt Hfirst this (search_limit searchDepth) this par)
        by (lia || exact Ep).
      split.
      * intros [k [Hk Hl]]. split; [reflexivity|]. exists k.
        split; [exact Hk|apply search_limit_within; exact Hl].
      * intros [_ [k [Hk Hl]]]. exists k.
        split; [exact Hk|apply search_limit_within; exact Hl].
Qed.

Lemma isChildRouteOf_depth_spec_witness :
  parents_first tree1 /\ isChildRouteOf_depth tree1 3 0 (Some 2%Z) = true.
Proof.
  split; [exact tree1_parents_first|].
  apply (proj2 (isChildRouteOf_depth_spec tree1 3 0 (Some 2%Z) tree1_parents_first)).
  split; [reflexivity|]. exists 2. split.
  - apply (anc_up tree1 1 3 2 0); [reflexivity|]. apply anc_parent. reflexivity.
  - intros _. lia.
Defined.

(** X2. [getParentRoutes(untilRoute)] lists ancestors top-down: entry i of
    the result is the route (length - i) parent links above the route.  When
    [untilRoute] is the k-th ancestor the list has k entries and stops there;
    when it is neither the route nor an ancestor the list holds every
    ancestor; from the route itself it is empty. *)
Theorem getParentRoutes_spec (rt : nat -> Route) (this until : nat) :
  parents_first rt ->
  (forall i p, nth_error (getParentRoutes rt this until) i = Some p <->
     i < length (getParentRoutes rt this until) /\
     ancestor_at rt (length (getParentRoutes rt this until) - i) p this) /\
  (forall k, ancestor_at rt k until this -> length (getParentRoutes rt this until) = k) /\
  (until <> this -> (forall k, ~ ancestor_at rt k until this) ->
     forall p, ~ ancestor_at rt (S (length (getParentRoutes rt this until))) p this) /\
  (until = this -> getParentRoutes rt this until = []).
Proof.
  intros Hfirst.
  destruct (Nat.eq_dec until this) as [->|Hne].
  - assert (Hnil : getParentRoutes rt this this = []).
    { unfold getParentRoutes. destruct this; simpl; [reflexivity|].
      rewrite Nat.eqb_refl. reflexivity. }
    rewrite Hnil. simpl. split; [|split; [|split]].
    + intros i p. destruct i; simpl; split; try discriminate; lia.
    + intros k Hk. apply (ancestor_at_lt rt Hfirst) in Hk. lia.
    + intros H. congruence.
    + reflexivity.
  - set (A := ancestors rt this).
    assert (Hgen : exists m, m <= length A /\
              getParentRoutes rt this until = rev (firstn m A) /\
              (In until A -> nth_error A (m - 1) = Some until /\ 1 <= m) /\
              (~ In until A -> m = length A)).
    { destruct (getParentRoutes_firstn rt Hfirst this until Hne) as [H1 H2].
      fold A in H1. fold A in H2.
      destruct (in_dec Nat.eq_dec until A) as [Hin|Hn].
      - destruct (H1 Hin) as [i [Hi Heq]]. exists (S i).
        assert (i < length A) by (apply nth_error_Some; congruence).
        split; [lia|]. split; [exact Heq|]. split; [|tauto].
        intros _. simpl. rewrite Nat.sub_0_r. split; [exact Hi|lia].
      - exists (length A). split; [lia|]. split; [exact (H2 Hn)|]. tauto. }
    destruct Hgen as [m [Hm [Heq [Hin Hout]]]]. rewrite Heq.
    assert (Hlen : length (rev (firstn m A)) = m)
      by (rewrite length_rev; apply firstn_length_le; exact Hm).
    rewrite Hlen. split; [|split; [|split]].
    + intros i p. rewrite (nth_error_rev_firstn A m i p Hm).
      split; intros [Hi Hp]; split; try exact Hi.
      * apply (ancestor_at_nth rt Hfirst). split; [lia|].
        replace (m - i - 1) with (m - 1 - i) by lia. exact Hp.
      * apply (ancestor_at_nth rt Hfirst) in Hp as [_ Hp].
        replace (m - 1 - i) with (m - i - 1) by lia. exact Hp.
    + intros k Hk. apply (ancestor_at_nth rt Hfirst) in Hk as [Hk1 Hk]. fold A in Hk.
      assert (HinA : In until A) by (eapply nth_error_In; exact Hk).
      destruct (Hin HinA) as [Hm1 Hm0].
      assert (k - 1 < length A) by (apply nth_error_Some; congruence).
      pose proof (proj1 (NoDup_nth_error A) (ancestors_NoDup rt Hfirst this)
                    (k - 1) (m - 1) ltac:(lia) ltac:(congruence)). lia.
    + intros _ Hnot p Hp.
      assert (HnA : ~ In until A).
      { intros HinA. apply In_nth_error in HinA as [i Hi].
        apply (Hnot (S i)). apply (ancestor_at_nth rt Hfirst). split; [lia|].
        simpl. rewrite Nat.sub_0_r. exact Hi. }
      rewrite (Hout HnA) in Hp.
      apply (ancestor_at_nth rt Hfirst) in Hp as [_ Hp]. fold A in Hp.
      simpl in Hp. rewrite Nat.sub_0_r in Hp.
      assert (Hs : nth_error A (length A) <> None) by congruence.
      apply nth_error_Some in Hs. lia.
    + intros H. congruence.
Qed.

Lemma getParentRoutes_spec_witness :
  parents_first tree1 /\ length (getParentRoutes tree1 3 0) = 2.
Proof.
  split; [exact tree1_parents_first|].
  apply (proj1 (proj2 (getParentRoutes_spec tree1 3 0 tree1_parents_first))).
  apply (anc_up tree1 1 3 2 0); [reflexivity|]. apply anc_parent. reflexivity.
Defined.

Lemma tree1_parents_not_actionable : parents_not_actionable tree1.
Proof.
  intros n p H. unfold getParentRoute in H.
  destruct n as [|[|[|[|n]]]]; simpl in H; inversion H; reflexivity.
Qed.

Lemma tree1_roots_parentless : roots_parentless tree1.
Proof.
  intros n H. unfold getParentRoute.
  destruct n as [|[|[|[|n]]]]; simpl in H; try discriminate; reflexivity.
Qed.

Lemma setParentRoute_ok_inv (ts ts' : TreeState) (this par : nat) (unshift : bool) :
  setParentRoute ts this par unshift = Ok ts' ->
  parentRoute (troutes ts this) = None /\ root (troutes ts this) = false /\
  actionable (troutes ts par) = false /\
  troutes ts' = (fun n => if Nat.eqb n this then with_parent par (troutes ts n)
                          else troutes ts n) /\
  tsubs ts' par = (if unshift then this :: tsubs ts par else tsubs ts par ++ [this]).
Proof.
  unfold setParentRoute.
  destruct (parentRoute (troutes ts this)); [discriminate|].
  destruct (root (troutes ts this)); [discriminate|].
  destruct (actionable (troutes ts par)); [discriminate|].
  intros H. injection H as <-. simpl. rewrite Nat.eqb_refl.
  repeat split; reflexivity.
Qed.

Lemma if_eqb_actionable (n this : nat) (f : Route -> Route) (g : nat -> Route) :
  (forall r, actionable (f r) = actionable r) ->
  actionable (if Nat.eqb n this then f (g n) else g n) = actionable (g n).
Proof. intros Hf. destruct (Nat.eqb n this); [apply Hf|reflexivity]. Qed.

(** X3. [setParentRoute] and [_setRoot] keep two rules of a route tree: an
    actionable route is nobody's parent, and a root route has no parent.
    After [setParentRoute(parentRoute, unshift)] the route's parent is
    [parentRoute] and [parentRoute]'s sub-routes contain the route; after
    [_setRoot] the route is a root. *)
Theorem setParentRoute_setRoot_invariants (ts ts' : TreeState) (this par : nat)
  (unshift : bool) :
  parents_not_actionable (troutes ts) -> roots_parentless (troutes ts) ->
  (setParentRoute ts this par unshift = Ok ts' ->
     parents_not_actionable (troutes ts') /\ roots_parentless (troutes ts') /\
     getParentRoute (troutes ts') this = Some par /\ In this (tsubs ts' par)) /\
  (setRoot ts this = Ok ts' ->
     parents_not_actionable (troutes ts') /\ roots_parentless (troutes ts') /\
     root (troutes ts' this) = true).
Proof.
  intros Hna Hrp. split.
  - intros Hok.
    destruct (setParentRoute_ok_inv ts ts' this par unshift Hok)
      as [Hnone [Hnroot [Hpar [Hrt Hsubs]]]].
    split; [|split; [|split]].
    + intros n p Hp. unfold getParentRoute in Hp. rewrite Hrt in Hp |- *.
      rewrite (if_eqb_actionable p this (with_parent par) (troutes ts)) by reflexivity.
      destruct (Nat.eqb n this) eqn:E.
      * simpl in Hp. injection Hp as <-. exact Hpar.
      * exact (Hna n p Hp).
    + intros n Hn. unfold getParentRoute. rewrite Hrt in Hn |- *.
      destruct (Nat.eqb n this) eqn:E.
      * apply Nat.eqb_eq in E. subst n. simpl in Hn. congruence.
      * exact (Hrp n Hn).
    + unfold getParentRoute. rewrite Hrt, Nat.eqb_refl. reflexivity.
    + rewrite Hsubs. destruct unshift; [left; reflexivity|].
      apply in_or_app. right. left. reflexivity.
  - unfold setRoot.
    destruct (parentRoute (troutes ts this)) as [p|] eqn:Hnone; [discriminate|].
    intros H. injection H as <-. simpl.
    split; [|split].
    + intros n p Hp. unfold getParentRoute in Hp. simpl in Hp |- *.
      rewrite (if_eqb_actionable p this with_root (troutes ts)) by reflexivity.
      destruct (Nat.eqb n this); exact (Hna n p Hp).
    + intros n Hn. unfold getParentRoute. simpl in Hn |- *.
      destruct (Nat.eqb n this) eqn:E.
      * apply Nat.eqb_eq in E. subst n. exact Hnone.
      * exact (Hrp n Hn).
    + rewrite Nat.eqb_refl. reflexivity.
Qed.

Lemma setParentRoute_setRoot_invariants_witness :
  parents_not_actionable tree1 /\ roots_parentless tree1 /\
  (forall ts', setParentRoute tree_ex 4 2 false = Ok ts' ->
     getParentRoute (troutes ts') 4 = Some 2 /\ In 4 (tsubs ts' 2)).
Proof.
  split; [exact tree1_parents_not_actionable|].
  split; [exact tree1_roots_parentless|].
  intros ts' Hok.
  destruct (proj1 (setParentRoute_setRoot_invariants tree_ex ts' 4 2 false
                     tree1_parents_not_actionable tree1_roots_parentless) Hok)
    as [_ [_ [H1 H2]]].
  split; [exact H1|exact H2].
Defined.

(** X4. Once [setParentRoute] has succeeded for a route, a second
    [setParentRoute] of that route fails with 'A route cannot be the child
    of multiple parent routes', and [_setRoot] on it fails with 'Cannot set
    <route> as root route, parent route is <parent>'. *)
Theorem setParentRoute_once (ts ts' : TreeState) (this par par' : nat) (u u' : bool) :
  setParentRoute ts this par u = Ok ts' ->
  setParentRoute ts' this par' u' = Err MultipleParents /\
  setRoot ts' this = Err (RootWithParent (name (troutes ts this)) (name (troutes ts par))).
Proof.
  intros Hok.
  destruct (setParentRoute_ok_inv ts ts' this par u Hok) as [_ [_ [_ [Hrt _]]]].
  unfold setParentRoute, setRoot. rewrite Hrt, Nat.eqb_refl. simpl.
  split; [reflexivity|].
  destruct (Nat.eqb par this); reflexivity.
Qed.

Lemma setParentRoute_once_witness :
  setParentRoute tree_ex 4 2 false = Ok (match setParentRoute tree_ex 4 2 false with
                                         | Ok t => t | Err _ => tree_ex end) /\
  setRoot (match setParentRoute tree_ex 4 2 false with Ok t => t | Err _ => tree_ex end) 4
    = Err (RootWithParent "unused" "s").
Proof.
  split; [reflexivity|].
  exact (proj2 (setParentRoute_once tree_ex _ 4 2 0 false false eq_refl)).
Defined.

(** X5. [setParentRoute] has no cycle check: a route without parent that is
    neither a root nor actionable can be made its own parent.  The route is
    then its own ancestor at every distance, so the parent walk of
    [getParentRoutes()] without an [untilRoute] never ends. *)
Theorem setParentRoute_self_cycle (ts : TreeState) (this : nat) (u : bool) :
  parentRoute (troutes ts this) = None -> root (troutes ts this) = false ->
  actionable (troutes ts this) = false ->
  exists ts', setParentRoute ts this this u = Ok ts' /\
    getParentRoute (troutes ts') this = Some this /\
    (forall k, 1 <= k -> ancestor_at (troutes ts') k this this) /\
    ~ parents_first (troutes ts').
Proof.
  intros Hp Hr Ha. unfold setParentRoute. rewrite Hp, Hr, Ha.
  eexists. split; [reflexivity|].
  assert (Hself : getParentRoute (troutes (mkTreeState
            (fun n => if Nat.eqb n this then with_parent this (troutes ts n) else troutes ts n)
            (fun n => if Nat.eqb n this
                      then if u then this :: tsubs ts n else tsubs ts n ++ [this]
                      else tsubs ts n))) this = Some this).
  { unfold getParentRoute. simpl. rewrite Nat.eqb_refl. reflexivity. }
  split; [exact Hself|]. split.
  - intros k Hk. induction k as [|k IH]; [lia|].
    destruct k as [|k].
    + apply anc_parent. exact Hself.
    + apply (anc_up _ (S k) this this this Hself). apply IH. lia.
  - intros Hfirst. pose proof (Hfirst this this Hself). lia.
Qed.

Lemma setParentRoute_self_cycle_witness :
  exists ts', setParentRoute tree_ex 4 4 false = Ok ts' /\
    getParentRoute (troutes ts') 4 = Some 4.
Proof.
  destruct (setParentRoute_self_cycle tree_ex 4 false eq_refl eq_refl eq_refl)
    as [ts' [H1 [H2 _]]].
  exists ts'. split; [exact H1|exact H2].
Defined.

(** X6. [isSiblingOf] is symmetric, and a route is a sibling of itself
    exactly when it has a parent route. *)
Theorem isSiblingOf_sym_self (rt : nat -> Route) :
  (forall a b, isSiblingOf rt a b = isSiblingOf rt b a) /\
  (forall a, isSiblingOf rt a a = true <-> getParentRoute rt a <> None).
Proof.
  split.
  - intros a b. unfold isSiblingOf.
    destruct (getParentRoute rt a), (getParentRoute rt b); try reflexivity.
    apply Nat.eqb_sym.
  - intros a. unfold isSiblingOf.
    destruct (getParentRoute rt a) as [p|].
    + rewrite Nat.eqb_refl. split; [discriminate|reflexivity].
    + split; [discriminate|]. intros H. exfalso. apply H. reflexivity.
Qed.

(* ------------------------------------------------------------------ *)
(** ** Registration and loading *)

Lemma assoc_app (k : string) (l1 l2 : Registry) :
  assoc k (l1 ++ l2) = match assoc k l1 with Some v => Some v | None => assoc k l2 end.
Proof.
  induction l1 as [|[k' v'] l1 IH]; simpl; [reflexivity|].
  destruct (String.eqb k k'); [reflexivity|exact IH].
Qed.

Lemma routes_get_assoc (reg : Registry) (nm : string) (r : nat) :
  assoc nm reg = Some r -> routes_get reg nm = Some (Own r).
Proof. unfold routes_get. intros ->. reflexivity. Qed.

(** X7. A successful [registerRoute(route)] of a route other than the router
    makes [getRoute(name)] return that route and leaves the lookup of every
    other name unchanged; the 'route registered' event is emitted exactly
    when the name was free before. *)
Theorem registerRoute_getRoute (self route : nat) (reg reg' : Registry) (nm : string)
  (ev : list nat) :
  route <> self -> registerRoute self reg route nm = Ok (reg', ev) ->
  getRoute reg' nm = Ok (Own route) /\
  (forall nm', nm' <> nm -> getRoute reg' nm' = getRoute reg nm') /\
  (ev = [route] <-> routes_get reg nm = None) /\
  (ev = [] <-> routes_get reg nm = Some (Own route)).
Proof.
  intros Hne H. unfold registerRoute in H.
  rewrite (proj2 (Nat.eqb_neq _ _) Hne) in H.
  destruct (routes_get reg nm) as [[r|]|] eqn:E.
  - destruct (Nat.eqb_spec r route) as [->|]; [|discriminate H].
    injection H as <- <-. unfold getRoute. rewrite E.
    repeat split; try reflexivity; try discriminate.
  - discriminate H.
  - injection H as <- <-.
    assert (Ha : assoc nm reg = None).
    { unfold routes_get in E. destruct (assoc nm reg); [discriminate|reflexivity]. }
    split; [|split; [|split]].
    + unfold getRoute. rewrite (routes_get_assoc _ _ route); [reflexivity|].
      rewrite assoc_app, Ha. simpl. rewrite String.eqb_refl. reflexivity.
    + intros nm' Hnm. unfold getRoute, routes_get. rewrite assoc_app.
      destruct (assoc nm' reg); [reflexivity|]. simpl.
      destruct (String.eqb_spec nm' nm); [congruence|reflexivity].
    + split; reflexivity.
    + split; discriminate.
Qed.

Lemma registerRoute_getRoute_witness :
  registerRoute 0 [("a", 1)] 2 "b" = Ok ([("a", 1); ("b", 2)], [2]) /\
  getRoute [("a", 1); ("b", 2)] "b" = Ok (Own 2).
Proof.
  split; [reflexivity|].
  exact (proj1 (registerRoute_getRoute 0 2 [("a", 1)] _ "b" _ ltac:(lia) eq_refl)).
Defined.

Lemma register_prefix (st st' : LState) (r : nat) (nm : string) :
  register st r nm = Ok st' -> exists new, registry st' = registry st ++ new.
Proof.
  unfold register, registerRoute.
  destruct (Nat.eqb r 0).
  - cbn [bind]. intros H. injection H as <-. exists []. simpl. rewrite app_nil_r. reflexivity.
  - destruct (routes_get (registry st) nm) as [[r'|]|].
    + destruct (Nat.eqb r' r); [|discriminate].
      cbn [bind]. intros H. injection H as <-. exists []. simpl. rewrite app_nil_r. reflexivity.
    + discriminate.
    + cbn [bind]. intros H. injection H as <-. exists [(nm, r)]. reflexivity.
Qed.

Lemma prefix_trans (a b c : LState) :
  (exists new, registry b = registry a ++ new) ->
  (exists new, registry c = registry b ++ new) ->
  exists new, registry c = registry a ++ new.
Proof.
  intros [n1 H1] [n2 H2]. exists (n1 ++ n2). rewrite H2, H1, app_assoc. reflexivity.
Qed.

Ltac bind_step H x E :=
  match type of H with
  | bind ?m _ = Ok _ => destruct m as [x|] eqn:E; [cbn [bind] in H | discriminate H]
  end.

Lemma createRoute_prefix (c : Config) :
  forall nm st st', createRoute nm c st = Ok st' ->
  exists new, registry st' = registry st ++ new
with createRoutesFromConfigs_prefix (cs : Configs) :
  forall st st', createRoutesFromConfigs cs st = Ok st' ->
  exists new, registry st' = registry st ++ new.
Proof.
  - destruct c as [ctrl routes resource]; intros nm st st' H.
    cbn [createRoute] in H.
    destruct (negb ctrl && negb (has_sub_routes routes resource)); [discriminate H|].
    destruct (negb (valid_name nm)); [discriminate H|].
    assert (P1 : forall st1, registry st1 = registry st -> forall st2,
              (if ctrl then register (mkLState (registry st1) (S (next_id st1)))
                              (next_id st1) nm else Ok st1) = Ok st2 ->
              exists new, registry st2 = registry st ++ new).
    { intros st1 Hr st2 E. destruct ctrl.
      - apply register_prefix in E. simpl in E. rewrite <- Hr. exact E.
      - injection E as <-. exists []. rewrite app_nil_r. exact Hr. }
    assert (Psub : forall (o : option Configs) a b,
              match o with Some cs => createRoutesFromConfigs cs a | None => Ok a end = Ok b ->
              exists new, registry b = registry a ++ new).
    { intros [cs|] a b E; [exact (createRoutesFromConfigs_prefix cs a b E)|].
      injection E as <-. exists []. rewrite app_nil_r. reflexivity. }
    bind_step H st2 E2. bind_step H st3 E3. bind_step H st4 E4.
    apply (prefix_trans st st4 st').
    + apply (prefix_trans st st3 st4); [apply (prefix_trans st st2 st3)|].
      * eapply P1; [|exact E2]. destruct (has_sub_routes routes resource); reflexivity.
      * exact (Psub _ _ _ E3).
      * exact (Psub _ _ _ E4).
    + destruct (has_sub_routes routes resource).
      * exact (register_prefix _ _ _ _ H).
      * injection H as <-. exists []. rewrite app_nil_r. reflexivity.
  - destruct cs as [|key c rest]; intros st st' H; cbn [createRoutesFromConfigs] in H.
    + injection H as <-. exists []. rewrite app_nil_r. reflexivity.
    + destruct (hasRoute (registry st) (trim key)); [discriminate H|].
      bind_step H st1 E1.
      exact (prefix_trans _ _ _ (createRoute_prefix c _ _ _ E1)
                                (createRoutesFromConfigs_prefix rest _ _ H)).
Qed.

Lemma opt_load_prefix (o : option Configs) (a b : LState) :
  match o with Some cs => createRoutesFromConfigs cs a | None => Ok a end = Ok b ->
  exists new, registry b = registry a ++ new.
Proof.
  destruct o as [cs|]; intros E; [exact (createRoutesFromConfigs_prefix cs a b E)|].
  injection E as <-. exists []. rewrite app_nil_r. reflexivity.
Qed.

Lemma register_assoc (st st' : LState) (r : nat) (nm : string) :
  register st r nm = Ok st' -> r <> 0 -> assoc nm (registry st') = Some r.
Proof.
  unfold register, registerRoute. intros H Hr.
  rewrite (proj2 (Nat.eqb_neq _ _) Hr) in H.
  destruct (routes_get (registry st) nm) as [[r'|]|] eqn:E.
  - destruct (Nat.eqb_spec r' r) as [->|]; [|discriminate H].
    cbn [bind] in H. injection H as <-. simpl. unfold routes_get in E.
    destruct (assoc nm (registry st)); [congruence|].
    destruct (existsb (String.eqb nm) object_prototype_props); discriminate.
  - discriminate H.
  - cbn [bind] in H. injection H as <-. simpl. rewrite assoc_app.
    unfold routes_get in E. destruct (assoc nm (registry st)); [discriminate|].
    simpl. rewrite String.eqb_refl. reflexivity.
Qed.

(** X8. A config entry with both a [controller] and sub-routes ([routes] or
    [resource]) never loads: [_createRoute] registers the action route under
    the entry's name first, so registering the segment route under the same
    name at the end fails with 'A route with the same name already exists'
    (if nothing failed before). *)
Theorem createRoute_controller_and_subroutes (nm : string) (routes resource : option Configs)
  (st st' : LState) :
  0 < next_id st -> has_sub_routes routes resource = true ->
  createRoute nm (mkConfig true routes resource) st <> Ok st'.
Proof.
  intros Hpos Hs H. cbn [createRoute] in H. rewrite Hs in H.
  cbn [negb andb registry next_id] in H.
  destruct (negb (valid_name nm)); [discriminate H|].
  bind_step H st2 E2. bind_step H st3 E3. bind_step H st4 E4.
  apply register_assoc in E2; [|lia].
  destruct (prefix_trans _ _ _ (opt_load_prefix _ _ _ E3) (opt_load_prefix _ _ _ E4))
    as [new Hnew].
  assert (Ha : assoc nm (registry st4) = Some (S (next_id st))).
  { rewrite Hnew, assoc_app, E2. reflexivity. }
  unfold register, registerRoute in H.
  rewrite (proj2 (Nat.eqb_neq (next_id st) 0) ltac:(lia)) in H.
  rewrite (routes_get_assoc _ _ _ Ha) in H.
  rewrite (proj2 (Nat.eqb_neq (S (next_id st)) (next_id st)) ltac:(lia)) in H.
  discriminate H.
Qed.

Lemma createRoute_controller_and_subroutes_witness :
  0 < next_id lstate0 /\
  createRoute "a" cfg_ctrl_sub lstate0 <> Ok (mkLState [("a", 2); ("b", 3)] 4).
Proof.
  split; [simpl; lia|].
  exact (createRoute_controller_and_subroutes "a" (Some (CCons "b" ctrl_entry CNil)) None lstate0 _
           ltac:(simpl; lia) eq_refl).
Defined.

Lemma createRoute_names_valid (c : Config) :
  forall nm st st', createRoute nm c st = Ok st' ->
  Forall (fun n => valid_name n = true) (config_names nm c)
with createRoutesFromConfigs_names_valid (cs : Configs) :
  forall st st', createRoutesFromConfigs cs st = Ok st' ->
  Forall (fun n => valid_name n = true) (configs_names cs).
Proof.
  - destruct c as [ctrl routes resource]; intros nm st st' H.
    cbn [createRoute] in H. cbn [config_names].
    destruct (negb ctrl && negb (has_sub_routes routes resource)); [discriminate H|].
    destruct (negb (valid_name nm)) eqn:Ev; [discriminate H|].
    apply negb_false_iff in Ev.
    bind_step H st2 E2. bind_step H st3 E3. bind_step H st4 E4.
    assert (Hsub : forall (o : option Configs) a b,
              match o with Some cs => createRoutesFromConfigs cs a | None => Ok a end = Ok b ->
              Forall (fun n => valid_name n = true)
                     (match o with Some cs => configs_names cs | None => [] end)).
    { intros [cs|] a b E; [exact (createRoutesFromConfigs_names_valid cs a b E)|constructor]. }
    apply Forall_app. split.
    + destruct ctrl; [constructor; [exact Ev|constructor]|constructor].
    + apply Forall_app. split; [exact (Hsub _ _ _ E3)|].
      apply Forall_app. split; [exact (Hsub _ _ _ E4)|].
      destruct (has_sub_routes routes resource); [constructor; [exact Ev|constructor]|constructor].
  - destruct cs as [|key c rest]; intros st st' H; cbn [createRoutesFromConfigs] in H;
      cbn [configs_names]; [constructor|].
    destruct (hasRoute (registry st) (trim key)); [discriminate H|].
    bind_step H st1 E1. apply Forall_app. split.
    + exact (createRoute_names_valid c _ _ _ E1).
    + exact (createRoutesFromConfigs_names_valid rest _ _ H).
Qed.

(** X9. A successful [createRoutesFromConfigs] only appends to the route
    registry, and every entry it adds has a name matching the route name
    pattern [/^[@-_a-zA-Z0-9]+$/] and a fresh identity, at least the next
    free identity before the load. *)
Theorem createRoutesFromConfigs_appends_valid (cs : Configs) (st st' : LState) :
  load_pre st -> createRoutesFromConfigs cs st = Ok st' ->
  exists new, registry st' = registry st ++ new /\
    Forall (fun p => valid_name (fst p) = true /\ next_id st <= snd p < next_id st') new.
Proof.
  intros Hpre H.
  destruct (createRoutesFromConfigs_grows cs st st' Hpre H) as [_ [new [R [N [F _]]]]].
  pose proof (createRoutesFromConfigs_names_valid cs st st' H) as V.
  exists new. split; [exact R|].
  rewrite Forall_forall in F, V |- *. intros p Hp. split; [|exact (F p Hp)].
  apply V. rewrite <- N. apply in_map. exact Hp.
Qed.

Lemma createRoutesFromConfigs_appends_valid_witness :
  load_pre lstate0 /\
  exists new, registry (mkLState [("b", 1)] 2) = registry lstate0 ++ new /\
    Forall (fun p => valid_name (fst p) = true /\ 1 <= snd p < 2) new.
Proof.
  assert (Hpre : load_pre lstate0) by (split; [simpl; lia | constructor]).
  assert (E : createRoutesFromConfigs (CCons "b" ctrl_entry CNil) lstate0
              = Ok (mkLState [("b", 1)] 2)) by (vm_compute; reflexivity).
  split; [exact Hpre|].
  exact (createRoutesFromConfigs_appends_valid (CCons "b" ctrl_entry CNil) lstate0
           (mkLState [("b", 1)] 2) Hpre E).
Defined.

(* ------------------------------------------------------------------ *)
(** ** Forwarding: failures after the loop check, heap links *)

Section ForwardMore.

Variable rt : nat -> Route.
Variable getRoute : string -> option nat.
Variable sub_url : nat -> option string.

Lemma forward_late_err_inv st cur routeName verb pm st1 e :
  forward rt getRoute sub_url st cur routeName verb pm = (st1, Err e) ->
  e = NoDispatchRoute routeName \/ e = PathError routeName ->
  exists creq tgt croute pmeth h,
    reqs st cur = Some creq /\ getRoute routeName = Some tgt /\
    actionable (rt tgt) = true /\ routicornRoute creq = Some croute /\
    Nat.eqb croute tgt && negb (verbStyle (rt tgt)) = false /\
    forwardMethod routeName (rt tgt) verb pm (req_method creq) = Ok pmeth /\
    forwardHistory rt st creq croute tgt = Ok (st1, h).
Proof.
  unfold forward. intros H Hor.
  destruct (reqs st cur) as [creq|] eqn:E1;
    [|injection H as _ <-; destruct Hor; discriminate].
  destruct (getRoute routeName) as [tgt|] eqn:E2;
    [|injection H as _ <-; destruct Hor; discriminate].
  destruct (actionable (rt tgt)) eqn:E3; simpl in H;
    [|injection H as _ <-; destruct Hor; discriminate].
  destruct (routicornRoute creq) as [croute|] eqn:E4.
  2:{ destruct (forwardMethod routeName (rt tgt) verb pm (req_method creq)) as [pm'|e'] eqn:E6'.
      - destruct (fwdHistory creq); [destruct (existsb _ _)|];
          injection H as _ <-; destruct Hor; discriminate.
      - unfold forwardMethod in E6'.
        destruct (handlesMethod _ _); [discriminate|].
        destruct (Nat.eqb _ 1); [discriminate|].
        injection E6' as <-. injection H as _ <-. destruct Hor; discriminate. }
  destruct (Nat.eqb croute tgt && negb (verbStyle (rt tgt))) eqn:E5;
    [injection H as _ <-; destruct Hor; discriminate|].
  destruct (forwardMethod routeName (rt tgt) verb pm (req_method creq)) as [pmeth|e'] eqn:E6.
  2:{ unfold forwardMethod in E6.
      destruct (handlesMethod _ _); [discriminate|].
      destruct (Nat.eqb _ 1); [discriminate|].
      injection E6 as <-. injection H as _ <-. destruct Hor; discriminate. }
  destruct (forwardHistory rt st creq croute tgt) as [[st1' h]|e'] eqn:E7.
  2:{ unfold forwardHistory in E7. destruct (fwdHistory creq).
      - destruct (existsb _ _); [|discriminate].
        injection E7 as <-. injection H as _ <-. destruct Hor; discriminate.
      - discriminate. }
  assert (st1' = st1).
  { destruct (dispatchPlan rt croute tgt) as [[dir dr]|];
      [destruct (sub_url tgt); [discriminate|]|]; injection H as <- _; reflexivity. }
  subst st1'.
  exists creq, tgt, croute, pmeth, h. repeat split; assumption.
Qed.

Lemma forward_cases st cur routeName verb pm :
  fst (forward rt getRoute sub_url st cur routeName verb pm) = st \/
  exists creq croute tgt st1 h,
    reqs st cur = Some creq /\ forwardHistory rt st creq croute tgt = Ok (st1, h) /\
    (fst (forward rt getRoute sub_url st cur routeName verb pm) = st1 \/
     exists pmeth, fst (forward rt getRoute sub_url st cur routeName verb pm) =
                   set_res_req (fresh st1) (fst (createSubRequest st1 cur creq pmeth h))).
Proof.
  unfold forward.
  destruct (reqs st cur) as [creq|] eqn:E1; [|left; reflexivity].
  destruct (getRoute routeName) as [tgt|]; [|left; reflexivity].
  destruct (actionable (rt tgt)); simpl; [|left; reflexivity].
  destruct (routicornRoute creq) as [croute|].
  2:{ destruct (forwardMethod routeName (rt tgt) verb pm (req_method creq)); [|left; reflexivity].
      destruct (fwdHistory creq) as [h|] eqn:Eh; [|left; reflexivity].
      destruct (existsb (Nat.eqb tgt) (hist_of st h)) eqn:Ex; [left; reflexivity|].
      right. exists creq, 0, tgt, (set_hists (upd (hists st) h (hist_of st h ++ [tgt])) st), h.
      split; [reflexivity|]. split; [|left; reflexivity].
      unfold forwardHistory. rewrite Eh, Ex. reflexivity. }
  destruct (Nat.eqb croute tgt && negb (verbStyle (rt tgt))); [left; reflexivity|].
  destruct (forwardMethod routeName (rt tgt) verb pm (req_method creq)) as [pmeth|];
    [|left; reflexivity].
  destruct (forwardHistory rt st creq croute tgt) as [[st1 h]|] eqn:E7; [|left; reflexivity].
  right. exists creq, croute, tgt, st1, h. split; [reflexivity|]. split; [exact E7|].
  destruct (dispatchPlan rt croute tgt) as [[dir dr]|]; [|left; reflexivity].
  destruct (sub_url tgt); [|left; reflexivity].
  right. exists pmeth. reflexivity.
Qed.

End ForwardMore.

Lemma links_step (st st' : FState) :
  links_ok st ->
  (forall n r, reqs st n = Some r -> exists r', reqs st' n = Some r' /\
     originalReq r' = originalReq r /\ parentReq r' = parentReq r) ->
  (forall n r', reqs st' n = Some r' ->
     (exists r, reqs st n = Some r /\
        originalReq r' = originalReq r /\ parentReq r' = parentReq r) \/
     ((forall o, originalReq r' = Some o ->
         exists ro, reqs st o = Some ro /\ originalReq ro = None) /\
      (forall p, parentReq r' = Some p -> exists pr, reqs st p = Some pr))) ->
  links_ok st'.
Proof.
  intros [Ho Hp] Hfw Hbw. split.
  - intros n r' o Hn Hr'.
    assert (Hst : exists ro, reqs st o = Some ro /\ originalReq ro = None).
    { destruct (Hbw n r' Hn) as [[r [Hr [E1 _]]]|[Hnew _]].
      - rewrite E1 in Hr'. exact (Ho n r o Hr Hr').
      - exact (Hnew o Hr'). }
    destruct Hst as [ro [Hro Hnone]].
    destruct (Hfw o ro Hro) as [ro' [Hro' [E _]]].
    exists ro'. split; [exact Hro'|congruence].
  - intros n r' p Hn Hr'.
    assert (Hst : exists pr, reqs st p = Some pr).
    { destruct (Hbw n r' Hn) as [[r [Hr [_ E2]]]|[_ Hnew]].
      - rewrite E2 in Hr'. exact (Hp n r p Hr Hr').
      - exact (Hnew p Hr'). }
    destruct Hst as [pr Hpr].
    destruct (Hfw p pr Hpr) as [pr' [Hpr' _]]. exists pr'. exact Hpr'.
Qed.

Lemma forwardHistory_heap_ok rt st creq croute tgt st1 h cur :
  heap_ok st -> reqs st cur = Some creq ->
  forwardHistory rt st creq croute tgt = Ok (st1, h) ->
  reqs st1 = reqs st /\ fresh st <= fresh st1 /\ heap_ok st1 /\ h < fresh st1.
Proof.
  intros [Hf Hh] Hcur. unfold forwardHistory.
  destruct (fwdHistory creq) as [h0|] eqn:Eh.
  - destruct (existsb (Nat.eqb tgt) (hist_of st h0)); [discriminate|].
    intros H. injection H as <- <-.
    pose proof (Hh cur creq h0 Hcur Eh) as Hlt.
    split; [reflexivity|]. split; [simpl; lia|]. split; [|exact Hlt].
    split; [|exact Hh].
    intros n Hn. simpl in Hn |- *. destruct (Hf n Hn) as [E1 E2]. split; [exact E1|].
    unfold upd. simpl. destruct (Nat.eqb_spec n h0); [lia|exact E2].
  - intros H. injection H as <- <-. simpl.
    split; [reflexivity|]. split; [lia|]. split; [|lia].
    split.
    + intros n Hn. simpl in Hn. destruct (Hf n ltac:(lia)) as [E1 E2].
      split; [exact E1|]. unfold upd. simpl. destruct (Nat.eqb_spec n (fresh st)); [lia|exact E2].
    + intros n r h' Hn Hr. simpl. pose proof (Hh n r h' Hn Hr). lia.
Qed.

Lemma createSubRequest_heap (st : FState) (pid : nat) (parent : Req) (pm : string) (h : nat) :
  heap_ok st -> links_ok st -> reqs st pid = Some parent -> h < fresh st ->
  heap_ok (fst (createSubRequest st pid parent pm h)) /\
  links_ok (fst (createSubRequest st pid parent pm h)) /\
  fresh st <= fresh (fst (createSubRequest st pid parent pm h)).
Proof.
  intros [Hf Hh] Hl Hpid Hhl.
  pose proof (fresh_ok_lt st pid parent Hf Hpid) as Hplt.
  set (orig := match originalReq parent with Some o => o | None => pid end).
  assert (Horig : exists ro, reqs st orig = Some ro /\ originalReq ro = None).
  { unfold orig. destruct (originalReq parent) as [o|] eqn:Eo.
    - exact (proj1 Hl pid parent o Hpid Eo).
    - exists parent. split; assumption. }
  unfold createSubRequest. fold orig.
  set (ob := match reqs st orig with Some o => bodyUndefined o | None => true end).
  set (meth := toUpperCase (str_or (Some pm) (str_or (Some (req_method parent)) "GET"))).
  set (chb := negb (existsb (String.eqb meth) ["GET"; "HEAD"; "DELETE"])).
  set (cp := ob && negb (match canPipe parent with Some false => true | _ => false end)).
  set (sub := mkReq meth None (Some h) (if chb then Some cp else None) ob (Some orig)
                    (Some pid) (chb && cp)).
  set (rq1 := upd (reqs st) (fresh st) sub).
  set (rq := if chb && cp then upd rq1 pid (set_canPipe (Some false) parent) else rq1).
  assert (Hrq : forall x, rq x =
            if Nat.eqb x (fresh st) then Some sub
            else if Nat.eqb x pid then
              (if chb && cp then Some (set_canPipe (Some false) parent) else reqs st x)
            else reqs st x).
  { intros x. unfold rq, rq1, upd. cbv beta.
    destruct (chb && cp);
      destruct (Nat.eqb_spec x (fresh st)) as [Hx|Hx];
      destruct (Nat.eqb_spec x pid) as [Hxp|Hxp]; try lia; reflexivity. }
  simpl. split; [|split; [|lia]].
  - split.
    + intros n Hn. simpl in Hn |- *. rewrite Hrq.
      rewrite (proj2 (Nat.eqb_neq n (fresh st))) by lia.
      rewrite (proj2 (Nat.eqb_neq n pid)) by lia.
      destruct (Hf n ltac:(lia)) as [E1 E2]. split; assumption.
    + intros n r h' Hn Hr. simpl in Hn |- *. rewrite Hrq in Hn.
      destruct (Nat.eqb n (fresh st)).
      * injection Hn as <-. simpl in Hr. injection Hr as <-. lia.
      * destruct (Nat.eqb_spec n pid) as [->|Hnp].
        -- destruct (chb && cp).
           ++ injection Hn as <-. destruct parent; simpl in Hr.
              pose proof (Hh pid _ h' Hpid Hr). lia.
           ++ pose proof (Hh pid r h' Hn Hr). lia.
        -- pose proof (Hh n r h' Hn Hr). lia.
  - apply (links_step st); [exact Hl| |].
    + intros n r Hn. simpl. rewrite Hrq.
      pose proof (fresh_ok_lt st n r Hf Hn) as Hnl.
      rewrite (proj2 (Nat.eqb_neq n (fresh st))) by lia.
      destruct (Nat.eqb_spec n pid) as [->|Hnp].
      * rewrite Hpid in Hn. injection Hn as <-.
        destruct (chb && cp); [|exists parent; auto].
        exists (set_canPipe (Some false) parent). destruct parent; simpl; auto.
      * exists r. auto.
    + intros n r' Hn. simpl in Hn. rewrite Hrq in Hn.
      destruct (Nat.eqb n (fresh st)).
      * right. injection Hn as <-. simpl. split.
        -- intros o Ho. injection Ho as <-. exact Horig.
        -- intros p Hp. injection Hp as <-. exists parent. exact Hpid.
      * left. destruct (Nat.eqb_spec n pid) as [->|Hnp].
        -- destruct (chb && cp).
           ++ injection Hn as <-. exists parent. destruct parent; simpl; auto.
           ++ exists r'. auto.
        -- exists r'. auto.
Qed.

(** X10. A forward from a request that already carries a forwarding
    history, failing after the loop check (no dispatch route found, or
    path generation throwing), leaves the target pushed onto the shared
    history array: the same forward from the same request then fails with
    the loop error, whose chain ends with the target twice. *)
Theorem forward_failure_keeps_history (rt : nat -> Route) getRoute sub_url
    st st1 cur creq routeName verb pm tgt h e :
  reqs st cur = Some creq -> fwdHistory creq = Some h -> getRoute routeName = Some tgt ->
  forward rt getRoute sub_url st cur routeName verb pm = (st1, Err e) ->
  e = NoDispatchRoute routeName \/ e = PathError routeName ->
  forward rt getRoute sub_url st1 cur routeName verb pm =
    (st1, Err (LoopDetected (map (fun r => name (rt r)) (hist_of st h ++ [tgt; tgt])))).
Proof.
  intros Hcur Hh Htgt Hfw Hor.
  destruct (forward_late_err_inv rt getRoute sub_url st cur routeName verb pm st1 e Hfw Hor)
    as (creq' & tgt' & croute & pmeth & h' & E1 & E2 & E3 & E4 & E5 & E6 & E7).
  rewrite Hcur in E1. injection E1 as <-. rewrite Htgt in E2. injection E2 as <-.
  assert (Hst1 : reqs st1 = reqs st /\ hist_of st1 h = hist_of st h ++ [tgt]).
  { unfold forwardHistory in E7. rewrite Hh in E7.
    destruct (existsb (Nat.eqb tgt) (hist_of st h)); [discriminate|].
    injection E7 as <- _. split; [reflexivity|].
    unfold hist_of at 1. simpl. unfold upd. rewrite Nat.eqb_refl. reflexivity. }
  destruct Hst1 as [Hr1 Hh1].
  rewrite (forward_stages rt getRoute sub_url st1 cur routeName verb pm creq tgt croute pmeth)
    by (try rewrite Hr1; assumption).
  unfold forwardHistory. rewrite Hh, Hh1.
  assert (Hin : existsb (Nat.eqb tgt) (hist_of st h ++ [tgt]) = true).
  { apply existsb_exists. exists tgt. split; [apply in_or_app; right; left; reflexivity|].
    apply Nat.eqb_refl. }
  rewrite Hin, <- app_assoc. reflexivity.
Qed.

Lemma forward_failure_keeps_history_witness :
  snd (forward fwd_rt fwd_getRoute no_url
         (fst (forward fwd_rt fwd_getRoute no_url fwd_nested 2 "GP" None None))
         2 "GP" None None) = Err (LoopDetected ["A"; "B"; "GP"; "GP"]).
Proof.
  assert (Hs : snd (forward fwd_rt fwd_getRoute no_url fwd_nested 2 "GP" None None)
               = Err (PathError "GP")) by reflexivity.
  assert (Hfw : forward fwd_rt fwd_getRoute no_url fwd_nested 2 "GP" None None =
                (fst (forward fwd_rt fwd_getRoute no_url fwd_nested 2 "GP" None None),
                 Err (PathError "GP")))
    by (rewrite <- Hs; apply surjective_pairing).
  rewrite (forward_failure_keeps_history fwd_rt fwd_getRoute no_url fwd_nested _ 2
             (match reqs fwd_nested 2 with Some r => r | None => incoming "GET" 0 end)
             "GP" None None 4
             (match fwdHistory (match reqs fwd_nested 2 with
                                | Some r => r | None => incoming "GET" 0 end) with
              | Some h => h | None => 0 end)
             (PathError "GP") eq_refl eq_refl eq_refl Hfw (or_intror eq_refl)).
  reflexivity.
Defined.

(** X11. Forwarding, completing a forward and routing a request keep the
    request heap sound: no identity at or above the next free one is used
    (also as a forwarding history), every [parentReq] is a request, and
    every [originalReq] is a request without an [originalReq] of its own,
    so sub-requests of sub-requests still name the incoming request as
    their original request. *)
Theorem forward_keeps_heap_links (rt : nat -> Route) getRoute sub_url st :
  heap_ok st -> links_ok st ->
  (forall cur routeName verb pm,
     heap_ok (fst (forward rt getRoute sub_url st cur routeName verb pm)) /\
     links_ok (fst (forward rt getRoute sub_url st cur routeName verb pm))) /\
  (forall d didSetupPipe err,
     heap_ok (fst (complete st d didSetupPipe err)) /\
     links_ok (fst (complete st d didSetupPipe err))) /\
  (forall rid rn, heap_ok (routeRequest st rid rn) /\ links_ok (routeRequest st rid rn)).
Proof.
  intros Hh Hl.
  assert (Hupd : forall k r r', reqs st k = Some r ->
            originalReq r' = originalReq r -> parentReq r' = parentReq r ->
            fwdHistory r' = fwdHistory r ->
            heap_ok (set_reqs (upd (reqs st) k r') st) /\
            links_ok (set_reqs (upd (reqs st) k r') st)).
  { intros k r r' Hk Eo Ep Eh. destruct Hh as [Hf Hhist]. split; [split|].
    - intros n Hn. simpl in Hn |- *. destruct (Hf n Hn) as [E1 E2]. split; [|exact E2].
      unfold upd. pose proof (fresh_ok_lt st k r Hf Hk).
      destruct (Nat.eqb_spec n k); [lia|exact E1].
    - intros n r0 h Hn Hr0. simpl in Hn |- *. unfold upd in Hn.
      destruct (Nat.eqb n k).
      + injection Hn as <-. rewrite Eh in Hr0. exact (Hhist k r h Hk Hr0).
      + exact (Hhist n r0 h Hn Hr0).
    - apply (links_step st); [exact Hl| |].
      + intros n r0 Hn. simpl. unfold upd. destruct (Nat.eqb_spec n k) as [->|].
        * rewrite Hk in Hn. injection Hn as <-. exists r'. auto.
        * exists r0. auto.
      + intros n r0 Hn. simpl in Hn. unfold upd in Hn. left.
        destruct (Nat.eqb_spec n k) as [->|].
        * injection Hn as <-. exists r. auto.
        * exists r0. auto. }
  split; [|split].
  - intros cur routeName verb pm.
    destruct (forward_cases rt getRoute sub_url st cur routeName verb pm)
      as [->|(creq & croute & tgt & st1 & h & Hcur & Eh & Hend)]; [split; assumption|].
    destruct (forwardHistory_heap_ok rt st creq croute tgt st1 h cur Hh Hcur Eh)
      as [Er [_ [Hh1 Hhl]]].
    assert (Hl1 : links_ok st1) by (unfold links_ok; rewrite Er; exact Hl).
    destruct Hend as [->|[pmeth ->]]; [split; assumption|].
    destruct (createSubRequest_heap st1 cur creq pmeth h Hh1 Hl1
                ltac:(rewrite Er; exact Hcur) Hhl) as [Hh2 [Hl2 _]].
    split; [exact Hh2|exact Hl2].
  - intros d didSetupPipe err. unfold complete.
    destruct (reqs st (dreq d)) as [sub|]; [|split; assumption].
    destruct (pipeTeardown sub && negb didSetupPipe); [|split; assumption].
    destruct (parentReq sub) as [p|], (originalReq sub) as [o|]; try (split; assumption).
    destruct (Nat.eqb p o); [split; assumption|].
    destruct (reqs st p) as [pr|] eqn:Ep; [|split; assumption].
    destruct (Hupd p pr (set_canPipe (Some true) pr) Ep) as [H1 H2];
      try (destruct pr; reflexivity).
    split; assumption.
  - intros rid rn. unfold routeRequest.
    destruct (reqs st rid) as [r|] eqn:Er; [|split; assumption].
    apply (Hupd rid r); try (destruct r; reflexivity). exact Er.
Qed.

Lemma fwd_st0_heap_links : heap_ok (fwd_st0 "GET" 1) /\ links_ok (fwd_st0 "GET" 1).
Proof.
  split; [split|split].
  - intros n Hn. simpl in Hn |- *. unfold upd.
    destruct (Nat.eqb_spec n 0); [lia|split; reflexivity].
  - intros n r h Hn Hr. simpl in Hn. unfold upd in Hn.
    destruct (Nat.eqb n 0); [injection Hn as <-; discriminate|discriminate].
  - intros n r o Hn Hr. simpl in Hn. unfold upd in Hn.
    destruct (Nat.eqb n 0); [injection Hn as <-; discriminate|discriminate].
  - intros n r p Hn Hr. simpl in Hn. unfold upd in Hn.
    destruct (Nat.eqb n 0); [injection Hn as <-; discriminate|discriminate].
Qed.

Lemma forward_keeps_heap_links_witness :
  heap_ok (fst (forward fwd_rt fwd_getRoute fwd_url (fwd_st0 "GET" 1) 0 "B" None None)) /\
  links_ok (fst (forward fwd_rt fwd_getRoute fwd_url (fwd_st0 "GET" 1) 0 "B" None None)).
Proof.
  exact (proj1 (forward_keeps_heap_links fwd_rt fwd_getRoute fwd_url (fwd_st0 "GET" 1)
                  (proj1 fwd_st0_heap_links) (proj2 fwd_st0_heap_links)) 0 "B" None None).
Defined.

Section PathRequirements.

Variable rt : nat -> Route.

Lemma reduceSegment_checks_off route self params memo seg m :
  reduceSegment rt route self params true memo seg = Ok m ->
  reduceSegment rt route self params false memo seg = Ok m.
Proof.
  destruct seg as [v cv|v param optional regExp defaultValue]; simpl; [exact (fun H => H)|]. cbv zeta.
  destruct (truthy (obj_read params param)).
  - destruct (match regExp with Some test => negb (test (value_of (obj_read params param))) | None => false end);
      [discriminate|exact (fun H => H)].
  - destruct (truthy defaultValue).
    + destruct (match regExp with Some test => negb (test (value_of defaultValue)) | None => false end);
        [discriminate|exact (fun H => H)].
    + exact (fun H => H).
Qed.

Lemma reduceSegment_no_requirement route self params memo seg rn v d prm ch :
  reduceSegment rt route self params false memo seg <> Err (Requirement rn v d prm ch).
Proof.
  destruct seg as [w cv|w param optional regExp defaultValue]; simpl; [discriminate|]. cbv zeta.
  destruct (truthy (obj_read params param)); [discriminate|].
  destruct (truthy defaultValue); [discriminate|].
  destruct optional; discriminate.
Qed.

Lemma reduceSegments_checks_off route self params segs : forall memo m,
  reduceSegments rt route self params true segs memo = Ok m ->
  reduceSegments rt route self params false segs memo = Ok m.
Proof.
  induction segs as [|seg rest IH]; intros memo m H; [exact H|].
  simpl in H |- *.
  destruct (reduceSegment rt route self params true memo seg) as [m1|e] eqn:E;
    cbn [bind] in H; [|discriminate].
  rewrite (reduceSegment_checks_off _ _ _ _ _ _ E). cbn [bind]. exact (IH m1 m H).
Qed.

Lemma reduceSegments_no_requirement route self params segs rn v d prm ch : forall memo,
  reduceSegments rt route self params false segs memo <> Err (Requirement rn v d prm ch).
Proof.
  induction segs as [|seg rest IH]; intros memo; simpl; [discriminate|].
  destruct (reduceSegment rt route self params false memo seg) as [m1|e] eqn:E;
    cbn [bind]; [apply IH|].
  intros He. injection He as He. rewrite He in E. exact (reduceSegment_no_requirement _ _ _ _ _ _ _ _ _ _ E).
Qed.

Lemma generatePath_loop_checks_off fuel : forall route self params top joined p,
  generatePath_loop rt fuel route self params true top joined = Ok p ->
  generatePath_loop rt fuel route self params false top joined = Ok p.
Proof.
  induction fuel as [|f IH]; intros route self params top joined p H; [exact H|].
  simpl in H |- *. destruct (patternIsRegExp (rt route)); [exact H|].
  destruct (reduceSegments rt route self params true (segments (rt route)) "") as [s|e] eqn:E;
    cbn [bind] in H; [|discriminate].
  rewrite (reduceSegments_checks_off _ _ _ _ _ _ E). cbn [bind].
  destruct (getParentRoute rt route) as [q|]; [|exact H].
  destruct (top_is top q); [exact H|]. exact (IH _ _ _ _ _ _ H).
Qed.

Lemma generatePath_loop_no_requirement fuel rn v d prm ch :
  forall route self params top joined,
  generatePath_loop rt fuel route self params false top joined <> Err (Requirement rn v d prm ch).
Proof.
  induction fuel as [|f IH]; intros route self params top joined; simpl; [discriminate|].
  destruct (patternIsRegExp (rt route)); [discriminate|].
  destruct (reduceSegments rt route self params false (segments (rt route)) "") as [s|e] eqn:E;
    cbn [bind].
  - destruct (getParentRoute rt route) as [q|]; [|discriminate].
    destruct (top_is top q); [discriminate|apply IH].
  - intros He. injection He as He. rewrite He in E. exact (reduceSegments_no_requirement _ _ _ _ _ _ _ _ _ _ E).
Qed.

End PathRequirements.

(** X12. With [checkRequirements] false, [generatePath] never throws a
    requirement error, and a path that [generatePath] produces with the
    requirements checked is produced unchanged with them unchecked: turning
    the check off only removes failures. *)
Theorem generatePath_requirements_off (rt : nat -> Route) (self : nat)
  (params : string -> option string) (queryString : string) (top : option nat) :
  (forall p, generatePath rt self params queryString true top = Ok p ->
     generatePath rt self params queryString false top = Ok p) /\
  (forall rn v d prm ch,
     generatePath rt self params queryString false top <> Err (Requirement rn v d prm ch)).
Proof.
  unfold generatePath. split.
  - intros p H.
    destruct (generatePath_loop rt (S self) self self params true top "") as [j|e] eqn:E;
      cbn [bind] in H; [|discriminate].
    rewrite (generatePath_loop_checks_off rt _ _ _ _ _ _ _ E). cbn [bind]. exact H.
  - intros rn v d prm ch.
    destruct (generatePath_loop rt (S self) self self params false top "") as [j|e] eqn:E;
      cbn [bind]; [discriminate|].
    intros He. injection He as He. rewrite He in E. exact (generatePath_loop_no_requirement rt _ _ _ _ _ _ _ _ _ _ _ E).
Qed.

Section HandleParams.

Variable pp : ParsedPattern.

Lemma truthy_value_of (o : option string) : truthy o = true -> Some (value_of o) = o.
Proof. destruct o; [reflexivity|discriminate]. Qed.

Lemma obj_set_eq (o : Obj) k v : obj_set o k v k = Some v.
Proof. unfold obj_set. rewrite String.eqb_refl. reflexivity. Qed.

Lemma obj_set_neq (o : Obj) k k' v : k' <> k -> obj_set o k v k' = o k'.
Proof. intros H. unfold obj_set. destruct (String.eqb_spec k' k); [contradiction|reflexivity]. Qed.

Lemma param_step_inv ps0 D ps np errs q :
  params_inv pp ps0 D ps np ->
  params_inv pp ps0 (D ++ [q]) (fst (fst (param_step pp (ps, np, errs) q)))
                             (snd (fst (param_step pp (ps, np, errs) q))) /\
  snd (param_step pp (ps, np, errs) q) = errs ++ param_error pp ps0 q.
Proof.
  intros HJ. pose proof (HJ q) as Hq.
  assert (Hv : exists ps' np',
     (fst (fst (param_step pp (ps, np, errs) q)), snd (fst (param_step pp (ps, np, errs) q)))
       = (ps', np') /\
     ps' q = (if negb (truthy (ps0 q)) && truthy (pd_defaultValue (pp_paramData pp q)) then pd_defaultValue (pp_paramData pp q) else ps0 q) /\
     np' q = (if negb (truthy (ps0 q)) && truthy (pd_defaultValue (pp_paramData pp q)) then pd_defaultValue (pp_paramData pp q) else None) /\
     (forall k, k <> q -> ps' k = ps k /\ np' k = np k) /\
     snd (param_step pp (ps, np, errs) q) = errs ++ param_error pp ps0 q).
  { unfold param_step, param_error, effective_value, passes.
    destruct (truthy (ps0 q)) eqn:T0; destruct (truthy (pd_defaultValue (pp_paramData pp q))) eqn:TD;
      destruct (existsb (String.eqb q) D) eqn:ED; simpl in Hq |- *;
      destruct Hq as [Hp Hn]; rewrite Hp;
      do 4 (simpl; rewrite ?T0, ?TD);
      repeat match goal with
      | |- context [pd_optional ?x] => destruct (pd_optional x); simpl
      | |- context [pd_regExp ?x] => destruct (pd_regExp x) as [test|]; simpl
      | |- context [?test (value_of ?v)] =>
          match type of test with string -> bool => destruct (test (value_of v)); simpl end
      end; simpl; rewrite ?andb_false_r, ?app_nil_r;
      first
        [ exists ps, np; split; [reflexivity|]; split; [exact Hp|]; split; [exact Hn|];
          split; [intros; split; reflexivity|reflexivity]
        | exists (obj_set ps q (value_of (pd_defaultValue (pp_paramData pp q)))),
                 (obj_set np q (value_of (pd_defaultValue (pp_paramData pp q))));
          split; [reflexivity|];
          rewrite !obj_set_eq, (truthy_value_of _ TD);
          split; [reflexivity|]; split; [reflexivity|];
          split; [intros k Hk; rewrite !obj_set_neq by exact Hk; split; reflexivity|reflexivity] ]. }
  destruct Hv as (ps' & np' & E & Hpq & Hnq & Hk & Herr).
  split; [|exact Herr].
  rewrite (f_equal fst E : fst (fst (param_step pp (ps, np, errs) q)) = ps').
  rewrite (f_equal snd E : snd (fst (param_step pp (ps, np, errs) q)) = np').
  intros k. rewrite existsb_app. simpl.
  destruct (String.eqb_spec k q) as [->|Hne].
  - rewrite Hpq, Hnq, orb_true_r, andb_true_r.
    destruct (negb (truthy (ps0 q)) && truthy (pd_defaultValue (pp_paramData pp q))); split; reflexivity.
  - rewrite orb_false_r. destruct (Hk k Hne) as [-> ->]. exact (HJ k).
Qed.

Lemma params_fold ps0 : forall l D ps np errs,
  params_inv pp ps0 D ps np ->
  params_inv pp ps0 (D ++ l) (fst (fst (fold_left (param_step pp) l (ps, np, errs))))
                           (snd (fst (fold_left (param_step pp) l (ps, np, errs)))) /\
  snd (fold_left (param_step pp) l (ps, np, errs)) = errs ++ flat_map (param_error pp ps0) l.
Proof.
  induction l as [|q l IH]; intros D ps np errs HJ.
  - simpl. rewrite app_nil_r, app_nil_r. split; [exact HJ|reflexivity].
  - cbn [fold_left flat_map]. destruct (param_step_inv ps0 D ps np errs q HJ) as [HJ1 He1].
    destruct (param_step pp (ps, np, errs) q) as [[ps1 np1] errs1] eqn:E. simpl in HJ1, He1.
    destruct (IH (D ++ [q]) ps1 np1 errs1 HJ1) as [HJ2 He2].
    rewrite <- app_assoc in HJ2. split; [exact HJ2|].
    rewrite He2, He1, <- app_assoc. reflexivity.
Qed.

Lemma params_inv_init ps0 : params_inv pp ps0 [] ps0 obj_empty.
Proof. intros k. rewrite andb_false_r. split; reflexivity. Qed.

Lemma extras_fold : forall (l : list (string * string)) (ps np : Obj),
  (forall k, truthy (ps k) = true ->
     fst (fold_left extra_default_step l (ps, np)) k = ps k) /\
  (forall k, ~ In k (map fst l) ->
     fst (fold_left extra_default_step l (ps, np)) k = ps k /\
     snd (fold_left extra_default_step l (ps, np)) k = np k) /\
  (forall k, In k (map fst l) ->
     snd (fold_left extra_default_step l (ps, np)) k =
     fst (fold_left extra_default_step l (ps, np)) k /\
     fst (fold_left extra_default_step l (ps, np)) k <> None) /\
  (forall k v, In (k, v) l -> v <> "" ->
     truthy (fst (fold_left extra_default_step l (ps, np)) k) = true).
Proof.
  induction l as [|[k0 v0] l IH]; intros ps np.
  - simpl. split; [reflexivity|]. split; [split; reflexivity|].
    split; intros; contradiction.
  - cbn [fold_left map fst].
    set (x := if truthy (ps k0) then value_of (ps k0) else v0).
    assert (Hs : extra_default_step (ps, np) (k0, v0) = (obj_set ps k0 x, obj_set np k0 x))
      by reflexivity.
    rewrite Hs.
    destruct (IH (obj_set ps k0 x) (obj_set np k0 x)) as (I1 & I2 & I3 & I4).
    assert (Hx : truthy (Some x) = true -> truthy (obj_set ps k0 x k0) = true)
      by (rewrite obj_set_eq; exact (fun H => H)).
    split; [|split; [|split]].
    + intros k Hk. rewrite I1.
      * destruct (String.eqb_spec k k0) as [->|Hne].
        -- rewrite obj_set_eq. unfold x. rewrite Hk. exact (truthy_value_of _ Hk).
        -- apply obj_set_neq. exact Hne.
      * destruct (String.eqb_spec k k0) as [->|Hne].
        -- rewrite obj_set_eq. unfold x. rewrite Hk. rewrite (truthy_value_of _ Hk). exact Hk.
        -- rewrite obj_set_neq by exact Hne. exact Hk.
    + intros k Hk. assert (Hne : k <> k0) by (intros ->; apply Hk; left; reflexivity).
      assert (Hk' : ~ In k (map fst l)) by (intros H; apply Hk; right; exact H).
      destruct (I2 k Hk') as [-> ->]. rewrite !obj_set_neq by exact Hne. split; reflexivity.
    + intros k [<-|Hk]; [|exact (I3 k Hk)].
      destruct (in_dec string_dec k0 (map fst l)) as [Hin|Hnin]; [exact (I3 k0 Hin)|].
      destruct (I2 k0 Hnin) as [-> ->]. rewrite !obj_set_eq. split; [reflexivity|discriminate].
    + intros k v [Hkv|Hkv] Hv; [|exact (I4 k v Hkv Hv)].
      injection Hkv as <- <-.
      assert (Ht : truthy (obj_set ps k0 x k0) = true).
      { rewrite obj_set_eq. unfold x. destruct (truthy (ps k0)) eqn:T.
        - rewrite (truthy_value_of _ T). exact T.
        - simpl. destruct (String.eqb_spec v0 ""); [contradiction|reflexivity]. }
      rewrite (I1 k0 Ht). exact Ht.
Qed.

End HandleParams.

(** X13. [_handleRequestParams] always ends with one call of [next()]
    without an error, after one [next(err)] call per failing parameter of
    the pattern.  A parameter fails when the value it is checked with (the
    request's value after merging [_routicornExtraParams] when truthy, else
    its default) is missing or empty and the parameter is not optional
    ('Missing parameter'), or is present and fails the parameter's
    requirement ('Invalid value'); no other error is reported. *)
Theorem handleRequestParams_next_calls (pp : ParsedPattern) (r : ParamReq) :
  (exists errs, snd (handleRequestParams pp r) = map Some errs ++ [None]) /\
  (forall q, In q (pp_params pp) ->
     truthy (effective_value pp (merged_params r) q) = false ->
     pd_optional (pp_paramData pp q) = false ->
     In (Some (MissingParameter q)) (snd (handleRequestParams pp r))) /\
  (forall q v, In q (pp_params pp) ->
     effective_value pp (merged_params r) q = Some v -> v <> "" ->
     passes (pd_regExp (pp_paramData pp q)) v = false ->
     In (Some (InvalidValue v q)) (snd (handleRequestParams pp r))) /\
  (forall e, In (Some e) (snd (handleRequestParams pp r)) ->
     exists q, In q (pp_params pp) /\
       ((e = MissingParameter q /\
         truthy (effective_value pp (merged_params r) q) = false /\
         pd_optional (pp_paramData pp q) = false) \/
        (exists v, e = InvalidValue v q /\
         effective_value pp (merged_params r) q = Some v /\ v <> "" /\
         passes (pd_regExp (pp_paramData pp q)) v = false))).
Proof.
  assert (Hcalls : snd (handleRequestParams pp r) =
            map Some (flat_map (param_error pp (merged_params r)) (pp_params pp)) ++ [None]).
  { unfold handleRequestParams.
    destruct (params_fold pp (merged_params r) (pp_params pp) [] (merged_params r) obj_empty []
                (params_inv_init pp (merged_params r))) as [_ He].
    destruct (fold_left (param_step pp) (pp_params pp) (merged_params r, obj_empty, []))
      as [[ps1 np1] errs] eqn:E.
    simpl in He.
    destruct (fold_left extra_default_step (pp_extraDefaultParams pp) (ps1, np1)) as [ps2 np2].
    simpl. rewrite He. reflexivity. }
  rewrite Hcalls.
  split; [eexists; reflexivity|]. split; [|split].
  - intros q Hq Hf Ho. apply in_or_app. left. apply in_map. apply in_flat_map.
    exists q. split; [exact Hq|]. unfold param_error. rewrite Hf, Ho. left. reflexivity.
  - intros q v Hq Hv Hne Hp. apply in_or_app. left. apply in_map. apply in_flat_map.
    exists q. split; [exact Hq|]. unfold param_error. rewrite Hv. simpl.
    destruct (String.eqb_spec v ""); [contradiction|]. simpl. rewrite Hp. left. reflexivity.
  - intros e He. apply in_app_or in He. destruct He as [He|[He|[]]]; [|discriminate].
    apply in_map_iff in He. destruct He as [e' [Ee He']]. injection Ee as ->.
    apply in_flat_map in He'. destruct He' as [q [Hq Hin]]. exists q. split; [exact Hq|].
    unfold param_error in Hin.
    destruct (truthy (effective_value pp (merged_params r) q)) eqn:T.
    + destruct (passes (pd_regExp (pp_paramData pp q))
                  (value_of (effective_value pp (merged_params r) q))) eqn:P;
        [contradiction|].
      destruct Hin as [<-|[]]. right.
      exists (value_of (effective_value pp (merged_params r) q)).
      split; [reflexivity|]. split; [exact (eq_sym (truthy_value_of _ T))|].
      split; [|exact P].
      destruct (effective_value pp (merged_params r) q) as [s|]; [|discriminate].
      simpl in T |- *. intros ->. discriminate.
    + destruct (pd_optional (pp_paramData pp q)) eqn:O; [contradiction|].
      destruct Hin as [<-|[]]. left. split; [reflexivity|]. split; reflexivity.
Qed.

Lemma handleRequestParams_next_calls_witness :
  snd (handleRequestParams pp_ex (mkParamReq (obj_set obj_empty "id" "x") None)) =
  [Some (InvalidValue "x" "id"); None] /\
  In (Some (InvalidValue "x" "id"))
     (snd (handleRequestParams pp_ex (mkParamReq (obj_set obj_empty "id" "x") None))).
Proof.
  split; [reflexivity|].
  apply (proj1 (proj2 (proj2 (handleRequestParams_next_calls pp_ex
           (mkParamReq (obj_set obj_empty "id" "x") None)))) "id" "x");
    [left; reflexivity|reflexivity|discriminate|reflexivity].
Defined.

(** X14. [_handleRequestParams] never overwrites a truthy value of
    [req.params].  It fills a pattern parameter without a truthy value but
    with a truthy default with that default, and sets every extra default
    parameter (to a truthy value when its default is not empty); each value
    it sets is also stored in [req._routicornExtraParams] for the routes
    that handle the request later.  Other keys keep their value in both. *)
Theorem handleRequestParams_fills (pp : ParsedPattern) (r : ParamReq) :
  exists e', rq_extraParams (fst (handleRequestParams pp r)) = Some e' /\
  (forall k, truthy (merged_params r k) = true ->
     rq_params (fst (handleRequestParams pp r)) k = merged_params r k) /\
  (forall k, In k (pp_params pp) -> truthy (merged_params r k) = false ->
     truthy (pd_defaultValue (pp_paramData pp k)) = true ->
     rq_params (fst (handleRequestParams pp r)) k = pd_defaultValue (pp_paramData pp k) /\
     e' k = pd_defaultValue (pp_paramData pp k)) /\
  (forall k v, In (k, v) (pp_extraDefaultParams pp) ->
     e' k = rq_params (fst (handleRequestParams pp r)) k /\
     (v <> "" -> truthy (rq_params (fst (handleRequestParams pp r)) k) = true)) /\
  (forall k, ~ In k (pp_params pp) -> ~ In k (map fst (pp_extraDefaultParams pp)) ->
     rq_params (fst (handleRequestParams pp r)) k = merged_params r k /\
     e' k = match rq_extraParams r with Some e => e k | None => None end).
Proof.
  destruct (params_fold pp (merged_params r) (pp_params pp) [] (merged_params r) obj_empty []
              (params_inv_init pp (merged_params r))) as [HJ _].
  unfold handleRequestParams.
  destruct (fold_left (param_step pp) (pp_params pp) (merged_params r, obj_empty, []))
    as [[ps1 np1] errs] eqn:E.
  simpl in HJ.
  destruct (extras_fold (pp_extraDefaultParams pp) ps1 np1) as (X1 & X2 & X3 & X4).
  destruct (fold_left extra_default_step (pp_extraDefaultParams pp) (ps1, np1)) as [ps2 np2].
  simpl in X1, X2, X3, X4. simpl.
  set (extra := match rq_extraParams r with Some e => e | None => obj_empty end).
  exists (obj_extend extra np2). split; [reflexivity|].
  split; [|split; [|split]].
  - intros k Hk. pose proof (HJ k) as Jk. rewrite Hk in Jk. simpl in Jk.
    destruct Jk as [J1 _]. rewrite X1; [exact J1|]. rewrite J1. exact Hk.
  - intros k Hin Hf Hd. pose proof (HJ k) as Jk. rewrite Hf, Hd in Jk.
    assert (Hex : existsb (String.eqb k) (pp_params pp) = true).
    { apply existsb_exists. exists k. split; [exact Hin|apply String.eqb_refl]. }
    rewrite Hex in Jk. simpl in Jk. destruct Jk as [J1 J2].
    assert (Hps : ps2 k = pd_defaultValue (pp_paramData pp k)).
    { rewrite X1; [exact J1|]. rewrite J1. exact Hd. }
    split; [exact Hps|]. unfold obj_extend.
    destruct (in_dec string_dec k (map fst (pp_extraDefaultParams pp))) as [Hx|Hx].
    + destruct (X3 k Hx) as [-> _]. rewrite Hps.
      destruct (pd_defaultValue (pp_paramData pp k)); [reflexivity|discriminate].
    + destruct (X2 k Hx) as [_ ->]. rewrite J2.
      destruct (pd_defaultValue (pp_paramData pp k)); [reflexivity|discriminate].
  - intros k v Hkv. 
    assert (Hx : In k (map fst (pp_extraDefaultParams pp)))
      by (apply in_map_iff; exists (k, v); split; [reflexivity|exact Hkv]).
    destruct (X3 k Hx) as [Hn Hs]. split.
    + unfold obj_extend. rewrite Hn. destruct (ps2 k); [reflexivity|contradiction].
    + intros Hv. exact (X4 k v Hkv Hv).
  - intros k Hp Hx. pose proof (HJ k) as Jk.
    assert (Hex : existsb (String.eqb k) (pp_params pp) = false).
    { destruct (existsb (String.eqb k) (pp_params pp)) eqn:Ex; [|reflexivity].
      apply existsb_exists in Ex. destruct Ex as [k' [Hk' Ek]].
      apply String.eqb_eq in Ek. subst k'. contradiction. }
    rewrite Hex, andb_false_r in Jk. destruct Jk as [J1 J2].
    destruct (X2 k Hx) as [P1 P2]. split; [rewrite P1; exact J1|].
    unfold obj_extend. rewrite P2, J2. unfold extra.
    destruct (rq_extraParams r); reflexivity.
Qed.

Lemma own_lookup_app_none ps k v e :
  own_lookup ps k = None -> own_lookup (ps ++ [(k, v, e)]) k = Some v.
Proof.
  induction ps as [|[[k' v'] e'] ps IH]; simpl; intros H.
  - rewrite String.eqb_refl. reflexivity.
  - destruct (String.eqb k' k); [discriminate|exact (IH H)].
Qed.

Lemma own_lookup_define_own ps k v e : own_lookup (define_own ps k v e) k = Some v.
Proof.
  unfold define_own. destruct (existsb (fun p => String.eqb (fst (fst p)) k) ps) eqn:Ex.
  - induction ps as [|[[k' v'] e'] ps IH]; simpl in Ex |- *; [discriminate|].
    destruct (String.eqb k' k) eqn:Ek; simpl; rewrite Ek; [reflexivity|exact (IH Ex)].
  - apply own_lookup_app_none.
    induction ps as [|[[k' v'] e'] ps IH]; simpl in Ex |- *; [reflexivity|].
    destruct (String.eqb k' k); [discriminate|exact (IH Ex)].
Qed.

Lemma upd_eq {A} (m : heap A) k v : upd m k v k = Some v.
Proof. unfold upd. rewrite Nat.eqb_refl. reflexivity. Qed.

Lemma upd_neq {A} (m : heap A) k k' v : k' <> k -> upd m k v k' = m k'.
Proof. intros H. unfold upd. destruct (Nat.eqb_spec k' k); [contradiction|reflexivity]. Qed.

Lemma jheap_ok_lt h n ob : jheap_ok h -> hobjs h n = Some ob -> n < hfresh h.
Proof.
  intros Hf Hn. destruct (Nat.lt_ge_cases n (hfresh h)) as [Hlt|Hge]; [exact Hlt|].
  rewrite (proj1 Hf n Hge) in Hn. discriminate.
Qed.

(** What [injectPrototype] leaves behind: the object points at the new
    copy, which holds the original prototype under the key. *)
Lemma injectPrototype_shape h h1 o a ob :
  jheap_ok h -> hobjs h o = Some ob -> injectPrototype h o a = Some h1 ->
  jheap_ok h1 /\ hfresh h1 = S (hfresh h) /\
  hobjs h1 o = Some (mkJObj (Some (hfresh h)) (jprops ob)) /\
  (exists cb, hobjs h1 (hfresh h) = Some cb /\ jproto cb = jproto ob /\
     own_lookup (jprops cb) KEY_ORIGINAL_PROTOTYPE = Some (proto_val (jproto ob))) /\
  (forall n, n <> o -> n <> hfresh h -> hobjs h1 n = hobjs h n).
Proof.
  intros Hf Ho Hi. pose proof (jheap_ok_lt h o ob Hf Ho) as Hlt.
  unfold injectPrototype in Hi. rewrite Ho in Hi.
  destruct (hobjs h a) as [pb|]; [|discriminate].
  injection Hi as <-. unfold set_proto. simpl.
  rewrite (upd_neq (hobjs h) (hfresh h) o) by lia. rewrite Ho.
  simpl. split; [|split; [reflexivity|split; [|split]]].
  - split.
    + intros n Hn. simpl in Hn |- *. rewrite !upd_neq by lia. apply (proj1 Hf). lia.
    + intros n ob' p Hn Hp'. simpl in Hn |- *. unfold upd in Hn.
      destruct (Nat.eqb_spec n o).
      { injection Hn as <-. simpl in Hp'. injection Hp' as <-. lia. }
      destruct (Nat.eqb_spec n (hfresh h)).
      { injection Hn as <-. simpl in Hp'. pose proof (proj2 Hf o ob p Ho Hp'). lia. }
      pose proof (proj2 Hf n ob' p Hn Hp'). lia.
  - apply upd_eq.
  - eexists. rewrite upd_neq by lia. rewrite upd_eq. split; [reflexivity|].
    split; [reflexivity|]. simpl. apply own_lookup_define_own.
  - intros n H1 H2. rewrite !upd_neq by assumption. reflexivity.
Qed.

Lemma get_prop_two fuel h o c ob cb k v :
  2 <= fuel -> hobjs h o = Some ob -> own_lookup (jprops ob) k = None ->
  jproto ob = Some c -> hobjs h c = Some cb -> own_lookup (jprops cb) k = Some v ->
  get_prop fuel h o k = v.
Proof.
  intros Hfu Ho Hk Hp Hc Hv.
  destruct fuel as [|[|f]]; [lia|lia|]. simpl. rewrite Ho, Hk, Hp. simpl. rewrite Hc, Hv.
  reflexivity.
Qed.

(** A chain that avoids [o] in [h] avoids it in any heap that agrees with
    [h] on every other object in use. *)
Lemma in_chain_agree h h' o :
  jheap_ok h -> (forall n, n < hfresh h -> n <> o -> hobjs h' n = hobjs h n) ->
  forall f x, x < hfresh h -> in_chain f h x o = false -> in_chain f h' x o = false.
Proof.
  intros Hf Hag f. induction f as [|f IH]; intros x Hx Hc; [reflexivity|].
  simpl in Hc |- *. apply orb_false_iff in Hc as [Hxo Hrest]. rewrite Hxo. simpl.
  apply Nat.eqb_neq in Hxo. rewrite (Hag x Hx Hxo).
  destruct (hobjs h x) as [pb|] eqn:Ex; [|reflexivity].
  destruct (jproto pb) as [q|] eqn:Eq; [|reflexivity].
  exact (IH q (proj2 Hf x pb q Ex Eq) Hrest).
Qed.

(** [restoreOriginalPrototype] right after [injectPrototype] on an object
    without an own property under the key, off its own prototype chain. *)
Lemma restore_after_inject h h1 o a ob :
  jheap_ok h -> hobjs h o = Some ob ->
  own_lookup (jprops ob) KEY_ORIGINAL_PROTOTYPE = None ->
  (forall p, jproto ob = Some p -> forall f, in_chain f h p o = false) ->
  injectPrototype h o a = Some h1 ->
  restoreOriginalPrototype h1 o =
    Some (match jproto ob with Some p => set_proto h1 o (Some p) | None => h1 end).
Proof.
  intros Hf Ho Hk Hac Hi.
  destruct (injectPrototype_shape h h1 o a ob Hf Ho Hi)
    as (_ & Hfr & Ho1 & (cb & Hc & _ & Hcv) & Hoth).
  pose proof (jheap_ok_lt h o ob Hf Ho) as Hlt.
  unfold restoreOriginalPrototype. rewrite Ho1.
  rewrite (get_prop_two (hfresh h1) h1 o (hfresh h) _ cb KEY_ORIGINAL_PROTOTYPE
             (proto_val (jproto ob)) ltac:(lia) Ho1 Hk eq_refl Hc Hcv).
  destruct (jproto ob) as [p|] eqn:Ep; [|reflexivity]. simpl.
  rewrite (in_chain_agree h h1 o Hf (fun n H1 H2 => Hoth n H2 ltac:(lia)) (hfresh h1) p
             (proj2 Hf o ob p Ho Ep) (Hac p eq_refl (hfresh h1))).
  reflexivity.
Qed.

Lemma set_proto_at h o p ob : hobjs h o = Some ob ->
  hobjs (set_proto h o p) o = Some (mkJObj p (jprops ob)).
Proof. intros Ho. unfold set_proto. rewrite Ho. simpl. apply upd_eq. Qed.

Lemma set_proto_other h o p n : n <> o -> hobjs (set_proto h o p) n = hobjs h n.
Proof.
  intros Hn. unfold set_proto. destruct (hobjs h o); [|reflexivity]. simpl.
  apply upd_neq. exact Hn.
Qed.

Lemma jheap_ex_ok : jheap_ok jheap_ex.
Proof.
  split.
  - intros n Hn. simpl in Hn. do 5 (destruct n as [|n]; [lia|]). reflexivity.
  - intros n ob p Hn Hp. destruct n as [|[|[|[|[|n]]]]]; simpl in Hn; try discriminate;
      injection Hn as <-; simpl in Hp; try discriminate; injection Hp as <-; simpl; lia.
Qed.

(** X15. [restoreOriginalPrototype] undoes [injectPrototype] on an object
    with a prototype (no own property named [__originalProto__], and not
    on its prototype's chain, as JavaScript guarantees):
    afterwards the object is exactly as before.  Nested injections (a
    dispatcher inside another) are undone last-in first-out: the inner
    restore brings back the outer injected prototype, the outer restore the
    original one. *)
Theorem injectPrototype_restore (h h1 h2 h3 h4 : JHeap) (o a b p0 : nat) (ob : JObj) :
  jheap_ok h -> hobjs h o = Some ob -> jproto ob = Some p0 ->
  (forall f, in_chain f h p0 o = false) ->
  own_lookup (jprops ob) KEY_ORIGINAL_PROTOTYPE = None ->
  injectPrototype h o a = Some h1 ->
  (restoreOriginalPrototype h1 o = Some h2 -> hobjs h2 o = Some ob) /\
  (injectPrototype h1 o b = Some h2 -> restoreOriginalPrototype h2 o = Some h3 ->
   restoreOriginalPrototype h3 o = Some h4 ->
   hobjs h3 o = hobjs h1 o /\ hobjs h4 o = Some ob).
Proof.
  intros Hf Ho Hp Hac Hk Hi.
  assert (Hac' : forall p, jproto ob = Some p -> forall f, in_chain f h p o = false)
    by (intros p Ep; rewrite Hp in Ep; injection Ep as <-; exact Hac).
  pose proof (restore_after_inject h h1 o a ob Hf Ho Hk Hac' Hi) as Hr1. rewrite Hp in Hr1.
  destruct (injectPrototype_shape h h1 o a ob Hf Ho Hi)
    as (Hf1 & Hfr1 & Ho1 & (cb & Hc & Hcp & Hcv) & Hoth1).
  pose proof (jheap_ok_lt h o ob Hf Ho) as Hlt.
  pose proof (proj2 Hf o ob p0 Ho Hp) as Hp0.
  assert (Hob : mkJObj (Some p0) (jprops ob) = ob) by (destruct ob; simpl in Hp; subst; reflexivity).
  split.
  - intros H2. rewrite Hr1 in H2. injection H2 as <-. rewrite (set_proto_at _ _ _ _ Ho1). simpl.
    rewrite Hob. reflexivity.
  - intros Hi2 H3 H4.
    set (ob1 := mkJObj (Some (hfresh h)) (jprops ob)) in Ho1.
    assert (Hk1 : own_lookup (jprops ob1) KEY_ORIGINAL_PROTOTYPE = None) by exact Hk.
    assert (Hac1 : forall p, jproto ob1 = Some p -> forall f, in_chain f h1 p o = false).
    { intros p Ep f. unfold ob1 in Ep. simpl in Ep. injection Ep as <-.
      destruct f as [|f]; [reflexivity|]. simpl.
      destruct (Nat.eqb_spec (hfresh h) o); [lia|]. simpl. rewrite Hc, Hcp, Hp.
      exact (in_chain_agree h h1 o Hf (fun n H1 H2 => Hoth1 n H2 ltac:(lia)) f p0 Hp0 (Hac f)). }
    pose proof (restore_after_inject h1 h2 o b ob1 Hf1 Ho1 Hk1 Hac1 Hi2) as Hr2.
    simpl in Hr2. rewrite H3 in Hr2. injection Hr2 as ->.
    destruct (injectPrototype_shape h1 h2 o b ob1 Hf1 Ho1 Hi2)
      as (_ & Hfr2 & Ho2 & _ & Hoth2).
    assert (Ho3 : hobjs (set_proto h2 o (Some (hfresh h))) o = Some ob1)
      by (rewrite (set_proto_at _ _ _ _ Ho2); reflexivity).
    split; [rewrite Ho3; symmetry; exact Ho1|].
    assert (Hc3 : hobjs (set_proto h2 o (Some (hfresh h))) (hfresh h) = Some cb).
    { rewrite set_proto_other by lia. rewrite Hoth2 by lia. exact Hc. }
    unfold restoreOriginalPrototype in H4. rewrite Ho3 in H4.
    assert (Hfu : 2 <= hfresh (set_proto h2 o (Some (hfresh h)))).
    { unfold set_proto. rewrite Ho2. simpl. lia. }
    rewrite (get_prop_two _ _ o (hfresh h) ob1 cb KEY_ORIGINAL_PROTOTYPE (proto_val (jproto ob))
               Hfu Ho3 Hk1 eq_refl Hc3 Hcv) in H4.
    assert (Hag3 : forall n, n < hfresh h -> n <> o ->
                   hobjs (set_proto h2 o (Some (hfresh h))) n = hobjs h n).
    { intros n H1 H2. rewrite set_proto_other by exact H2. rewrite Hoth2 by lia.
      apply Hoth1; lia. }
    rewrite Hp in H4. simpl in H4.
    rewrite (in_chain_agree h _ o Hf Hag3 _ p0 Hp0 (Hac _)) in H4.
    injection H4 as <-.
    rewrite (set_proto_at _ _ _ _ Ho3). simpl. rewrite Hob. reflexivity.
Qed.

Lemma injectPrototype_restore_witness :
  (exists h1 h2 h3 h4,
     injectPrototype jheap_ex 1 2 = Some h1 /\ injectPrototype h1 1 3 = Some h2 /\
     restoreOriginalPrototype h2 1 = Some h3 /\ restoreOriginalPrototype h3 1 = Some h4 /\
     hobjs h4 1 = hobjs jheap_ex 1).
Proof.
  assert (Hf : jheap_ok jheap_ex).
  { exact jheap_ex_ok. }
  destruct (injectPrototype jheap_ex 1 2) as [h1|] eqn:E1; [|discriminate].
  destruct (injectPrototype h1 1 3) as [h2|] eqn:E2.
  2:{ revert E2. rewrite <- (proj1 (conj E1 I)). vm_compute in E1. injection E1 as <-.
      vm_compute. discriminate. }
  destruct (restoreOriginalPrototype h2 1) as [h3|] eqn:E3.
  2:{ revert E3. vm_compute in E1. injection E1 as <-. vm_compute in E2. injection E2 as <-.
      vm_compute. discriminate. }
  destruct (restoreOriginalPrototype h3 1) as [h4|] eqn:E4.
  2:{ revert E4. vm_compute in E1. injection E1 as <-. vm_compute in E2. injection E2 as <-.
      vm_compute in E3. injection E3 as <-. vm_compute. discriminate. }
  exists h1, h2, h3, h4. split; [reflexivity|]. split; [exact E2|]. split; [exact E3|].
  split; [exact E4|].
  exact (proj2 (proj2 (injectPrototype_restore jheap_ex h1 h2 h3 h4 1 2 3 0
                         (mkJObj (Some 0) [("url", JStr "/", true)])
                         Hf eq_refl eq_refl ltac:(intros [|f]; reflexivity) eq_refl E1)
                         E2 E3 E4)).
Defined.

(** X16. For an object whose prototype is [null], [restoreOriginalPrototype]
    does not undo [injectPrototype]: the stored original prototype is
    [null], which is falsy, so the object keeps the injected copy as its
    prototype. *)
Theorem injectPrototype_null_proto_kept (h h1 h2 : JHeap) (o a : nat) (ob : JObj) :
  jheap_ok h -> hobjs h o = Some ob -> jproto ob = None ->
  own_lookup (jprops ob) KEY_ORIGINAL_PROTOTYPE = None ->
  injectPrototype h o a = Some h1 -> restoreOriginalPrototype h1 o = Some h2 ->
  h2 = h1 /\ hobjs h2 o = Some (mkJObj (Some (hfresh h)) (jprops ob)).
Proof.
  intros Hf Ho Hp Hk Hi Hr.
  assert (Hac : forall p, jproto ob = Some p -> forall f, in_chain f h p o = false)
    by (intros p Ep; rewrite Hp in Ep; discriminate).
  rewrite (restore_after_inject h h1 o a ob Hf Ho Hk Hac Hi), Hp in Hr. injection Hr as <-.
  split; [reflexivity|].
  exact (proj1 (proj2 (proj2 (injectPrototype_shape h h1 o a ob Hf Ho Hi)))).
Qed.

Lemma injectPrototype_null_proto_kept_witness :
  exists h1 h2, injectPrototype jheap_ex 4 2 = Some h1 /\ restoreOriginalPrototype h1 4 = Some h2 /\
    hobjs h2 4 = Some (mkJObj (Some 5) [("url", JStr "/", true)]).
Proof.
  assert (Hf : jheap_ok jheap_ex).
  { exact jheap_ex_ok. }
  destruct (injectPrototype jheap_ex 4 2) as [h1|] eqn:E1; [|discriminate].
  destruct (restoreOriginalPrototype h1 4) as [h2|] eqn:E2.
  2:{ revert E2. vm_compute in E1. injection E1 as <-. vm_compute. discriminate. }
  exists h1, h2. split; [reflexivity|]. split; [exact E2|].
  exact (proj2 (injectPrototype_null_proto_kept jheap_ex h1 h2 4 2
                  (mkJObj None [("url", JStr "/", true)]) Hf eq_refl eq_refl eq_refl E1 E2)).
Defined.
